(** * qfinance: option pricing engine

    A shallow embedding of [src/options/Option.py], [src/options/black_scholes.py]
    and [src/options/bopm.py].

    Numbers.  A finite Python or NumPy float is idealised as a real number of
    the Standard Library: rounding, overflow and underflow are outside this
    development.  What a degenerate operand does to an operation is modelled
    where the program is scalar ([black_scholes.py]): a Python float divided
    by zero raises [ZeroDivisionError], and a NumPy operation that gives inf
    or nan (a zero divisor, the logarithm of a number that is not positive,
    the square root of a negative number) ends the run the model follows, with
    the outcome [NotFinite] of the monad [fl].  Inside arrays ([bopm.py]) the
    elementwise division is the total one of the reals; the theorems on the
    values of the lattice assume at least one step and positive volatility and
    time to maturity, under which no divisor is zero.  Two not-a-number values
    that the program itself decides on are kept: the [np.nan] that [find_iv]
    returns after its last iteration, and the [nan] that
    [scipy.stats.binom.pmf] gives for a probability outside [0, 1]; both are
    the constructor [NaN] of [pyfloat].

    Exceptions.  Code that can raise is written in the monad [py], whose
    [Raise] carries the Python exception.

    Arrays.  A NumPy array of at most two dimensions is a shape together with
    its indexing function ([ndarray]); broadcasting is NumPy's rule on shapes
    and on indices. *)

From Stdlib Require Import Reals Lra Lia List String Ascii ZArith Bool Arith.
Import ListNotations.

Set Implicit Arguments.

(* ================================================================== *)
(** * Python: exceptions and strings *)
(* ================================================================== *)

Module Py.

Inductive exn : Type :=
| ValueError (msg : string)
| IndexError
| UnboundLocalError
| ZeroDivisionError.

(** The outcome of running a piece of Python: a value, or a raised exception. *)
Inductive py (A : Type) : Type :=
| Ok (a : A)
| Raise (e : exn).

Arguments Ok {A} a.
Arguments Raise {A} e.

Definition ret {A} (a : A) : py A := Ok a.

Definition bind {A B} (c : py A) (k : A -> py B) : py B :=
  match c with
  | Ok a => k a
  | Raise e => Raise e
  end.

Definition fmap {A B} (f : A -> B) (c : py A) : py B :=
  bind c (fun a => ret (f a)).

(** [for i in idx: s = body(i, s)] *)
Fixpoint for_each {S} (idx : list nat) (body : nat -> S -> py S) (s : S) : py S :=
  match idx with
  | [] => Ok s
  | i :: rest => bind (body i s) (for_each rest body)
  end.

(** [range(n - 1, -1, -1)] *)
Definition range_down (n : nat) : list nat := rev (seq 0 n).

(** [str.lower] on ASCII text. *)
Definition lower_ascii (c : ascii) : ascii :=
  let n := nat_of_ascii c in
  if (65 <=? n) && (n <=? 90) then ascii_of_nat (n + 32) else c.

Fixpoint lower (s : string) : string :=
  match s with
  | EmptyString => EmptyString
  | String c rest => String (lower_ascii c) (lower rest)
  end.

(** A Python float as far as the program tells a number from not-a-number. *)
Inductive pyfloat : Type :=
| Finite (x : R)
| NaN.

End Py.

Import Py.

Declare Scope py_scope.
Delimit Scope py_scope with py.
Notation "x <- c ;; k" := (bind c (fun x => k))
  (at level 61, c at next level, right associativity) : py_scope.
Notation "' pat <- c ;; k" := (bind c (fun x => match x with pat => k end))
  (at level 61, pat pattern, c at next level, right associativity) : py_scope.

Open Scope R_scope.

(* ================================================================== *)
(** * scipy.stats: the standard normal distribution and the binomial law *)
(* ================================================================== *)

Module Stats.

(** The kernel [exp (- t^2 / 2)] of the normal density. *)
Definition gauss (t : R) : R := exp (- t ^ 2 / 2).

Lemma gauss_continuous : forall t, continuity_pt gauss t.
Proof.
  intro t. apply derivable_continuous_pt. unfold gauss. reg.
Qed.

Lemma gauss_integrable : forall a b, Riemann_integrable gauss a b.
Proof.
  intros a b. destruct (Rle_dec a b) as [Hab | Hab].
  - apply continuity_implies_RiemannInt; [exact Hab | intros; apply gauss_continuous].
  - apply RiemannInt_P1, continuity_implies_RiemannInt; [lra | intros; apply gauss_continuous].
Qed.

(** The integral of the kernel from [a] to [b]. *)
Definition gauss_area (a b : R) : R := RiemannInt (gauss_integrable a b).

(** [scipy.stats.norm.cdf]: the standard normal distribution function,
    1/2 + (1 / sqrt (2 pi)) * integral of the kernel from 0 to x. *)
Definition norm_cdf (x : R) : R := 1 / 2 + / sqrt (2 * PI) * gauss_area 0 x.

(** [scipy.stats.binom.pmf(k, n, p)]: the mass of [k] successes in [n]
    trials, zero outside [0 .. n], not-a-number when [p] is no probability. *)
Definition binom_pmf (n : nat) (k : Z) (p : R) : pyfloat :=
  if Rle_dec 0 p then
    if Rle_dec p 1 then
      if (0 <=? k)%Z && (k <=? Z.of_nat n)%Z
      then Finite (C n (Z.to_nat k) * p ^ Z.to_nat k * (1 - p) ^ (n - Z.to_nat k))
      else Finite 0
    else NaN
  else NaN.

End Stats.

(* ================================================================== *)
(** * Scalar float arithmetic *)
(* ================================================================== *)

Module Floats.

(** The outcome of a computation on scalar floats: a finite number; a
    raised exception; or [NotFinite], when a NumPy operation gave inf or
    nan.  NumPy reports that with a RuntimeWarning and goes on; the model
    follows the run no further. *)
Inductive fl (A : Type) : Type :=
| Fin (a : A)
| Exn (e : exn)
| NotFinite.

Arguments Fin {A} a.
Arguments Exn {A} e.
Arguments NotFinite {A}.

Definition bind {A B} (c : fl A) (k : A -> fl B) : fl B :=
  match c with
  | Fin a => k a
  | Exn e => Exn e
  | NotFinite => NotFinite
  end.

(** [x / y] on two Python floats. *)
Definition py_div (x y : R) : fl R :=
  if Req_dec_T y 0 then Exn ZeroDivisionError else Fin (x / y).

(** [x / y] when an operand is a NumPy float. *)
Definition np_div (x y : R) : fl R :=
  if Req_dec_T y 0 then NotFinite else Fin (x / y).

(** [np.log(x)] *)
Definition np_log (x : R) : fl R :=
  if Rlt_dec 0 x then Fin (ln x) else NotFinite.

(** [np.sqrt(x)] *)
Definition np_sqrt (x : R) : fl R :=
  if Rle_dec 0 x then Fin (sqrt x) else NotFinite.

End Floats.

Declare Scope fl_scope.
Delimit Scope fl_scope with fl.
Notation "x <- c ;; k" := (Floats.bind c (fun x => k))
  (at level 61, c at next level, right associativity) : fl_scope.

(* ================================================================== *)
(** * NumPy: arrays, broadcasting, slices *)
(* ================================================================== *)

Module Ndarray.

(** What a field of an [Option] holds: a Python float, or a one-dimensional
    sequence of them (a NumPy array, a pandas Series). *)
Inductive value : Type :=
| Num (x : R)
| Series (xs : list R).

(** An array of zero, one or two dimensions: its shape and its elements. *)
Inductive ndarray (A : Type) : Type :=
| Scalar (x : A)
| Arr1 (len : nat) (f : nat -> A)
| Arr2 (rows cols : nat) (f : nat -> nat -> A).

Arguments Scalar {A} x.
Arguments Arr1 {A} len f.
Arguments Arr2 {A} rows cols f.

Definition ndim {A} (a : ndarray A) : nat :=
  match a with Scalar _ => 0 | Arr1 _ _ => 1 | Arr2 _ _ _ => 2 end.

(** The shape, read as a matrix: missing leading axes have length 1. *)
Definition nrows {A} (a : ndarray A) : nat :=
  match a with Scalar _ => 1 | Arr1 _ _ => 1 | Arr2 r _ _ => r end.

Definition ncols {A} (a : ndarray A) : nat :=
  match a with Scalar _ => 1 | Arr1 len _ => len | Arr2 _ c _ => c end.

(** The index read on an axis of length [dim] when the result's index is
    [i]: an axis of length 1 is stretched. *)
Definition pick (dim i : nat) : nat := if dim =? 1 then 0%nat else i.

Definition get {A} (a : ndarray A) (i j : nat) : A :=
  match a with
  | Scalar x => x
  | Arr1 len f => f (pick len j)
  | Arr2 r c f => f (pick r i) (pick c j)
  end.

(** The array of [d] dimensions with [r] rows, [c] columns and elements [f]. *)
Definition build {A} (d r c : nat) (f : nat -> nat -> A) : ndarray A :=
  match d with
  | O => Scalar (f 0 0)%nat
  | S O => Arr1 c (f 0%nat)
  | _ => Arr2 r c f
  end.

(** Two axis lengths broadcast when they are equal or one of them is 1. *)
Definition bdim (a b : nat) : option nat :=
  if a =? b then Some a
  else if a =? 1 then Some b
  else if b =? 1 then Some a
  else None.

(** The number of rows of a result whose operands have [ra] and [rb] rows,
    when each is 1 or the size of the batch. *)
Definition rmax (ra rb : nat) : nat := if (ra =? 1)%nat then rb else ra.

Definition broadcast_error : exn :=
  ValueError "operands could not be broadcast together".

(** An elementwise binary operation under NumPy's broadcasting rule. *)
Definition broadcast {A B C} (f : A -> B -> C) (a : ndarray A) (b : ndarray B)
  : py (ndarray C) :=
  match bdim (nrows a) (nrows b), bdim (ncols a) (ncols b) with
  | Some r, Some c =>
      Ok (build (Nat.max (ndim a) (ndim b)) r c (fun i j => f (get a i j) (get b i j)))
  | _, _ => Raise broadcast_error
  end.

(** An elementwise unary operation. *)
Definition amap {A B} (f : A -> B) (a : ndarray A) : ndarray B :=
  match a with
  | Scalar x => Scalar (f x)
  | Arr1 len g => Arr1 len (fun j => f (g j))
  | Arr2 r c g => Arr2 r c (fun i j => f (g i j))
  end.

(** [a[..., :-1]] *)
Definition but_last {A} (a : ndarray A) : py (ndarray A) :=
  match a with
  | Scalar _ => Raise IndexError
  | Arr1 len f => Ok (Arr1 (len - 1) f)
  | Arr2 r c f => Ok (Arr2 r (c - 1) f)
  end.

(** [a[..., 1:]] *)
Definition but_first {A} (a : ndarray A) : py (ndarray A) :=
  match a with
  | Scalar _ => Raise IndexError
  | Arr1 len f => Ok (Arr1 (len - 1) (fun j => f (S j)))
  | Arr2 r c f => Ok (Arr2 r (c - 1) (fun i j => f i (S j)))
  end.

(** [a.reshape(1, -1)] *)
Definition reshape_row {A} (a : ndarray A) : ndarray A :=
  Arr2 1 (nrows a * ncols a)
       (fun _ k => get a (k / ncols a) (k mod ncols a))%nat.

(** The elements in row-major order. *)
Definition elements {A} (a : ndarray A) : list A :=
  flat_map (fun i => List.map (get a i) (seq 0 (ncols a))) (seq 0 (nrows a)).

(** [a.flatten()], handed back as a sequence. *)
Definition flatten (a : ndarray R) : value := Series (elements a).

(** [a.item()] *)
Definition item {A} (a : ndarray A) : py A :=
  match elements a with
  | [x] => Ok x
  | _ => Raise (ValueError "can only convert an array of size 1 to a Python scalar")
  end.

(** [a[mask]] for a boolean mask of the array's own shape: the elements
    the mask keeps, in order. *)
Definition mask_index {A} (a : ndarray A) (mask : ndarray bool) : py (list A) :=
  if (ndim a =? ndim mask) && (nrows a =? nrows mask) && (ncols a =? ncols mask)
  then Ok (List.map fst (filter snd (combine (elements a) (elements mask))))
  else Raise IndexError.

(** ** Array expressions

    An expression evaluates to an array or raises; a bound variable and a
    Python number are expressions through the coercions below. *)

Definition expr (A : Type) : Type := py (ndarray A).

Definition arr {A} (a : ndarray A) : expr A := Ok a.
Definition lit (x : R) : expr R := Ok (Scalar x).
Definition int (n : Z) : expr Z := Ok (Scalar n).

Definition lift1 {A B} (f : A -> B) (e : expr A) : expr B := fmap (amap f) e.

Definition lift2 {A B C} (f : A -> B -> C) (e1 : expr A) (e2 : expr B) : expr C :=
  bind e1 (fun a => bind e2 (fun b => broadcast f a b)).

Definition slice_but_last {A} (e : expr A) : expr A := bind e but_last.
Definition slice_but_first {A} (e : expr A) : expr A := bind e but_first.

(** [a[:-1]], [a[1:]] and [a[0]]: slices and an index on the first axis. *)
Definition rows_but_last {A} (a : ndarray A) : py (ndarray A) :=
  match a with
  | Scalar _ => Raise IndexError
  | Arr1 len f => Ok (Arr1 (len - 1) f)
  | Arr2 r c f => Ok (Arr2 (r - 1) c f)
  end.

Definition rows_but_first {A} (a : ndarray A) : py (ndarray A) :=
  match a with
  | Scalar _ => Raise IndexError
  | Arr1 len f => Ok (Arr1 (len - 1) (fun j => f (S j)))
  | Arr2 r c f => Ok (Arr2 (r - 1) c (fun i j => f (S i) j))
  end.

Definition index_first {A} (a : ndarray A) : py (ndarray A) :=
  match a with
  | Scalar _ => Raise IndexError
  | Arr1 len f => if (len =? 0)%nat then Raise IndexError else Ok (Scalar (f 0%nat))
  | Arr2 r c f => if (r =? 0)%nat then Raise IndexError else Ok (Arr1 c (f 0%nat))
  end.

Definition first_axis_but_last {A} (e : expr A) : expr A := bind e rows_but_last.
Definition first_axis_but_first {A} (e : expr A) : expr A := bind e rows_but_first.

End Ndarray.

Import Ndarray.

Coercion arr : ndarray >-> expr.
Coercion lit : R >-> expr.
Coercion int : Z >-> expr.

Module Np.

(** [np.asarray(x)] *)
Definition asarray (x : value) : ndarray R :=
  match x with
  | Num x => Scalar x
  | Series xs => Arr1 (List.length xs) (fun j => nth j xs 0)
  end.

(** [np.arange(n)] *)
Definition arange (n : nat) : ndarray Z := Arr1 n Z.of_nat.

(** [np.sum] of floats: not-a-number as soon as one element is. *)
Fixpoint sum (xs : list pyfloat) : pyfloat :=
  match xs with
  | [] => Finite 0
  | Finite x :: rest =>
      match sum rest with Finite s => Finite (x + s) | NaN => NaN end
  | NaN :: _ => NaN
  end.

(** [np.any(x)]: some element is truthy, that is, nonzero. *)
Definition any (x : value) : bool :=
  match x with
  | Num x => if Req_dec_T x 0 then false else true
  | Series xs => existsb (fun x => if Req_dec_T x 0 then false else true) xs
  end.

Definition exp (e : expr R) : expr R := lift1 Rtrigo_def.exp e.
Definition sqrt (e : expr R) : expr R := lift1 R_sqrt.sqrt e.
Definition maximum (e1 e2 : expr R) : expr R := lift2 Rmax e1 e2.
(** [x ** k] for a float array [x] and an integer array [k] *)
Definition power (e1 : expr R) (e2 : expr Z) : expr R := lift2 powerRZ e1 e2.
(** [n - j] on integers *)
Definition isub (e1 e2 : expr Z) : expr Z := lift2 Z.sub e1 e2.
(** [x / n] for a field [x] and a Python int [n]: a Python float raises on
    [n = 0], an array does not. *)
Definition div_int (x : value) (n : nat) : expr R :=
  match x with
  | Num _ => if (n =? 0)%nat then Raise ZeroDivisionError
             else lift2 Rdiv (arr (asarray x)) (lit (INR n))
  | Series _ => lift2 Rdiv (arr (asarray x)) (lit (INR n))
  end.
(** [a > b] and [a < b] *)
Definition gt (e1 e2 : expr R) : expr bool :=
  lift2 (fun x y => if Rlt_dec y x then true else false) e1 e2.
Definition lt (e1 e2 : expr R) : expr bool :=
  lift2 (fun x y => if Rlt_dec x y then true else false) e1 e2.

End Np.

Declare Scope np_scope.
Delimit Scope np_scope with np.
Bind Scope np_scope with expr.
Notation "a + b" := (lift2 Rplus a b) : np_scope.
Notation "a - b" := (lift2 Rminus a b) : np_scope.
Notation "a * b" := (lift2 Rmult a b) : np_scope.
Notation "a / b" := (lift2 Rdiv a b) : np_scope.
Notation "- a" := (lift1 Ropp a) : np_scope.
Notation "a ** k" := (Np.power a k) (at level 30, right associativity) : np_scope.
Notation "a [..., :-1]" := (slice_but_last a) (at level 1, format "a [..., :-1]") : np_scope.
Notation "a [..., 1:]" := (slice_but_first a) (at level 1, format "a [..., 1:]") : np_scope.
Notation "a [ :-1]" := (first_axis_but_last a) (at level 1, format "a [ :-1]") : np_scope.
Notation "a [ 1:]" := (first_axis_but_first a) (at level 1, format "a [ 1:]") : np_scope.
(** [x = e] for an array expression [e], then the rest of the block. *)
Notation "x ::= e ;; k" := (bind (A := ndarray _) e%np (fun x => k))
  (at level 61, e at next level, right associativity) : py_scope.

Open Scope string_scope.

(* ================================================================== *)
(** * Option.py: the contract *)
(* ================================================================== *)

(** An [Option] object.  Python does not fix what the numeric fields hold:
    [V] is [value] for the objects the constructor builds and [R] for an
    object all of whose numeric fields are floats. *)
Record Option (V : Type) : Type := mkOption {
  tau : V;
  spot : V;
  strike : V;
  sigma : V;
  r : V;
  div : V;
  type : string;
  region : string
}.

Arguments mkOption {V}.
Arguments tau {V} o.
Arguments spot {V} o.
Arguments strike {V} o.
Arguments sigma {V} o.
Arguments r {V} o.
Arguments div {V} o.
Arguments type {V} o.
Arguments region {V} o.

(** [o.sigma = s] *)
Definition set_sigma {V} (o : Option V) (s : V) : Option V :=
  mkOption (tau o) (spot o) (strike o) s (r o) (div o) (type o) (region o).

(** [o.type = s] *)
Definition set_type {V} (o : Option V) (s : string) : Option V :=
  mkOption (tau o) (spot o) (strike o) (sigma o) (r o) (div o) s (region o).

(** The object whose numeric fields are the floats of [o]. *)
Definition of_floats (o : Option R) : Option value :=
  mkOption (Num (tau o)) (Num (spot o)) (Num (strike o)) (Num (sigma o))
           (Num (r o)) (Num (div o)) (type o) (region o).

(** [b < z] for a Python bool [b], which compares as the integer 0 or 1. *)
Definition bool_lt (b : bool) (z : Z) : bool := (Z.b2z b <? z)%Z.

(** [if cond: raise ValueError(msg)] *)
Definition raise_if (cond : bool) (msg : string) : py unit :=
  if cond then Raise (ValueError msg) else Ok tt.

(** [Option.__init__] *)
Definition Option_init (tau spot strike sigma r div : value) (type region : string)
  : py (Option value) :=
  (_ <- raise_if (bool_lt (Np.any tau) 0) "Invalid Time-To-Maturity (negative value)" ;;
   _ <- raise_if (bool_lt (Np.any spot) 0) "Invalid Spot price (negative value)" ;;
   _ <- raise_if (bool_lt (Np.any strike) 0) "Invalid Strike price (negative value)" ;;
   _ <- raise_if (bool_lt (Np.any sigma) 0) "Invalid Volatility (negative value)" ;;
   _ <- raise_if (bool_lt (Np.any div) 0) "Invalid Dividend-yield (negative value)" ;;
   let in_type := lower type in
   _ <- raise_if (negb (in_type =? "call") && negb (in_type =? "put")) "Invalid Option type" ;;
   let in_region := lower region in
   _ <- raise_if (negb (in_region =? "eu") && negb (in_region =? "na")) "Invalid Option region" ;;
   ret (mkOption tau spot strike sigma r div in_type in_region))%py.

(** A Python bool is never below zero. *)
Lemma bool_lt_zero (b : bool) : bool_lt b 0 = false.
Proof. destruct b; reflexivity. Qed.

Example Option_init_default :
  Option_init (Num 1) (Num 100) (Num 90) (Num 0.2) (Num 0.02) (Num 0) "Call" "EU"
  = Ok (mkOption (Num 1) (Num 100) (Num 90) (Num 0.2) (Num 0.02) (Num 0) "call" "eu").
Proof. unfold Option_init. rewrite !bool_lt_zero. reflexivity. Qed.

(* ================================================================== *)
(** * black_scholes.py: the analytic pricer *)
(* ================================================================== *)

Module BlackScholes.
Import Floats.

(** Cumulative distribution function (CDF). *)
Definition N (x : R) : R := Stats.norm_cdf x.

(** 1st derivative of cumulative distribution function (CDF). *)
Definition dN (x : R) : R := 1 / sqrt (2 * PI) * exp (- x ^ 2 / 2).

(** Also 'd+' in literature.  [o.spot / o.strike] divides two Python
    floats; the logarithm, the square root and the last division are
    NumPy's. *)
Definition d_1 (o : Option R) : fl R :=
  (ratio <- py_div (spot o) (strike o) ;;
   log_ratio <- np_log ratio ;;
   let num := log_ratio + (r o + 0.5 * sigma o ^ 2) * tau o in
   root <- np_sqrt (tau o) ;;
   let denom := sigma o * root in
   np_div num denom)%fl.

(** Also 'd-' in literature. *)
Definition d_2 (o : Option R) : fl R :=
  (d1 <- d_1 o ;;
   root <- np_sqrt (tau o) ;;
   Fin (d1 - sigma o * root))%fl.

Definition option_price (o : Option R) : fl R :=
  if type o =? "call" then
    (d1 <- d_1 o ;;
     d2 <- d_2 o ;;
     let Ct := N d1 * spot o - N d2 * strike o * exp (- r o * tau o) in
     Fin Ct)%fl
  else
    (d1 <- d_1 o ;;
     d2 <- d_2 o ;;
     let Pt := N (- d2) * strike o * exp (- r o * tau o) - N (- d1) * spot o in
     Fin Pt)%fl.

(** The tuple (delta, gamma, vega, theta, rho). *)
Record Greeks : Type := mkGreeks {
  delta : R;
  gamma : R;
  vega : R;
  theta : R;
  rho : R
}.

Definition greeks (o : Option R) : fl Greeks :=
  (d1 <- d_1 o ;;
   d2 <- d_2 o ;;
   root <- np_sqrt (tau o) ;;
   gamma <- np_div (dN d1) (spot o * sigma o * root) ;;
   root <- np_sqrt (tau o) ;;
   let vega := spot o * dN d1 * root in
   if type o =? "call" then
     let delta := N d1 in
     root <- np_sqrt (tau o) ;;
     decay <- np_div (- (spot o * dN d1 * sigma o)) (2 * root) ;;
     let theta := decay - r o * strike o * exp (- r o * tau o) * N d2 in
     let rho := strike o * tau o * exp (- r o * tau o) * N d2 in
     Fin (mkGreeks delta gamma vega theta rho)
   else
     let delta := N d1 - 1 in
     root <- np_sqrt (tau o) ;;
     decay <- np_div (- (spot o * dN d1 * sigma o)) (2 * root) ;;
     let theta := decay + r o * strike o * exp (- r o * tau o) * N (- d2) in
     let rho := - strike o * tau o * exp (- r o * tau o) * N (- d2) in
     Fin (mkGreeks delta gamma vega theta rho))%fl.

(** ** The implied-volatility solver

    Python does not fix what the fields of [o] hold: floats, NumPy floats
    (inf and nan among them), arrays.  The loop of [find_iv] is written
    once, for any kind [V] of field value: [newton] is the arithmetic of its
    body (the three assignments to [f], [df] and [sigma_new]) and [close]
    the truth value of the test of its [if], which raises ValueError on an
    array of several elements; both read [o] and write nothing.  [number]
    and [nan] say what a returned [sigma_new] and the returned [np.nan]
    are. *)
Section Solver.
Variables (V W : Type).
Variable newton : Option V -> V -> fl V.
Variable close : V -> V -> fl bool.
Variable number : V -> W.
Variable nan : W.

(** The body of [for i in range(100)], run [steps] times on the object
    [o]: how the run ends, and the object as it leaves it. *)
Fixpoint find_iv_loop (steps : nat) (o : Option V) (price : V) : fl W * Option V :=
  match steps with
  | O => (Fin nan, o)
  | S steps' =>
      match newton o price with
      | Fin sigma_new =>
          match close sigma_new (sigma o) with
          | Fin true => (Fin (number sigma_new), o)
          | Fin false => find_iv_loop steps' (set_sigma o sigma_new) price
          | Exn e => (Exn e, o)
          | NotFinite => (NotFinite, o)
          end
      | Exn e => (Exn e, o)
      | NotFinite => (NotFinite, o)
      end
  end.

(** [find_iv(o, sigma_init, price)]: how it ends, and [o] afterwards. *)
Definition find_iv_on (o : Option V) (sigma_init : V) (price : V) : fl W * Option V :=
  find_iv_loop 100 (set_sigma o sigma_init) price.

End Solver.

(** The body of the loop on float fields. *)
Definition newton (o : Option R) (price : R) : fl R :=
  (value <- option_price o ;;
   let f := value - price in
   d1 <- d_1 o ;;
   root <- np_sqrt (tau o) ;;
   let df := spot o * dN d1 * root in
   step <- np_div f df ;;
   let sigma_new := sigma o - step in
   Fin sigma_new)%fl.

(** [np.abs(sigma_new - o.sigma) < 1e-5] on floats. *)
Definition close (sigma_new sigma : R) : fl bool :=
  Fin (if Rlt_dec (Rabs (sigma_new - sigma)) 1e-5 then true else false).

(** [find_iv] on an object whose fields are finite floats.  A pass whose
    arithmetic leaves the finite floats ends the run the model follows, with
    [NotFinite] and the object as that pass found it; the code goes on from
    there with inf or nan. *)
Definition find_iv (o : Option R) (sigma_init : R) (price : R) : fl pyfloat * Option R :=
  find_iv_on newton close Finite NaN o sigma_init price.

(** Probability of Profit (POP) and being In-The-Money (ITM): the tuple
    (POP, ITM). *)
Definition prob_of_profit (o : Option R) : fl (R * R) :=
  (price <- option_price o ;;
   if type o =? "call" then
     root <- np_sqrt (tau o) ;;
     scale <- np_div 1 (sigma o * root) ;;
     ratio <- np_div (spot o) (strike o + price) ;;
     log_ratio <- np_log ratio ;;
     let d1 := scale * (log_ratio + (r o + sigma o ^ 2 / 2) * tau o) in
     root <- np_sqrt (tau o) ;;
     let d2 := d1 - sigma o * root in
     itm <- d_2 o ;;
     Fin (N d2, N itm)
   else
     root <- np_sqrt (tau o) ;;
     scale <- np_div 1 (sigma o * root) ;;
     ratio <- np_div (spot o) (strike o - price) ;;
     log_ratio <- np_log ratio ;;
     let d1 := scale * (log_ratio + (r o + sigma o ^ 2 / 2) * tau o) in
     root <- np_sqrt (tau o) ;;
     let d2 := d1 - sigma o * root in
     itm <- d_2 o ;;
     Fin (1 - N d2, 1 - N itm))%fl.

(** Expected return of an option, for the expected return [mu] of the
    underlying asset. *)
Definition expected_return (o : Option R) (mu : R) : fl R :=
  (price <- option_price o ;;
   g <- greeks o ;;
   let delta := delta g in
   omega <- np_div (delta * spot o) price ;;
   Fin (r o + omega * (mu - r o)))%fl.

End BlackScholes.

(* ================================================================== *)
(** * bopm.py: the binomial lattice *)
(* ================================================================== *)

Module Bopm.

(** [x[:, None] if x.ndim > 0 else x], after [x = np.asarray(x)] *)
Definition _to_col (x : value) : ndarray R :=
  match Np.asarray x with
  | Arr1 len f => Arr2 len 1 (fun i _ => f i)
  | a => a
  end.

(** The [j] of a level of [m] nodes: [np.arange(m).reshape(1, -1)]. *)
Definition steps_row (m : nat) : ndarray Z := reshape_row (Np.arange m).

(** One pass of the backward loop, at level [i]. *)
Definition backward_step (o : Option value) (spot strike r dt u d p : ndarray R)
    (i : nat) (option_values : ndarray R) : py (ndarray R) :=
  (option_values ::= Np.exp (- r * dt)
                     * (p * option_values[..., :-1] + (1 - p) * option_values[..., 1:]) ;;
   if region o =? "us" then
     let j_curr := steps_row (i + 1) in
     current_assets ::= spot * (u ** (Np.isub (Z.of_nat i) j_curr)) * (d ** j_curr) ;;
     exercise ::= (if type o =? "call"
                   then Np.maximum (current_assets - strike) 0
                   else Np.maximum (strike - current_assets) 0) ;;
     Np.maximum option_values exercise
   else ret option_values)%py.

(** Option Price from Binomial Tree Model. *)
Definition option_price (o : Option value) (n : nat) : py value :=
  let tau := _to_col (tau o) in
  let spot := Np.asarray (spot o) in
  let strike := _to_col (strike o) in
  let sigma := _to_col (sigma o) in
  let r := Np.asarray (r o) in
  let div := Np.asarray (div o) in
  (dt ::= tau / INR n ;;
   u ::= Np.exp (sigma * Np.sqrt dt) ;;
   d ::= 1 / u ;;
   p ::= (Np.exp ((r - div) * dt) - d) / (u - d) ;;
   let j := steps_row (n + 1) in
   asset_prices ::= spot * (u ** (Np.isub (Z.of_nat n) j)) * (d ** j) ;;
   option_values ::= (if type o =? "call" then Np.maximum (asset_prices - strike) 0
                      else if type o =? "put" then Np.maximum (strike - asset_prices) 0
                      else Raise UnboundLocalError) ;;
   option_values <- for_each (range_down n)
                      (backward_step o spot strike r dt u d p) option_values ;;
   if (1 <? ndim option_values)%nat
   then ret (flatten option_values)
   else fmap Num (item option_values))%py.

(** The node data [prob_of_profit] sums over: the mask of the profitable
    terminal nodes, the mask of the nodes in the money, and the mass of each
    node under the real-world probability. *)
Definition node_masses (o : Option value) (mu : R) (n : nat)
  : py (ndarray bool * ndarray bool * ndarray pyfloat) :=
  (price <- option_price o n ;;
   let price := Np.asarray price in
   dt ::= Np.div_int (tau o) n ;;
   let tau := Np.asarray (tau o) in
   let sigma := Np.asarray (sigma o) in
   let spot := Np.asarray (spot o) in
   let strike := Np.asarray (strike o) in
   let r := Np.asarray (r o) in
   u ::= Np.exp (sigma * Np.sqrt dt) ;;
   d ::= 1 / u ;;
   let j := Np.arange (n + 1) in
   final_spot ::= spot * (u ** (Np.isub (Z.of_nat n) j)) * (d ** j) ;;
   is_itm <- (if type o =? "call" then Np.gt final_spot strike
              else Np.lt final_spot strike) ;;
   payoff ::= (if type o =? "call" then Np.maximum (final_spot - strike) 0
               else Np.maximum (strike - final_spot) 0) ;;
   is_profitable <- Np.gt payoff (price * Np.exp (r * tau)) ;;
   p_real ::= (Np.exp (mu * dt) - d) / (u - d) ;;
   probabilites <- lift2 (Stats.binom_pmf n) j p_real ;;
   ret (is_profitable, is_itm, probabilites))%py.

(** Probability of Profit (POP) and being In-The-Money (ITM). *)
Definition prob_of_profit (o : Option value) (mu : R) (n : nat) : py (pyfloat * pyfloat) :=
  ('(is_profitable, is_itm, probabilites) <- node_masses o mu n ;;
   pop <- fmap Np.sum (mask_index probabilites is_profitable) ;;
   itm <- fmap Np.sum (mask_index probabilites is_itm) ;;
   ret (pop, itm))%py.

(** One pass of the backward loop of [option_price_old], at level [i]. *)
Definition backward_step_old (o : Option value) (spot strike r dt u d p : ndarray R)
    (i : nat) (option_values : ndarray R) : py (ndarray R) :=
  (option_values ::= Np.exp (- r * dt)
                     * (p * option_values[ :-1] + (1 - p) * option_values[ 1:]) ;;
   if region o =? "us" then
     current_assets ::= spot * (u ** (Np.isub (Z.of_nat i) (Np.arange (i + 1))))
                        * (d ** Np.arange (i + 1)) ;;
     exercise ::= (if type o =? "call"
                   then Np.maximum (current_assets - strike) 0
                   else Np.maximum (strike - current_assets) 0) ;;
     Np.maximum option_values exercise
   else ret option_values)%py.

(** Option Price from Binomial Tree Model, on the last row only. *)
Definition option_price_old (o : Option value) (n : nat) : py (ndarray R) :=
  let spot := Np.asarray (spot o) in
  let strike := Np.asarray (strike o) in
  let sigma := Np.asarray (sigma o) in
  let r := Np.asarray (r o) in
  let div := Np.asarray (div o) in
  (dt ::= Np.div_int (tau o) n ;;
   u ::= Np.exp (sigma * Np.sqrt dt) ;;
   d ::= 1 / u ;;
   p ::= (Np.exp ((r - div) * dt) - d) / (u - d) ;;
   let j := Np.arange (n + 1) in
   asset_prices ::= spot * (u ** (Np.isub (Z.of_nat n) j)) * (d ** j) ;;
   option_values ::= (if type o =? "call" then Np.maximum (asset_prices - strike) 0
                      else if type o =? "put" then Np.maximum (strike - asset_prices) 0
                      else Raise UnboundLocalError) ;;
   option_values <- for_each (range_down n)
                      (backward_step_old o spot strike r dt u d p) option_values ;;
   index_first option_values)%py.

(** [asset[j, i] = v] on the matrix [asset]. *)
Definition set_item (asset : nat -> nat -> R) (j i : nat) (v : R) : nat -> nat -> R :=
  fun j' i' => if ((j' =? j) && (i' =? i))%nat then v else asset j' i'.

(** Option Price from Binomial Tree Model, on the full matrix of nodes
    ([asset[j, i]]: [j] down-moves at time step [i]), for an object whose
    fields are floats; [o.tau / n] divides a Python float by the int [n]. *)
Definition option_price_old_old (o : Option R) (n : nat) : py R :=
  if (n =? 0)%nat then Raise ZeroDivisionError else
  let dt := tau o / INR n in
  let u := exp (sigma o * sqrt dt) in
  let d := 1 / u in
  let p := (exp ((r o - div o) * dt) - d) / (u - d) in
  let asset : nat -> nat -> R := fun _ _ => 0 in
  let asset :=
    fold_left (fun asset i =>
      fold_left (fun asset j =>
        set_item asset j i
          (spot o * powerRZ u (Z.of_nat i - Z.of_nat j) * powerRZ d (Z.of_nat j)))
        (seq 0 (i + 1)) asset)
      (seq 0 (n + 1)) asset in
  let asset : nat -> nat -> R :=
    if type o =? "call"
    then fun j i => if (i =? n)%nat then Rmax (asset j n - strike o) 0 else asset j i
    else fun j i => if (i =? n)%nat then Rmax (strike o - asset j n) 0 else asset j i in
  let asset :=
    fold_left (fun asset i =>
      fold_left (fun asset j =>
        let bival := exp (- r o * dt)
                     * (p * asset j (i + 1)%nat + (1 - p) * asset (j + 1)%nat (i + 1)%nat) in
        let bival :=
          if region o =? "us"
          then let exercise_value := Rmax (asset j i - strike o) 0 in
               Rmax bival exercise_value
          else bival in
        set_item asset j i bival)
        (seq 0 (i + 1)) asset)
      (range_down n) asset in
  Ok (asset 0%nat 0%nat).

End Bopm.


(* ================================================================== *)
(** * bopm.py: the lattice of one contract *)
(* ================================================================== *)

(** What a numeric field holds for contract [k] of a batch. *)
Definition at_row (v : value) (k : nat) : R :=
  match v with
  | Num x => x
  | Series xs => nth k xs 0
  end.

(** Contract [k] of the batch [o]. *)
Definition contract (o : Option value) (k : nat) : Option R :=
  mkOption (at_row (tau o) k) (at_row (spot o) k) (at_row (strike o) k)
           (at_row (sigma o) k) (at_row (r o) k) (at_row (div o) k)
           (type o) (region o).

(** The quantities [Bopm.option_price] computes, for one contract with
    float fields: each definition is the source's expression on floats. *)
Module Lattice.

Definition dt (o : Option R) (n : nat) : R := tau o / INR n.

Definition u (o : Option R) (n : nat) : R := exp (sigma o * sqrt (dt o n)).

Definition d (o : Option R) (n : nat) : R := 1 / u o n.

Definition p (o : Option R) (n : nat) : R :=
  (exp ((r o - div o) * dt o n) - d o n) / (u o n - d o n).

(** [spot * (u ** (i - j)) * (d ** j)]: node [j] of level [i]. *)
Definition asset (o : Option R) (n i j : nat) : R :=
  spot o * powerRZ (u o n) (Z.of_nat i - Z.of_nat j) * powerRZ (d o n) (Z.of_nat j).

(** The exercise value at asset price [x]. *)
Definition payoff (o : Option R) (x : R) : R :=
  if type o =? "call" then Rmax (x - strike o) 0 else Rmax (strike o - x) 0.

(** One pass of the backward loop at level [i], on the values [V] of
    level [i + 1]. *)
Definition backward (o : Option R) (n i : nat) (V : nat -> R) (j : nat) : R :=
  let continuation := exp (- r o * dt o n) * (p o n * V j + (1 - p o n) * V (S j)) in
  if region o =? "us"
  then Rmax continuation (payoff o (asset o n i j))
  else continuation.

(** The loop from level [m - 1] down to level 0. *)
Fixpoint induct (o : Option R) (n m : nat) (V : nat -> R) : nat -> R :=
  match m with
  | O => V
  | S i => induct o n i (backward o n i V)
  end.

(** The value the loop leaves at the root. *)
Definition root (o : Option R) (n : nat) : R :=
  induct o n n (fun j => payoff o (asset o n n j)) 0%nat.

End Lattice.

(** How a field enters a batch of [M] contracts: a float, or a sequence
    with one entry per contract. *)
Definition fits (M : nat) (v : value) : Prop :=
  match v with
  | Num _ => True
  | Series xs => List.length xs = M
  end.

Definition is_float (v : value) : Prop :=
  match v with
  | Num _ => True
  | Series _ => False
  end.

(** The rows and dimensions of [_to_col v]. *)
Definition vrows (v : value) : nat :=
  match v with Num _ => 1 | Series xs => List.length xs end.

Definition vdim (v : value) : nat :=
  match v with Num _ => 0 | Series _ => 2 end.

(** The number of prices [Bopm.option_price] returns. *)
Definition batch_rows (o : Option value) : nat :=
  rmax (rmax (vrows (sigma o)) (vrows (tau o))) (vrows (strike o)).

(** A sequence in place of a float. *)
Definition is_series (v : value) : Prop :=
  match v with
  | Num _ => False
  | Series _ => True
  end.

(* ================================================================== *)
(** * Sample contracts *)
(* ================================================================== *)

(** The contract of the specification's worked scenario. *)
Definition sample_call : Option R := mkOption 1 100 90 0.2 0.02 0 "call" "eu".

(** The sample call struck at zero. *)
Definition zero_strike : Option R := mkOption 1 100 0 0.2 0.02 0 "call" "eu".

(** A put with every number equal to 1, the dividend yield included:
    d+ = 3/2 and d- = 1/2. *)
Definition unit_put : Option R := mkOption 1 1 1 1 1 1 "put" "eu".

(** A put struck at 2 on a spot of 1, with sigma = r = tau = 1: in one
    step the up node is out of the money and p = 1, so holding is worth 0
    while exercising at once is worth 1. *)
Definition deep_put (region : string) : Option R := mkOption 1 1 2 1 1 0 "put" region.

(** The specification's batch: three calls struck at 85, 90 and 95. *)
Definition three_strikes : Option value :=
  mkOption (Num 1) (Num 100) (Series [85; 90; 95]) (Num 0.2) (Num 0.02) (Num 0)
           "call" "eu".

(** A batch given through the spot price instead. *)
Definition two_spots : Option value :=
  mkOption (Num 1) (Series [100; 100]) (Num 90) (Num 0.2) (Num 0.02) (Num 0)
           "call" "eu".
(* ================================================================== *)
(** * The specification's formulas *)
(* ================================================================== *)

(** The formulas of the analytic pricer as the specification writes them. *)
Module AnalyticSpec.
Import BlackScholes.

(** d+ = [ln(S/K) + (r + sigma^2/2) tau] / (sigma sqrt(tau)) *)
Definition d_plus (o : Option R) : R :=
  (ln (spot o / strike o) + (r o + (sigma o) ^ 2 / 2) * tau o)
  / (sigma o * sqrt (tau o)).

(** d- = d+ - sigma sqrt(tau) *)
Definition d_minus (o : Option R) : R := d_plus o - sigma o * sqrt (tau o).

(** The discount factor e^(-r tau). *)
Definition discount (o : Option R) : R := exp (- (r o * tau o)).

(** The normal density phi(x) = (1/sqrt(2 pi)) e^(-x^2/2). *)
Definition phi (x : R) : R := / sqrt (2 * PI) * exp (- (x ^ 2 / 2)).

(** Call price N(d+) S - N(d-) K e^(-r tau); put price
    N(-d-) K e^(-r tau) - N(-d+) S. *)
Definition price_of (o : Option R) : R :=
  if type o =? "call"
  then N (d_plus o) * spot o - N (d_minus o) * strike o * discount o
  else N (- d_minus o) * strike o * discount o - N (- d_plus o) * spot o.





End AnalyticSpec.

(** The iterates of a solver run, for any kind of field value: [reaches k s]
    when [k] passes of the loop, none of which returned, lead from the
    initial guess to the volatility [s]. *)
Module SolverSpec.
Import Floats.

Section Run.
Variable V : Type.
Variable newton : Option V -> V -> fl V.
Variable close : V -> V -> fl bool.
Variables (o : Option V) (price sigma_init : V).

Inductive reaches : nat -> V -> Prop :=
| reaches_init : reaches 0 sigma_init
| reaches_step k s s' :
    reaches k s ->
    newton (set_sigma o s) price = Fin s' ->
    close s' s = Fin false ->
    reaches (S k) s'.

Variables (W : Type) (number : V -> W) (nan : W).

(** How a run ends that has made [k] passes, [limit] being allowed, and
    stands at the volatility [s]. *)
Definition ends (limit k : nat) (s : V) (result : fl W) : Prop :=
  (k = limit /\ result = Fin nan)
  \/ ((k < limit)%nat
      /\ exists v, newton (set_sigma o s) price = Fin v
                   /\ close v s = Fin true /\ result = Fin (number v))
  \/ ((k < limit)%nat
      /\ exists e, result = Exn e
                   /\ (newton (set_sigma o s) price = Exn e
                       \/ exists v, newton (set_sigma o s) price = Fin v
                                    /\ close v s = Exn e))
  \/ ((k < limit)%nat
      /\ result = NotFinite
      /\ (newton (set_sigma o s) price = NotFinite
          \/ exists v, newton (set_sigma o s) price = Fin v
                       /\ close v s = NotFinite)).

End Run.

End SolverSpec.

(** The binomial lattice as the specification writes it, for a European
    contract with float fields. *)
Module LatticeSpec.

(** dt = tau / n *)
Definition dt (o : Option R) (n : nat) : R := tau o / INR n.

(** u = e^(sigma sqrt(dt)) *)
Definition u (o : Option R) (n : nat) : R := exp (sigma o * sqrt (dt o n)).

(** d = 1 / u *)
Definition d (o : Option R) (n : nat) : R := 1 / u o n.

(** p = (e^((r - q) dt) - d) / (u - d) *)
Definition p (o : Option R) (n : nat) : R :=
  (exp ((r o - div o) * dt o n) - d o n) / (u o n - d o n).

(** Terminal node [j] (that many down-moves): S u^(n-j) d^j. *)
Definition node_price (o : Option R) (n j : nat) : R :=
  spot o * u o n ^ (n - j) * d o n ^ j.

(** max(S_T - K, 0) for calls, max(K - S_T, 0) for puts. *)
Definition payoff (o : Option R) (s_T : R) : R :=
  if type o =? "call" then Rmax (s_T - strike o) 0 else Rmax (strike o - s_T) 0.

Definition terminal_payoffs (o : Option R) (n : nat) : list R :=
  List.map (fun j => payoff o (node_price o n j)) (seq 0 (n + 1)).

(** The discounted risk-neutral expectation e^(-r dt) (p V_up + (1-p) V_down). *)
Definition expectation (o : Option R) (n : nat) (v_up v_down : R) : R :=
  exp (- (r o * dt o n)) * (p o n * v_up + (1 - p o n) * v_down).

(** One backward step: every node takes the expectation over its children. *)
Fixpoint backward_step (o : Option R) (n : nat) (values : list R) : list R :=
  match values with
  | v_up :: (v_down :: _) as rest => expectation o n v_up v_down :: backward_step o n rest
  | _ => []
  end.

(** The value at the root after [n] backward steps. *)
Definition price (o : Option R) (n : nat) : R :=
  hd 0 (Nat.iter n (backward_step o n) (terminal_payoffs o n)).

(** The real-world probability of an up-move under the drift [mu]:
    p_real = (e^(mu dt) - d) / (u - d). *)
Definition p_real (o : Option R) (mu : R) (n : nat) : R :=
  (exp (mu * dt o n) - d o n) / (u o n - d o n).

(** The Binomial(n, p) mass of node [j]. *)
Definition node_mass (n : nat) (p : R) (j : nat) : R :=
  C n j * p ^ j * (1 - p) ^ (n - j).

End LatticeSpec.

(* ================================================================== *)
(** * More sample contracts and field updates *)
(* ================================================================== *)

(** [o.region = s] *)
Definition set_region {V} (o : Option V) (s : string) : Option V :=
  mkOption (tau o) (spot o) (strike o) (sigma o) (r o) (div o) (type o) s.

(** A call at the money with sigma = tau = 1 and no interest:
    d+ = 1/2 and d- = -1/2. *)
Definition flat_call : Option R := mkOption 1 1 1 1 0 0 "call" "eu".
Definition flat_put : Option R := set_type flat_call "put".

(** The d- of [BlackScholes.prob_of_profit]: the breakeven [k] in place of
    the strike. *)
Definition shifted_d_2 (o : Option R) (k : R) : R :=
  1 / (sigma o * sqrt (tau o))
  * (ln (spot o / k) + (r o + sigma o ^ 2 / 2) * tau o)
  - sigma o * sqrt (tau o).

(** The masks of [Bopm.prob_of_profit] at terminal node [j], for a contract
    with float fields: the source's comparisons on the node's price
    [spot * (u ** (n - j)) * (d ** j)]. *)
Module NodeMasks.

Definition is_itm (o : Option R) (n j : nat) : bool :=
  if type o =? "call"
  then (if Rlt_dec (strike o) (Lattice.asset o n n j) then true else false)
  else (if Rlt_dec (Lattice.asset o n n j) (strike o) then true else false).

Definition is_profitable (o : Option R) (n j : nat) : bool :=
  if Rlt_dec (Lattice.root o n * exp (r o * tau o))
             (Lattice.payoff o (Lattice.asset o n n j))
  then true else false.

(** The mass of the nodes a mask keeps: [np.sum(probabilites[mask])]. *)
Definition mass_where (n : nat) (p : R) (mask : nat -> bool) : R :=
  sum_f_R0 (fun j => if mask j then LatticeSpec.node_mass n p j else 0) n.

End NodeMasks.

(** Two fields given as sequences whose lengths differ, neither being 1:
    NumPy cannot broadcast one against the other. *)
Definition clash (v w : value) : Prop :=
  match v, w with
  | Series xs, Series ys =>
      List.length xs <> List.length ys
      /\ List.length xs <> 1%nat /\ List.length ys <> 1%nat
  | _, _ => False
  end.

(** Three strikes against two volatilities. *)
Definition strikes_and_sigmas : Option value :=
  mkOption (Num 1) (Num 100) (Series [85; 90; 95]) (Series [0.2; 0.3])
           (Num 0.02) (Num 0) "call" "eu".
(* ================================================================== *)
(** * The standard normal distribution function *)
(* ================================================================== *)

Module StatsFacts.
Import Stats.

Lemma gauss_area_eq a b (pr : Riemann_integrable gauss a b) :
  RiemannInt pr = gauss_area a b.
Proof. apply RiemannInt_P5. Qed.

Lemma gauss_area_chasles a b c : gauss_area a b + gauss_area b c = gauss_area a c.
Proof. apply RiemannInt_P26. Qed.

Lemma gauss_area_swap a b : gauss_area a b = - gauss_area b a.
Proof. apply RiemannInt_P8. Qed.

Lemma gauss_area_nil a : gauss_area a a = 0.
Proof. apply RiemannInt_P9. Qed.

Lemma gauss_even t : gauss (- t) = gauss t.
Proof. unfold gauss. f_equal. field. Qed.

Lemma gauss_pos t : 0 < gauss t.
Proof. apply exp_pos. Qed.

(** On [[-x, x]] the primitive of the kernel that vanishes at [-x], and
    its mirror image, are both antiderivatives of the kernel. *)
Section Mirror.
Variable x : R.
Hypothesis x_nonneg : 0 <= x.

Lemma mirror_bounds : - x <= x.
Proof. lra. Qed.

Lemma mirror_continuity : forall t, - x <= t <= x -> continuity_pt gauss t.
Proof. intros; apply gauss_continuous. Qed.

Definition mirror_primitive : R -> R :=
  primitive mirror_bounds (FTC_P1 mirror_bounds mirror_continuity).

Lemma mirror_primitive_area t :
  - x <= t <= x -> mirror_primitive t = gauss_area (- x) t.
Proof.
  intros [H1 H2]. unfold mirror_primitive, primitive.
  destruct (Rle_dec (- x) t) as [Ha | Ha]; [ | contradiction].
  destruct (Rle_dec t x) as [Hb | Hb]; [ | contradiction].
  apply gauss_area_eq.
Qed.

Lemma mirrored_antiderivative :
  antiderivative gauss (fun t => - mirror_primitive (- t)) (- x) x.
Proof.
  split; [ | exact mirror_bounds]. intros t Ht.
  assert (D : derivable_pt_lim (fun t => - mirror_primitive (- t)) t (gauss t)).
  { replace (gauss t) with (- (gauss (- t) * (- 1))) by (rewrite gauss_even; ring).
    change (derivable_pt_lim (- (comp mirror_primitive (- id)))%F t (- (gauss (- t) * -1))).
    apply derivable_pt_lim_opp, derivable_pt_lim_comp.
    - apply derivable_pt_lim_opp, derivable_pt_lim_id.
    - apply RiemannInt_P28. unfold opp_fct, id. lra. }
  exists (exist _ (gauss t) D). reflexivity.
Qed.

Lemma gauss_area_mirror_nonneg : gauss_area 0 (- x) = - gauss_area 0 x.
Proof.
  destruct (antiderivative_Ucte gauss mirror_primitive
              (fun t => - mirror_primitive (- t)) (- x) x
              (RiemannInt_P29 mirror_bounds mirror_continuity)
              mirrored_antiderivative) as [c Hc].
  assert (E0 := Hc 0 ltac:(lra)). assert (Ex := Hc x ltac:(lra)).
  rewrite Ropp_0 in E0.
  rewrite (@mirror_primitive_area 0) in E0 by lra.
  rewrite (@mirror_primitive_area x), (@mirror_primitive_area (- x)),
    gauss_area_nil in Ex by lra.
  pose proof (gauss_area_chasles (- x) 0 x).
  rewrite (gauss_area_swap 0 (- x)). lra.
Qed.

End Mirror.

(** The kernel is even, so its integral from 0 is odd. *)
Lemma gauss_area_mirror x : gauss_area 0 (- x) = - gauss_area 0 x.
Proof.
  destruct (Rle_dec 0 x) as [H | H].
  - now apply gauss_area_mirror_nonneg.
  - pose proof (@gauss_area_mirror_nonneg (- x) ltac:(lra)) as E.
    rewrite Ropp_involutive in E. lra.
Qed.

Lemma gauss_area_lower x : 0 <= x -> gauss x * x <= gauss_area 0 x.
Proof.
  intro Hx.
  assert (prc : Riemann_integrable (fct_cte (gauss x)) 0 x).
  { apply continuity_implies_RiemannInt; [exact Hx | ].
    intros; apply continuity_const; intros ? ?; reflexivity. }
  replace (gauss x * x) with (RiemannInt prc) by (rewrite RiemannInt_P15; ring).
  apply RiemannInt_P19; [exact Hx | ].
  intros t Ht. unfold fct_cte, gauss.
  destruct (Rle_dec (- x ^ 2 / 2) (- t ^ 2 / 2)) as [L | L].
  - destruct L as [L | L]; [left; now apply exp_increasing | rewrite L; right; reflexivity].
  - exfalso; apply L. nra.
Qed.

Lemma sqrt_2PI_pos : 0 < sqrt (2 * PI).
Proof. apply sqrt_lt_R0. pose proof PI_RGT_0. lra. Qed.

(** N(x) + N(-x) = 1 *)
Lemma norm_cdf_symmetry x : norm_cdf x + norm_cdf (- x) = 1.
Proof. unfold norm_cdf. rewrite gauss_area_mirror. lra. Qed.

(** N(x) > 1/2 for x > 0 *)
Lemma norm_cdf_above_half x : 0 < x -> 1 / 2 < norm_cdf x.
Proof.
  intro Hx. unfold norm_cdf.
  pose proof (@gauss_area_lower x ltac:(lra)).
  pose proof (gauss_pos x). pose proof (Rinv_0_lt_compat _ sqrt_2PI_pos).
  assert (0 < gauss_area 0 x) by nra.
  nra.
Qed.

Lemma norm_cdf_below_half x : x < 0 -> norm_cdf x < 1 / 2.
Proof.
  intro Hx. pose proof (norm_cdf_symmetry x).
  pose proof (@norm_cdf_above_half (- x) ltac:(lra)). lra.
Qed.

End StatsFacts.

(* ================================================================== *)
(** * Option.py: what the constructor accepts *)
(* ================================================================== *)

Module OptionFacts.

(** None of the five sign checks can fire: the constructor comes down to
    its two enumeration checks. *)
Lemma Option_init_enum_checks tau spot strike sigma r div ty rg :
  Option_init tau spot strike sigma r div ty rg =
  (_ <- raise_if (negb (lower ty =? "call") && negb (lower ty =? "put"))
                 "Invalid Option type" ;;
   _ <- raise_if (negb (lower rg =? "eu") && negb (lower rg =? "na"))
                 "Invalid Option region" ;;
   ret (mkOption tau spot strike sigma r div (lower ty) (lower rg)))%py.
Proof. unfold Option_init. rewrite !bool_lt_zero. reflexivity. Qed.

(** The constructor succeeds on the two kinds and the two regions it
    knows, whatever the signs of the numbers: none of its five
    negative-value errors is ever raised. *)
Theorem Option_init_succeeds tau spot strike sigma r div ty rg :
  lower ty = "call" \/ lower ty = "put" ->
  lower rg = "eu" \/ lower rg = "na" ->
  Option_init tau spot strike sigma r div ty rg
  = Ok (mkOption tau spot strike sigma r div (lower ty) (lower rg)).
Proof.
  intros Ht Hr. rewrite Option_init_enum_checks.
  destruct Ht as [-> | ->], Hr as [-> | ->]; reflexivity.
Qed.

Lemma Option_init_succeeds_witness :
  (lower "Put" = "call" \/ lower "Put" = "put")
  /\ (lower "NA" = "eu" \/ lower "NA" = "na")
  /\ Option_init (Num (-1)) (Num 100) (Num 90) (Num 0.2) (Num 0.02) (Num 0) "Put" "NA"
     = Ok (mkOption (Num (-1)) (Num 100) (Num 90) (Num 0.2) (Num 0.02) (Num 0)
                    (lower "Put") (lower "NA")).
Proof.
  split; [right; reflexivity | split; [right; reflexivity | ]].
  apply Option_init_succeeds; right; reflexivity.
Defined.

(** A constructed object has kind call or put and region eu or na. *)
Lemma Option_init_enums tau spot strike sigma r div ty rg o :
  Option_init tau spot strike sigma r div ty rg = Ok o ->
  (type o = "call" \/ type o = "put")
  /\ (region o = "eu" \/ region o = "na").
Proof.
  rewrite Option_init_enum_checks. unfold raise_if, bind, ret.
  destruct (lower ty =? "call") eqn:Ec; destruct (lower ty =? "put") eqn:Ep;
    destruct (lower rg =? "eu") eqn:Ee; destruct (lower rg =? "na") eqn:En;
    simpl; intro H; inversion H; subst; simpl;
    repeat match goal with
           | E : (_ =? _) = true |- _ => apply String.eqb_eq in E
           end; auto.
Qed.

(** C2 on the code.  Built with a negative time to maturity, spot,
    strike (in one entry of a batch), volatility and dividend yield, the
    constructor raises nothing and returns the object. *)
Theorem Option_init_accepts_negative :
  Option_init (Num (-1)) (Num (-100)) (Series [90; -90]) (Num (-0.2)) (Num 0.02)
              (Num (-0.01)) "call" "eu"
  = Ok (mkOption (Num (-1)) (Num (-100)) (Series [90; -90]) (Num (-0.2)) (Num 0.02)
                 (Num (-0.01)) "call" "eu").
Proof.
  rewrite Option_init_enum_checks. reflexivity.
Qed.

End OptionFacts.

(* ================================================================== *)
(** * black_scholes.py: price, sensitivities, implied volatility *)
(* ================================================================== *)

Module BlackScholesFacts.
Import Floats BlackScholes AnalyticSpec.

Lemma discount_eq (o : Option R) : exp (- r o * tau o) = discount o.
Proof. unfold discount. f_equal. ring. Qed.

Lemma dN_is_phi x : dN x = phi x.
Proof. unfold dN, phi. f_equal; [lra | f_equal; lra]. Qed.

Lemma N_symmetry x : N x + N (- x) = 1.
Proof. apply StatsFacts.norm_cdf_symmetry. Qed.

Lemma dN_pos x : 0 < dN x.
Proof.
  unfold dN. apply Rmult_lt_0_compat; [ | apply exp_pos].
  apply Rdiv_lt_0_compat; [lra | apply StatsFacts.sqrt_2PI_pos].
Qed.

(** ** Checked operations away from their exceptional operands *)

Lemma py_div_nonzero x y : y <> 0 -> py_div x y = Fin (x / y).
Proof. intro H. unfold py_div. destruct (Req_dec_T y 0); [contradiction | reflexivity]. Qed.

Lemma py_div_zero x : py_div x 0 = Exn ZeroDivisionError.
Proof. unfold py_div. destruct (Req_dec_T 0 0) as [ | H]; [reflexivity | now destruct H]. Qed.

Lemma np_div_nonzero x y : y <> 0 -> np_div x y = Fin (x / y).
Proof. intro H. unfold np_div. destruct (Req_dec_T y 0); [contradiction | reflexivity]. Qed.


Lemma np_log_pos x : 0 < x -> np_log x = Fin (ln x).
Proof. intro H. unfold np_log. destruct (Rlt_dec 0 x); [reflexivity | contradiction]. Qed.

Lemma np_sqrt_nonneg x : 0 <= x -> np_sqrt x = Fin (sqrt x).
Proof. intro H. unfold np_sqrt. destruct (Rle_dec 0 x); [reflexivity | contradiction]. Qed.

(** ** A contract with positive spot, strike and time to maturity and a
    volatility that is not zero: every operation has a finite result *)

Section Regular.
Variable o : Option R.
Hypothesis spot_pos : 0 < spot o.
Hypothesis strike_pos : 0 < strike o.
Hypothesis tau_pos : 0 < tau o.
Hypothesis sigma_nz : sigma o <> 0.

Lemma sqrt_tau_pos : 0 < sqrt (tau o).
Proof. now apply sqrt_lt_R0. Qed.

Lemma denominator_nz : sigma o * sqrt (tau o) <> 0.
Proof. pose proof sqrt_tau_pos. apply Rmult_integral_contrapositive_currified; lra. Qed.

Lemma d_1_regular : d_1 o = Fin (d_plus o).
Proof.
  unfold d_1. rewrite py_div_nonzero by lra. cbn [bind].
  rewrite np_log_pos by (apply Rdiv_lt_0_compat; assumption). cbn [bind].
  rewrite np_sqrt_nonneg by lra. cbn [bind]. cbv zeta.
  rewrite np_div_nonzero by apply denominator_nz.
  unfold d_plus. do 2 f_equal. f_equal. f_equal. lra.
Qed.

Lemma d_2_regular : d_2 o = Fin (d_minus o).
Proof.
  unfold d_2. rewrite d_1_regular. cbn [bind].
  rewrite np_sqrt_nonneg by lra. reflexivity.
Qed.

Lemma option_price_regular : option_price o = Fin (price_of o).
Proof.
  unfold option_price, price_of. rewrite d_1_regular, d_2_regular. cbn [bind]. cbv zeta.
  rewrite discount_eq. destruct (type o =? "call"); reflexivity.
Qed.


Lemma greeks_regular :
  greeks o
  = Fin (if type o =? "call"
         then mkGreeks (N (d_plus o))
                       (dN (d_plus o) / (spot o * sigma o * sqrt (tau o)))
                       (spot o * dN (d_plus o) * sqrt (tau o))
                       (- (spot o * dN (d_plus o) * sigma o) / (2 * sqrt (tau o))
                        - r o * strike o * exp (- r o * tau o) * N (d_minus o))
                       (strike o * tau o * exp (- r o * tau o) * N (d_minus o))
         else mkGreeks (N (d_plus o) - 1)
                       (dN (d_plus o) / (spot o * sigma o * sqrt (tau o)))
                       (spot o * dN (d_plus o) * sqrt (tau o))
                       (- (spot o * dN (d_plus o) * sigma o) / (2 * sqrt (tau o))
                        + r o * strike o * exp (- r o * tau o) * N (- d_minus o))
                       (- strike o * tau o * exp (- r o * tau o) * N (- d_minus o))).
Proof.
  pose proof sqrt_tau_pos as Hq. pose proof denominator_nz as Hd.
  unfold greeks. rewrite d_1_regular, d_2_regular. cbn [bind].
  rewrite !np_sqrt_nonneg by lra. cbn [bind].
  rewrite np_div_nonzero.
  2:{ replace (spot o * sigma o * sqrt (tau o)) with (spot o * (sigma o * sqrt (tau o)))
        by ring.
      apply Rmult_integral_contrapositive_currified; lra. }
  cbn [bind]. cbv zeta.
  destruct (type o =? "call"); rewrite np_div_nonzero by lra; reflexivity.
Qed.


End Regular.


(** With a strike of zero the first division of [d_1] raises. *)
Lemma d_1_zero_strike (o : Option R) : strike o = 0 -> d_1 o = Exn ZeroDivisionError.
Proof. intro H. unfold d_1. rewrite H, py_div_zero. reflexivity. Qed.

Lemma option_price_zero_strike (o : Option R) :
  strike o = 0 -> option_price o = Exn ZeroDivisionError.
Proof.
  intro H. unfold option_price. rewrite (d_1_zero_strike o H).
  destruct (type o =? "call"); reflexivity.
Qed.

(** Call minus put on the formulas: the dividend yield plays no part. *)
Lemma call_minus_put (o : Option R) :
  price_of (set_type o "call") - price_of (set_type o "put")
  = spot o - strike o * discount o.
Proof.
  unfold price_of. cbn [type set_type String.eqb Ascii.eqb Bool.eqb].
  change (d_plus (set_type o "call")) with (d_plus o).
  change (d_plus (set_type o "put")) with (d_plus o).
  change (d_minus (set_type o "call")) with (d_minus o).
  change (d_minus (set_type o "put")) with (d_minus o).
  change (discount (set_type o "call")) with (discount o).
  change (discount (set_type o "put")) with (discount o).
  cbn [spot strike set_type].
  replace (N (- d_plus o)) with (1 - N (d_plus o))
    by (pose proof (N_symmetry (d_plus o)); lra).
  replace (N (- d_minus o)) with (1 - N (d_minus o))
    by (pose proof (N_symmetry (d_minus o)); lra).
  ring.
Qed.

Lemma sigma_positive_nz (o : Option R) : 0 < sigma o -> sigma o <> 0.
Proof. lra. Qed.

Lemma unit_put_d_plus : d_plus unit_put = 3 / 2.
Proof.
  unfold d_plus, unit_put; cbn [spot strike r sigma tau].
  replace (1 / 1) with 1 by lra. rewrite ln_1, sqrt_1. lra.
Qed.

Lemma unit_put_d_minus : d_minus unit_put = 1 / 2.
Proof.
  unfold d_minus. rewrite unit_put_d_plus. cbn [sigma tau unit_put]. rewrite sqrt_1. lra.
Qed.

Lemma exp_minus_one_lt_1 : exp (- 1 * 1) < 1.
Proof.
  pose proof (exp_increasing (- 1 * 1) 0 ltac:(lra)) as H.
  now rewrite exp_0 in H.
Qed.

(** C5, as the code has it.  For a contract with float fields and positive
    spot, strike, volatility and time to maturity, the analytic price is
    N(d+) S - N(d-) K e^(-r tau) for a call and N(-d-) K e^(-r tau)
    - N(-d+) S for a put, with d+ and d- as the specification defines them
    and N the standard normal CDF. *)
Theorem option_price_closed_form (o : Option R) :
  0 < spot o -> 0 < strike o -> 0 < sigma o -> 0 < tau o ->
  (type o = "call" ->
   option_price o
   = Fin (N (d_plus o) * spot o - N (d_minus o) * strike o * discount o))
  /\ (type o = "put" ->
      option_price o
      = Fin (N (- d_minus o) * strike o * discount o - N (- d_plus o) * spot o)).
Proof.
  intros HS HK Hs Ht.
  rewrite option_price_regular by (assumption || lra). unfold price_of.
  split; intros ->; reflexivity.
Qed.

Lemma option_price_closed_form_witness :
  0 < spot sample_call /\ 0 < strike sample_call
  /\ 0 < sigma sample_call /\ 0 < tau sample_call
  /\ option_price sample_call
     = Fin (N (d_plus sample_call) * spot sample_call
            - N (d_minus sample_call) * strike sample_call * discount sample_call).
Proof.
  repeat (split; [simpl; lra | ]).
  apply (option_price_closed_form sample_call); try (simpl; lra). reflexivity.
Defined.

(** C5 as stated fails at a strike of zero, which sigma > 0 and tau > 0
    leave open: [o.spot / o.strike] raises ZeroDivisionError and no price is
    returned. *)
Lemma option_price_zero_strike_counterexample :
  0 < sigma zero_strike /\ 0 < tau zero_strike
  /\ option_price zero_strike = Exn ZeroDivisionError.
Proof.
  split; [simpl; lra | split; [simpl; lra | ]].
  apply option_price_zero_strike. reflexivity.
Qed.

(** C4, as the code has it.  For two contracts that differ only in being a
    call and a put, with positive spot, strike, volatility and time to
    maturity, both prices are returned and price(call) - price(put)
    = spot - strike e^(-r tau).  The analytic pricer does not read the
    dividend yield q, so this is spot e^(-q tau) - strike e^(-r tau) when
    q = 0. *)
Theorem put_call_parity (o : Option R) :
  0 < spot o -> 0 < strike o -> 0 < sigma o -> 0 < tau o ->
  exists call put,
    option_price (set_type o "call") = Fin call
    /\ option_price (set_type o "put") = Fin put
    /\ call - put = spot o - strike o * discount o
    /\ (div o = 0 ->
        call - put = spot o * exp (- (div o * tau o)) - strike o * discount o).
Proof.
  intros HS HK Hs Ht.
  exists (price_of (set_type o "call")), (price_of (set_type o "put")).
  split; [apply option_price_regular; cbn [spot strike tau sigma set_type]; lra | ].
  split; [apply option_price_regular; cbn [spot strike tau sigma set_type]; lra | ].
  rewrite call_minus_put. split; [reflexivity | ].
  intros ->. rewrite Rmult_0_l, Ropp_0, exp_0. ring.
Qed.

Lemma put_call_parity_witness :
  0 < spot sample_call /\ 0 < strike sample_call
  /\ 0 < sigma sample_call /\ 0 < tau sample_call
  /\ exists call put,
       option_price (set_type sample_call "call") = Fin call
       /\ option_price (set_type sample_call "put") = Fin put
       /\ call - put = spot sample_call - strike sample_call * discount sample_call
       /\ (div sample_call = 0 ->
           call - put
           = spot sample_call * exp (- (div sample_call * tau sample_call))
             - strike sample_call * discount sample_call).
Proof.
  repeat (split; [simpl; lra | ]).
  apply (put_call_parity sample_call); simpl; lra.
Defined.

(** C4 as stated fails when the dividend yield is not zero: for the unit
    contract (q = 1, every other number 1 as well) both prices are returned
    and the parity value with the factor e^(-q tau) is strictly below
    price(call) - price(put). *)
Lemma put_call_parity_dividend_counterexample :
  0 < sigma unit_put /\ 0 < tau unit_put
  /\ exists call put,
       option_price (set_type unit_put "call") = Fin call
       /\ option_price (set_type unit_put "put") = Fin put
       /\ spot unit_put * exp (- (div unit_put * tau unit_put))
          - strike unit_put * discount unit_put
          < call - put.
Proof.
  split; [simpl; lra | split; [simpl; lra | ]].
  exists (price_of (set_type unit_put "call")), (price_of (set_type unit_put "put")).
  split; [apply option_price_regular; simpl; lra | ].
  split; [apply option_price_regular; simpl; lra | ].
  rewrite call_minus_put. unfold discount.
  cbn [spot strike r div tau unit_put].
  replace (- (1 * 1)) with (- 1 * 1) by ring.
  pose proof exp_minus_one_lt_1. lra.
Qed.

(** C8, as the code has it.  For a put with positive spot, strike,
    volatility and time to maturity, [greeks] returns delta = N(d+) - 1,
    theta = -(S phi(d+) sigma)/(2 sqrt tau) + r K e^(-r tau) N(-d-) and
    rho = -(K tau e^(-r tau) N(-d-)), where the call branch returns
    theta = -(S phi(d+) sigma)/(2 sqrt tau) - r K e^(-r tau) N(d-) and
    rho = K tau e^(-r tau) N(d-): the put takes the opposite sign and
    evaluates N at -d-. *)
Theorem put_greeks (o : Option R) :
  0 < spot o -> 0 < strike o -> 0 < sigma o -> 0 < tau o -> type o = "put" ->
  let time_decay := - (spot o * phi (d_plus o) * sigma o) / (2 * sqrt (tau o)) in
  exists put call,
    greeks o = Fin put
    /\ greeks (set_type o "call") = Fin call
    /\ delta put = N (d_plus o) - 1
    /\ theta put = time_decay + r o * strike o * discount o * N (- d_minus o)
    /\ rho put = - (strike o * tau o * discount o * N (- d_minus o))
    /\ theta call = time_decay - r o * strike o * discount o * N (d_minus o)
    /\ rho call = strike o * tau o * discount o * N (d_minus o).
Proof.
  intros HS HK Hs Ht Hty time_decay. subst time_decay.
  do 2 eexists.
  split; [apply greeks_regular; assumption || lra | ].
  split; [apply greeks_regular; cbn [spot strike tau sigma set_type]; assumption || lra | ].
  rewrite Hty. cbn [type set_type String.eqb Ascii.eqb Bool.eqb].
  cbn [delta theta rho].
  change (d_plus (set_type o "call")) with (d_plus o).
  change (d_minus (set_type o "call")) with (d_minus o).
  cbn [spot strike r tau sigma set_type].
  rewrite <- dN_is_phi, <- discount_eq.
  repeat split; try reflexivity; ring.
Qed.

Lemma put_greeks_witness :
  0 < spot unit_put /\ 0 < strike unit_put /\ 0 < sigma unit_put /\ 0 < tau unit_put
  /\ exists put call,
       greeks unit_put = Fin put
       /\ greeks (set_type unit_put "call") = Fin call
       /\ delta put = N (d_plus unit_put) - 1
       /\ theta put
          = - (spot unit_put * phi (d_plus unit_put) * sigma unit_put)
              / (2 * sqrt (tau unit_put))
            + r unit_put * strike unit_put * discount unit_put * N (- d_minus unit_put)
       /\ rho put
          = - (strike unit_put * tau unit_put * discount unit_put
               * N (- d_minus unit_put))
       /\ theta call
          = - (spot unit_put * phi (d_plus unit_put) * sigma unit_put)
              / (2 * sqrt (tau unit_put))
            - r unit_put * strike unit_put * discount unit_put * N (d_minus unit_put)
       /\ rho call
          = strike unit_put * tau unit_put * discount unit_put * N (d_minus unit_put).
Proof.
  repeat (split; [simpl; lra | ]).
  apply (put_greeks unit_put); try (simpl; lra). reflexivity.
Defined.

(** C8 as stated fails: for the unit put (d- = 1/2) both branches return,
    and the put rho is strictly above the negative of the call-branch rho
    K tau e^(-r tau) N(d-). *)
Lemma put_rho_counterexample :
  0 < sigma unit_put /\ 0 < tau unit_put
  /\ exists put call,
       greeks unit_put = Fin put
       /\ greeks (set_type unit_put "call") = Fin call
       /\ rho call
          = strike unit_put * tau unit_put * discount unit_put * N (d_minus unit_put)
       /\ - rho call < rho put.
Proof.
  split; [simpl; lra | split; [simpl; lra | ]].
  do 2 eexists.
  split; [apply greeks_regular; simpl; lra | ].
  split; [apply greeks_regular; simpl; lra | ].
  change (type unit_put =? "call") with false.
  change (type (set_type unit_put "call") =? "call") with true.
  cbn [rho].
  change (d_minus (set_type unit_put "call")) with (d_minus unit_put).
  change (strike (set_type unit_put "call")) with (strike unit_put).
  change (tau (set_type unit_put "call")) with (tau unit_put).
  change (r (set_type unit_put "call")) with (r unit_put).
  rewrite discount_eq, unit_put_d_minus.
  split; [reflexivity | ].
  change (strike unit_put) with 1. change (tau unit_put) with 1.
  pose proof (StatsFacts.norm_cdf_above_half (x := 1 / 2) ltac:(lra)).
  pose proof (StatsFacts.norm_cdf_below_half (x := - (1 / 2)) ltac:(lra)).
  unfold N. set (e := discount _).
  assert (0 < e) by apply exp_pos.
  assert (0 < e * (Stats.norm_cdf (1 / 2) - Stats.norm_cdf (- (1 / 2))))
    by (apply Rmult_lt_0_compat; lra).
  lra.
Qed.

End BlackScholesFacts.

(** ** The implied-volatility solver *)

Module ImpliedVolFacts.
Import Floats BlackScholes AnalyticSpec SolverSpec BlackScholesFacts.

(** *** The loop, whatever the fields hold *)

Section Generic.
Variables (V W : Type).
Variable newton : Option V -> V -> fl V.
Variable close : V -> V -> fl bool.
Variable number : V -> W.
Variable nan : W.
Variables (o : Option V) (price sigma_init : V).

Lemma find_iv_loop_run m : forall k s,
  reaches newton close o price sigma_init k s ->
  exists k' s',
    (k' <= k + m)%nat
    /\ reaches newton close o price sigma_init k' s'
    /\ snd (find_iv_loop newton close number nan m (set_sigma o s) price)
       = set_sigma o s'
    /\ ends newton close o price number nan (k + m) k' s'
            (fst (find_iv_loop newton close number nan m (set_sigma o s) price)).
Proof.
  induction m as [ | m IH]; intros k s Hreach.
  - exists k, s. rewrite Nat.add_0_r. repeat split; auto.
    left. split; reflexivity.
  - cbn [find_iv_loop]. change (sigma (set_sigma o s)) with s.
    destruct (newton (set_sigma o s) price) as [v | e | ] eqn:Hstep.
    + destruct (close v s) as [[ | ] | e | ] eqn:Htest.
      * exists k, s. cbn [fst snd]. repeat split; [lia | exact Hreach | ].
        right. left. split; [lia | ]. exists v. repeat split; assumption.
      * change (set_sigma (set_sigma o s) v) with (set_sigma o v).
        destruct (IH (S k) v (reaches_step Hreach Hstep Htest))
          as (k' & s' & Hk' & Hreach' & Hsnd & Hends).
        exists k', s'. rewrite Nat.add_succ_r. repeat split; try assumption.
      * exists k, s. cbn [fst snd]. repeat split; [lia | exact Hreach | ].
        right. right. left. split; [lia | ]. exists e. split; [reflexivity | ].
        right. exists v. split; assumption.
      * exists k, s. cbn [fst snd]. repeat split; [lia | exact Hreach | ].
        right. right. right. split; [lia | ]. split; [reflexivity | ].
        right. exists v. split; assumption.
    + exists k, s. cbn [fst snd]. repeat split; [lia | exact Hreach | ].
      right. right. left. split; [lia | ]. exists e. split; [reflexivity | ].
      left. exact Hstep.
    + exists k, s. cbn [fst snd]. repeat split; [lia | exact Hreach | ].
      right. right. right. split; [lia | ]. split; [reflexivity | ].
      left. exact Hstep.
Qed.

End Generic.

(** *** The loop on float fields *)

Section Solver.
Variables (o : Option R) (observed : R).
Hypothesis spot_pos : 0 < spot o.
Hypothesis strike_pos : 0 < strike o.
Hypothesis tau_pos : 0 < tau o.






End Solver.





(** C10.  Whatever the fields hold and whatever the arithmetic of its body
    and its test do, [find_iv] writes no field of the contract but the
    volatility, and when it stops the contract holds the volatility [k]
    passes lead to, none of which returned: after a return of [sigma_new],
    the iterate that [sigma_new] was computed from and passed the test
    against (the returned value is not written); after a return of
    not-a-number, the 100th iterate; after an exception or a result that is
    not finite, the iterate of the pass in which it arose (the initial guess,
    in the first pass).  On float fields a returned number is within 1e-5 of
    the volatility left in the contract. *)
Theorem find_iv_frame :
  (forall (V W : Type) (newton : Option V -> V -> fl V) (close : V -> V -> fl bool)
          (number : V -> W) (nan : W) (o : Option V) (sigma_init price : V),
     let run := find_iv_on newton close number nan o sigma_init price in
     let o' := snd run in
     (tau o' = tau o /\ spot o' = spot o /\ strike o' = strike o /\ r o' = r o
      /\ div o' = div o /\ type o' = type o /\ region o' = region o)
     /\ exists k,
          (k <= 100)%nat
          /\ reaches newton close o price sigma_init k (sigma o')
          /\ ends newton close o price number nan 100 k (sigma o') (fst run))
  /\ (forall (o : Option R) (sigma_init observed : R),
        match fst (find_iv o sigma_init observed) with
        | Fin (Finite sigma_new) =>
            Rabs (sigma_new - sigma (snd (find_iv o sigma_init observed))) < 1e-5
        | _ => True
        end).
Proof.
  split.
  - intros V W newton close number nan o sigma_init price. cbv zeta.
    unfold find_iv_on.
    destruct (@find_iv_loop_run V W newton close number nan o price sigma_init 100
                0%nat sigma_init (@reaches_init V newton close o price sigma_init))
      as (k & s & Hk & Hreach & Hsnd & Hends).
    rewrite Hsnd. split; [repeat split | ].
    exists k. cbn [sigma set_sigma]. repeat split; assumption.
  - intros o sigma_init observed. unfold find_iv, find_iv_on.
    destruct (@find_iv_loop_run R pyfloat BlackScholes.newton BlackScholes.close
                Finite NaN o observed sigma_init 100 0%nat sigma_init
                (@reaches_init R BlackScholes.newton BlackScholes.close o observed
                   sigma_init))
      as (k & s & Hk & Hreach & Hsnd & Hends).
    rewrite Hsnd. cbn [sigma set_sigma].
    destruct Hends as [(_ & ->) | [(_ & v & _ & Htest & ->)
                      | [(_ & e & -> & _) | (_ & -> & _)]]]; try exact I.
    unfold BlackScholes.close in Htest.
    destruct (Rlt_dec (Rabs (v - s)) 1e-5) as [Hlt | _]; [exact Hlt | discriminate].
Qed.

End ImpliedVolFacts.

(* ================================================================== *)
(** * NumPy: what an array expression evaluates to *)
(* ================================================================== *)

Module NdarrayFacts.

Lemma pick_lt dim i : (i < dim)%nat -> pick dim i = i.
Proof.
  unfold pick. destruct (Nat.eqb_spec dim 1) as [-> | _]; [lia | reflexivity].
Qed.

Lemma bdim_refl a : bdim a a = Some a.
Proof. unfold bdim. now rewrite Nat.eqb_refl. Qed.

Lemma bdim_1_l a : bdim 1 a = Some a.
Proof.
  unfold bdim. destruct (Nat.eqb_spec 1 a) as [<- | _]; reflexivity.
Qed.

Lemma bdim_1_r a : bdim a 1 = Some a.
Proof.
  unfold bdim. destruct (Nat.eqb_spec a 1) as [-> | _]; reflexivity.
Qed.

(** When two lengths broadcast, each is 1 or the length of the result. *)
Lemma bdim_cases a b c :
  bdim a b = Some c -> (a = 1%nat \/ a = c) /\ (b = 1%nat \/ b = c).
Proof.
  unfold bdim.
  destruct (Nat.eqb_spec a b) as [-> | _]; [intro H; inversion H; auto | ].
  destruct (Nat.eqb_spec a 1) as [-> | _]; [intro H; inversion H; auto | ].
  destruct (Nat.eqb_spec b 1) as [-> | _]; [intro H; inversion H; auto | ].
  discriminate.
Qed.

Section Shapes.
Context {A : Type}.

(** Arrays of fewer than two dimensions have one row, scalars one column. *)
Lemma shape_sane (a : ndarray A) :
  (ndim a <= 2)%nat
  /\ ((ndim a < 2)%nat -> nrows a = 1%nat)
  /\ (ndim a = 0%nat -> ncols a = 1%nat).
Proof. destruct a; cbn; repeat split; intros; lia. Qed.

(** An element depends on its indices through [pick] alone. *)
Lemma get_respects (a : ndarray A) i i' j j' :
  pick (nrows a) i = pick (nrows a) i' ->
  pick (ncols a) j = pick (ncols a) j' ->
  get a i j = get a i' j'.
Proof. destruct a; cbn; intros; congruence. Qed.

Lemma pick_idem dim i : pick dim (pick dim i) = pick dim i.
Proof. unfold pick. destruct (dim =? 1)%nat eqn:E; [reflexivity | now rewrite ?E]. Qed.

Lemma pick_stretch dim dim' i :
  dim = 1%nat \/ dim = dim' -> pick dim (pick dim' i) = pick dim i.
Proof. intros [-> | ->]; [reflexivity | apply pick_idem]. Qed.

Lemma pick_bound dim dim' i :
  dim = 1%nat \/ dim = dim' -> (i < dim')%nat -> (pick dim i < dim)%nat.
Proof. intros [-> | ->] H; [cbn; lia | now rewrite pick_lt]. Qed.

Lemma build_shape d r c (F : nat -> nat -> A) :
  (d <= 2)%nat -> ((d < 2)%nat -> r = 1%nat) -> (d = 0%nat -> c = 1%nat) ->
  ndim (build d r c F) = d /\ nrows (build d r c F) = r /\ ncols (build d r c F) = c
  /\ forall i j, get (build d r c F) i j = F (pick r i) (pick c j).
Proof.
  intros Hd Hr Hc. destruct d as [ | [ | [ | d]]]; cbn.
  - rewrite Hr, Hc by lia. auto.
  - rewrite Hr by lia. auto.
  - auto.
  - lia.
Qed.

End Shapes.

(** ** Denotations

    In a batch of [M] contracts, [den M x d rx c g] says that the array [x]
    has [d] dimensions, [rx] rows (one row, or one row per contract) and
    [c] columns, and that contract [i] reads [g i j] in column [j]. *)

Section Denotation.
Variable M : nat.

Definition den {A} (x : ndarray A) (d rx c : nat) (g : nat -> nat -> A) : Prop :=
  ndim x = d /\ nrows x = rx /\ ncols x = c /\ (rx = 1%nat \/ rx = M)
  /\ forall i j, (i < M)%nat -> (j < c)%nat -> get x i j = g i j.

(** An expression evaluates, and to an array of that denotation. *)
Definition eden {A} (e : expr A) (d rx c : nat) (g : nat -> nat -> A) : Prop :=
  exists x, e = Ok x /\ den x d rx c g.

Lemma den_ext {A} (x : ndarray A) d rx c g g' :
  den x d rx c g ->
  (forall i j, (i < M)%nat -> (j < c)%nat -> g i j = g' i j) ->
  den x d rx c g'.
Proof.
  intros (Hd & Hr & Hc & HM & Hg) E. repeat split; auto.
  intros i j Hi Hj. rewrite Hg by assumption. now apply E.
Qed.

Lemma rmax_rows ra rb :
  (ra = 1%nat \/ ra = M) -> (rb = 1%nat \/ rb = M) ->
  bdim ra rb = Some (rmax ra rb) /\ (rmax ra rb = 1%nat \/ rmax ra rb = M)
  /\ (ra = 1%nat \/ ra = rmax ra rb) /\ (rb = 1%nat \/ rb = rmax ra rb).
Proof.
  unfold rmax. intros [-> | ->] [-> | ->]; cbn [Nat.eqb];
    rewrite ?bdim_1_l, ?bdim_1_r, ?bdim_refl;
    destruct (Nat.eqb_spec M 1) as [E | E]; try rewrite E; auto.
Qed.

Lemma broadcast_den {A B C} (f : A -> B -> C) a b da db ra rb ca cb c ga gb :
  den a da ra ca ga -> den b db rb cb gb -> bdim ca cb = Some c ->
  exists x, broadcast f a b = Ok x
            /\ den x (Nat.max da db) (rmax ra rb) c
                   (fun i j => f (ga i (pick ca j)) (gb i (pick cb j))).
Proof.
  intros (Hda & Hra & Hca & HMa & Hga) (Hdb & Hrb & Hcb & HMb & Hgb) Hc.
  destruct (rmax_rows HMa HMb) as (Hr & HMr & Hra' & Hrb').
  destruct (bdim_cases _ _ Hc) as (Hca' & Hcb').
  destruct (shape_sane a) as (Sa1 & Sa2 & Sa3).
  destruct (shape_sane b) as (Sb1 & Sb2 & Sb3).
  unfold broadcast. rewrite Hra, Hrb, Hca, Hcb, Hr, Hc, Hda, Hdb.
  eexists. split; [reflexivity | ].
  destruct (build_shape (d := Nat.max da db) (r := rmax ra rb) (c := c)
              (fun i j => f (get a i j) (get b i j))) as (E1 & E2 & E3 & E4).
  - lia.
  - intro Hlt. unfold rmax. rewrite <- Hra, <- Hrb, Sa2, Sb2 by lia. reflexivity.
  - intro Hz. rewrite <- Hca, <- Hcb, Sa3, Sb3 in Hc by lia.
    rewrite bdim_refl in Hc. now inversion Hc.
  - repeat split; auto.
    intros i j Hi Hj. rewrite E4. f_equal.
    + rewrite <- Hga by eauto using pick_bound.
      apply get_respects; rewrite ?Hra, ?Hca.
      * destruct HMr as [R1 | R1].
        -- destruct Hra' as [-> | ->]; [reflexivity | rewrite R1; reflexivity].
        -- rewrite R1, (pick_lt Hi). reflexivity.
      * rewrite pick_idem. now apply pick_stretch.
    + rewrite <- Hgb by eauto using pick_bound.
      apply get_respects; rewrite ?Hrb, ?Hcb.
      * destruct HMr as [R1 | R1].
        -- destruct Hrb' as [-> | ->]; [reflexivity | rewrite R1; reflexivity].
        -- rewrite R1, (pick_lt Hi). reflexivity.
      * rewrite pick_idem. now apply pick_stretch.
Qed.

(** The same denotation under other names for its parts. *)
Lemma den_conv {A} (x : ndarray A) d d' rx rx' c c' g g' :
  den x d rx c g -> d = d' -> rx = rx' -> c = c' ->
  (forall i j, (i < M)%nat -> (j < c)%nat -> g i j = g' i j) ->
  den x d' rx' c' g'.
Proof. intros H <- <- <- E. now apply den_ext with g. Qed.

Lemma eden_conv {A} (e : expr A) d d' rx rx' c c' g g' :
  eden e d rx c g -> d = d' -> rx = rx' -> c = c' ->
  (forall i j, (i < M)%nat -> (j < c)%nat -> g i j = g' i j) ->
  eden e d' rx' c' g'.
Proof.
  intros (x & He & Hx) Ed Er Ec Eg. exists x. split; [exact He | ].
  now apply den_conv with d rx c g.
Qed.

(** A column, read off contract by contract. *)
Lemma elements_column {A} (x : ndarray A) d rx g :
  (1 <= M)%nat -> den x d rx 1 g ->
  elements x = List.map (fun k => g k 0%nat) (seq 0 rx).
Proof.
  intros HM1 (Hd & Hr & Hc & HM & Hg). unfold elements. rewrite Hr, Hc. cbn [seq List.map].
  assert (Hle : forall k, In k (seq 0 rx) -> (k < M)%nat).
  { intros k Hk. apply in_seq in Hk. destruct HM; lia. }
  induction (seq 0 rx) as [ | k ks IH]; [reflexivity | ].
  cbn [flat_map List.map app].
  rewrite Hg; [ | apply Hle; left; reflexivity | lia].
  f_equal. apply IH. intros k' Hk'. apply Hle. now right.
Qed.

Lemma den_dim_le {A} (x : ndarray A) d rx c g : den x d rx c g -> (d <= 2)%nat.
Proof. intros (<- & _). apply shape_sane. Qed.

Lemma amap_den {A B} (f : A -> B) a d rx c g :
  den a d rx c g -> den (amap f a) d rx c (fun i j => f (g i j)).
Proof.
  intros (Hd & Hr & Hc & HM & Hg).
  assert (E : forall i j, get (amap f a) i j = f (get a i j)) by (destruct a; reflexivity).
  repeat split; try (destruct a; assumption).
  intros i j Hi Hj. now rewrite E, Hg.
Qed.

Lemma but_last_den {A} (a : ndarray A) d rx c g :
  den a d rx c g -> (1 <= d)%nat ->
  exists x, but_last a = Ok x /\ den x d rx (c - 1) g.
Proof.
  intros (Hd & Hr & Hc & HM & Hg) Hpos.
  destruct a as [v | len f | rows cols f]; cbn in *; [lia | | ];
    eexists; (split; [reflexivity | ]); repeat split; cbn; auto; try lia;
    intros i j Hi Hj; rewrite <- Hg by lia; subst; rewrite !(@pick_lt _ j) by lia;
    reflexivity.
Qed.

Lemma but_first_den {A} (a : ndarray A) d rx c g :
  den a d rx c g -> (1 <= d)%nat ->
  exists x, but_first a = Ok x /\ den x d rx (c - 1) (fun i j => g i (S j)).
Proof.
  intros (Hd & Hr & Hc & HM & Hg) Hpos.
  destruct a as [v | len f | rows cols f]; cbn in *; [lia | | ];
    eexists; (split; [reflexivity | ]); repeat split; cbn; auto; try lia;
    intros i j Hi Hj; rewrite <- Hg by lia; subst;
    rewrite (@pick_lt _ j), (@pick_lt _ (S j)) by lia; reflexivity.
Qed.

(** *** Expressions *)

Lemma eden_arr {A} (x : ndarray A) d rx c g : den x d rx c g -> eden (arr x) d rx c g.
Proof. intro H. exists x. split; [reflexivity | exact H]. Qed.

Lemma scalar_den {A} (v : A) : den (Scalar v) 0 1 1 (fun _ _ => v).
Proof. repeat split; auto. Qed.

Lemma eden_lit (v : R) : eden (lit v) 0 1 1 (fun _ _ => v).
Proof. apply eden_arr, scalar_den. Qed.

Lemma eden_int (v : Z) : eden (int v) 0 1 1 (fun _ _ => v).
Proof. apply eden_arr, scalar_den. Qed.

Lemma eden_lift1 {A B} (f : A -> B) e d rx c g :
  eden e d rx c g -> eden (lift1 f e) d rx c (fun i j => f (g i j)).
Proof.
  intros (x & -> & Hx). exists (amap f x). split; [reflexivity | now apply amap_den].
Qed.

Lemma eden_lift2 {A B C} (f : A -> B -> C) e1 e2 da db ra rb ca cb c ga gb :
  eden e1 da ra ca ga -> eden e2 db rb cb gb -> bdim ca cb = Some c ->
  eden (lift2 f e1 e2) (Nat.max da db) (rmax ra rb) c
       (fun i j => f (ga i (pick ca j)) (gb i (pick cb j))).
Proof.
  intros (a & -> & Ha) (b & -> & Hb) Hc. cbn. now apply broadcast_den.
Qed.

Lemma eden_but_last {A} (e : expr A) d rx c g :
  eden e d rx c g -> (1 <= d)%nat -> eden (slice_but_last e) d rx (c - 1) g.
Proof. intros (a & -> & Ha) Hd. cbn. now apply but_last_den. Qed.

Lemma eden_but_first {A} (e : expr A) d rx c g :
  eden e d rx c g -> (1 <= d)%nat ->
  eden (slice_but_first e) d rx (c - 1) (fun i j => g i (S j)).
Proof. intros (a & -> & Ha) Hd. cbn. now apply but_first_den. Qed.

End Denotation.

End NdarrayFacts.

Module BopmFacts.
Import NdarrayFacts.

Lemma steps_row_den M m : den M (Bopm.steps_row m) 2 1 m (fun _ j => Z.of_nat j).
Proof.
  repeat split; cbn; auto; try lia.
  intros i j Hi Hj.
  rewrite Nat.add_0_r, (pick_lt Hj), Nat.mod_small, (pick_lt Hj) by lia. reflexivity.
Qed.

Lemma arange_den M m : den M (Np.arange m) 1 1 m (fun _ j => Z.of_nat j).
Proof.
  repeat split; cbn; auto.
  intros i j Hi Hj. now rewrite (pick_lt Hj).
Qed.

Ltac solve_bdim :=
  first [apply bdim_refl | apply bdim_1_l | apply bdim_1_r].

(** Evaluate an array expression whose variables have known denotations. *)
Ltac np_eval :=
  lazymatch goal with
  | |- eden _ (arr (Bopm.steps_row _)) _ _ _ _ => apply eden_arr, steps_row_den
  | |- eden _ (arr (Np.arange _)) _ _ _ _ => apply eden_arr, arange_den
  | |- eden _ (arr (Scalar _)) _ _ _ _ => apply eden_arr, scalar_den
  | |- eden _ (arr _) _ _ _ _ => apply eden_arr; eassumption
  | |- eden _ (lit _) _ _ _ _ => apply eden_lit
  | |- eden _ (int _) _ _ _ _ => apply eden_int
  | |- eden _ (lift1 _ _) _ _ _ _ => eapply eden_lift1; np_eval
  | |- eden _ (lift2 _ _ _) _ _ _ _ => eapply eden_lift2; [np_eval | np_eval | solve_bdim]
  | |- eden _ (slice_but_last _) _ _ _ _ => eapply eden_but_last; [np_eval | lia]
  | |- eden _ (slice_but_first _) _ _ _ _ => eapply eden_but_first; [np_eval | lia]
  | |- eden _ (Np.exp _) _ _ _ _ => unfold Np.exp at 1; np_eval
  | |- eden _ (Np.sqrt _) _ _ _ _ => unfold Np.sqrt at 1; np_eval
  | |- eden _ (Np.maximum _ _) _ _ _ _ => unfold Np.maximum at 1; np_eval
  | |- eden _ (Np.power _ _) _ _ _ _ => unfold Np.power at 1; np_eval
  | |- eden _ (Np.isub _ _) _ _ _ _ => unfold Np.isub at 1; np_eval
  | |- eden _ (Np.gt _ _) _ _ _ _ => unfold Np.gt at 1; np_eval
  | |- eden _ (Np.lt _ _) _ _ _ _ => unfold Np.lt at 1; np_eval
  end.

Lemma bind_eden M {A B} (e : expr A) (k : ndarray A -> py B) d rx c g :
  eden M e d rx c g -> exists x, den M x d rx c g /\ bind e k = k x.
Proof. intros (x & -> & Hx). exists x. split; [exact Hx | reflexivity]. Qed.

(** Run the next assignment of the block in a batch of [M] contracts:
    [x] is the array it binds and [Hx] its denotation, computed, or given
    by [lemma]. *)
Ltac np_bind_by_at M lemma x Hx :=
  lazymatch goal with
  | |- context [bind ?e ?k] =>
      destruct (bind_eden k (lemma : eden M e _ _ _ _)) as (x & Hx & ->); cbv beta
  end.

Ltac np_bind_at M x Hx :=
  lazymatch goal with
  | |- context [bind ?e ?k] =>
      let H := fresh "H" in
      eassert (H : eden M e _ _ _ _) by np_eval;
      destruct (bind_eden k H) as (x & Hx & ->); clear H; cbv beta
  end.

Lemma range_down_S n : range_down (S n) = n :: range_down n.
Proof. unfold range_down. rewrite seq_S, rev_app_distr. reflexivity. Qed.

Section Batch.
Variables (o : Option value) (M n : nat).
Hypothesis M_pos : (1 <= M)%nat.
Hypothesis spot_float : is_float (spot o).
Hypothesis r_float : is_float (r o).
Hypothesis div_float : is_float (div o).
Hypothesis tau_fits : fits M (tau o).
Hypothesis strike_fits : fits M (strike o).
Hypothesis sigma_fits : fits M (sigma o).

Lemma asarray_den v :
  is_float v -> den M (Np.asarray v) 0 1 1 (fun i _ => at_row v i).
Proof. destruct v; [intros _; apply scalar_den | contradiction]. Qed.

Lemma to_col_den v :
  fits M v -> den M (Bopm._to_col v) (vdim v) (vrows v) 1 (fun i _ => at_row v i).
Proof.
  destruct v as [x | xs]; cbn; intro H.
  - apply scalar_den.
  - repeat split; cbn; auto.
    intros i j Hi Hj. rewrite pick_lt by lia. reflexivity.
Qed.

Lemma vrows_cases v : fits M v -> vrows v = 1%nat \/ vrows v = M.
Proof. destruct v; cbn; auto. Qed.

Lemma vdim_le v : (vdim v <= 2)%nat.
Proof. destruct v; cbn; lia. Qed.

Hypothesis type_ok : type o = "call" \/ type o = "put".

(** Row counts are built from 1 and [M] by [rmax]. *)
Ltac solve_rows :=
  unfold batch_rows;
  generalize (vrows_cases (tau o) tau_fits) (vrows_cases (strike o) strike_fits)
             (vrows_cases (sigma o) sigma_fits);
  generalize (vrows (tau o)) (vrows (strike o)) (vrows (sigma o));
  let E := fresh "E" in
  intros ? ? ? [-> | ->] [-> | ->] [-> | ->]; unfold rmax; cbn [Nat.eqb];
  (destruct (Nat.eq_dec M 1) as [E | E];
   [ rewrite ?E; reflexivity
   | apply Nat.eqb_neq in E; repeat (rewrite E; cbn [Nat.eqb]); reflexivity ]).

Ltac np_bind_by lemma x Hx := np_bind_by_at M lemma x Hx.
Ltac np_bind x Hx := np_bind_at M x Hx.

Section Loop.
Variables (aspot astrike ar adt au ad ap : ndarray R) (dk ddt du dd dp : nat).
Hypothesis Hspot : den M aspot 0 1 1 (fun k _ => spot (contract o k)).
Hypothesis Hstrike :
  den M astrike dk (vrows (strike o)) 1 (fun k _ => strike (contract o k)).
Hypothesis Hr : den M ar 0 1 1 (fun k _ => r (contract o k)).
Hypothesis Hdt :
  den M adt ddt (vrows (tau o)) 1 (fun k _ => Lattice.dt (contract o k) n).
Hypothesis Hu :
  den M au du (rmax (vrows (sigma o)) (vrows (tau o))) 1
      (fun k _ => Lattice.u (contract o k) n).
Hypothesis Hd :
  den M ad dd (rmax (vrows (sigma o)) (vrows (tau o))) 1
      (fun k _ => Lattice.d (contract o k) n).
Hypothesis Hp :
  den M ap dp (rmax (vrows (sigma o)) (vrows (tau o))) 1
      (fun k _ => Lattice.p (contract o k) n).

(** The asset prices of level [i]. *)
Lemma assets_den i :
  eden M (aspot * au ** Np.isub (Z.of_nat i) (Bopm.steps_row (i + 1))
          * ad ** Bopm.steps_row (i + 1))%np
       2 (rmax (vrows (sigma o)) (vrows (tau o))) (S i)
       (fun k j => Lattice.asset (contract o k) n i j).
Proof.
  pose proof (den_dim_le Hu). pose proof (den_dim_le Hd).
  eapply eden_conv; [np_eval | lia | solve_rows | lia | ].
  intros k j Hk Hj. cbv beta. rewrite !(@pick_lt _ j) by lia. reflexivity.
Qed.

Lemma backward_step_den i ov V :
  den M ov 2 (batch_rows o) (S (S i)) V ->
  exists ov',
    Bopm.backward_step o aspot astrike ar adt au ad ap i ov = Ok ov'
    /\ den M ov' 2 (batch_rows o) (S i)
           (fun k j => Lattice.backward (contract o k) n i (V k) j).
Proof.
  intro Hov. unfold Bopm.backward_step.
  pose proof (den_dim_le Hstrike). pose proof (den_dim_le Hdt).
  pose proof (den_dim_le Hu). pose proof (den_dim_le Hd). pose proof (den_dim_le Hp).
  np_bind ov1 Hov1.
  assert (Hcont : den M ov1 2 (batch_rows o) (S i)
            (fun k j => exp (- r (contract o k) * Lattice.dt (contract o k) n)
                        * (Lattice.p (contract o k) n * V k j
                           + (1 - Lattice.p (contract o k) n) * V k (S j)))).
  { eapply den_conv; [exact Hov1 | lia | solve_rows | lia | ].
    intros k j Hk Hj. cbv beta. rewrite !(@pick_lt _ j) by lia. reflexivity. }
  clear Hov1.
  unfold Lattice.backward, Lattice.payoff. cbn [region type contract].
  destruct (region o =? "us").
  - np_bind_by (assets_den i) current_assets Hassets.
    destruct (type o =? "call").
    + np_bind exercise Hexercise.
      eassert (Hmax : eden M (Np.maximum ov1 exercise) _ _ _ _) by np_eval.
      destruct Hmax as (ov' & -> & Hov'). exists ov'. split; [reflexivity | ].
      eapply den_conv; [exact Hov' | lia | solve_rows | lia | ].
      intros k j Hk Hj. cbv beta. rewrite !(@pick_lt _ j) by lia.
      unfold Lattice.asset. reflexivity.
    + np_bind exercise Hexercise.
      eassert (Hmax : eden M (Np.maximum ov1 exercise) _ _ _ _) by np_eval.
      destruct Hmax as (ov' & -> & Hov'). exists ov'. split; [reflexivity | ].
      eapply den_conv; [exact Hov' | lia | solve_rows | lia | ].
      intros k j Hk Hj. cbv beta. rewrite !(@pick_lt _ j) by lia.
      unfold Lattice.asset. reflexivity.
  - exists ov1. split; [reflexivity | exact Hcont].
Qed.

Lemma backward_loop_den m : forall ov V,
  den M ov 2 (batch_rows o) (S m) V ->
  exists ov',
    for_each (range_down m) (Bopm.backward_step o aspot astrike ar adt au ad ap) ov
    = Ok ov'
    /\ den M ov' 2 (batch_rows o) 1
           (fun k j => Lattice.induct (contract o k) n m (V k) j).
Proof.
  induction m as [ | m IH]; intros ov V Hov.
  - exists ov. split; [reflexivity | exact Hov].
  - rewrite range_down_S. cbn [for_each].
    destruct (backward_step_den Hov) as (ov1 & -> & Hov1). cbn [bind].
    destruct (IH _ _ Hov1) as (ov' & -> & Hov'). exists ov'.
    split; [reflexivity | exact Hov'].
Qed.

End Loop.

Theorem option_price_rows :
  Bopm.option_price o n
  = Ok (Series (List.map (fun k => Lattice.root (contract o k) n)
                         (seq 0 (batch_rows o)))).
Proof.
  unfold Bopm.option_price. cbv zeta.
  pose proof (to_col_den (tau o) tau_fits) as Htau.
  pose proof (to_col_den (strike o) strike_fits) as Hstrike.
  pose proof (to_col_den (sigma o) sigma_fits) as Hsigma.
  pose proof (asarray_den (spot o) spot_float) as Hspot.
  pose proof (asarray_den (r o) r_float) as Hr.
  pose proof (asarray_den (div o) div_float) as Hdiv.
  pose proof (vdim_le (tau o)). pose proof (vdim_le (sigma o)).
  np_bind dt Hdt0.
  assert (Hdt : den M dt (vdim (tau o)) (vrows (tau o)) 1
                    (fun k _ => Lattice.dt (contract o k) n)).
  { eapply den_conv; [exact Hdt0 | lia | solve_rows | reflexivity | reflexivity]. }
  clear Hdt0.
  np_bind u Hu0.
  assert (Hu : den M u (Nat.max (vdim (sigma o)) (vdim (tau o)))
                   (rmax (vrows (sigma o)) (vrows (tau o))) 1
                   (fun k _ => Lattice.u (contract o k) n)).
  { eapply den_conv; [exact Hu0 | lia | solve_rows | reflexivity | reflexivity]. }
  clear Hu0.
  np_bind d Hd0.
  assert (Hd : den M d (Nat.max (vdim (sigma o)) (vdim (tau o)))
                   (rmax (vrows (sigma o)) (vrows (tau o))) 1
                   (fun k _ => Lattice.d (contract o k) n)).
  { eapply den_conv; [exact Hd0 | lia | solve_rows | reflexivity | reflexivity]. }
  clear Hd0.
  np_bind p Hp0.
  assert (Hp : den M p (Nat.max (vdim (sigma o)) (vdim (tau o)))
                   (rmax (vrows (sigma o)) (vrows (tau o))) 1
                   (fun k _ => Lattice.p (contract o k) n)).
  { eapply den_conv; [exact Hp0 | lia | solve_rows | reflexivity | reflexivity]. }
  clear Hp0.
  np_bind_by (assets_den Hspot Hu Hd n) asset_prices Hassets.
  assert (Hterminal :
    eden M (if type o =? "call"
            then Np.maximum (asset_prices - Bopm._to_col (strike o)) 0
            else if type o =? "put"
                 then Np.maximum (Bopm._to_col (strike o) - asset_prices) 0
                 else Raise UnboundLocalError)%np
         2 (batch_rows o) (S n)
         (fun k j => Lattice.payoff (contract o k) (Lattice.asset (contract o k) n n j))).
  { pose proof (vdim_le (strike o)).
    unfold Lattice.payoff. cbn [type contract].
    destruct type_ok as [-> | ->]; cbn [String.eqb Ascii.eqb Bool.eqb].
    - eapply eden_conv; [np_eval | lia | solve_rows | reflexivity | ].
      intros k j Hk Hj. cbv beta. rewrite !(@pick_lt _ j) by lia. reflexivity.
    - eapply eden_conv; [np_eval | lia | solve_rows | reflexivity | ].
      intros k j Hk Hj. cbv beta. rewrite !(@pick_lt _ j) by lia. reflexivity. }
  np_bind_by Hterminal option_values Hvalues.
  destruct (backward_loop_den Hspot Hstrike Hr Hdt Hu Hd Hp Hvalues)
    as (root_values & -> & Hroot).
  cbn [bind].
  destruct Hroot as (Hdim & Hroot').
  rewrite Hdim. cbn [Nat.ltb Nat.leb]. unfold ret, flatten.
  rewrite (elements_column M_pos (conj Hdim Hroot')). reflexivity.
Qed.

End Batch.
End BopmFacts.

(** ** One contract with float fields *)

Module ScalarLattice.
Import NdarrayFacts BopmFacts.

(** *** The step factors *)

Lemma u_pos (o : Option R) n : 0 < Lattice.u o n.
Proof. apply exp_pos. Qed.

Lemma d_pos (o : Option R) n : 0 < Lattice.d o n.
Proof. unfold Lattice.d. apply Rdiv_lt_0_compat; [lra | apply u_pos]. Qed.

Lemma u_times_d (o : Option R) n : Lattice.u o n * Lattice.d o n = 1.
Proof. unfold Lattice.d. pose proof (u_pos o n). field. lra. Qed.

Lemma dt_pos (o : Option R) n : (1 <= n)%nat -> 0 < tau o -> 0 < Lattice.dt o n.
Proof.
  intros Hn Ht. unfold Lattice.dt. apply Rdiv_lt_0_compat; [exact Ht | ].
  apply lt_0_INR. lia.
Qed.

Lemma steps_dt (o : Option R) n : (1 <= n)%nat -> INR n * Lattice.dt o n = tau o.
Proof.
  intro Hn. unfold Lattice.dt. field. apply not_0_INR. lia.
Qed.

(** With at least one step and positive volatility and time to maturity
    the up factor is above the down factor: no divisor of the lattice is
    zero. *)
Lemma u_above_d (o : Option R) n :
  (1 <= n)%nat -> 0 < tau o -> 0 < sigma o -> Lattice.d o n < 1 < Lattice.u o n.
Proof.
  intros Hn Ht Hs.
  assert (Hu : 1 < Lattice.u o n).
  { unfold Lattice.u. rewrite <- exp_0. apply exp_increasing.
    apply Rmult_lt_0_compat; [exact Hs | ]. apply sqrt_lt_R0. now apply dt_pos. }
  split; [ | exact Hu].
  pose proof (u_times_d o n). pose proof (d_pos o n). nra.
Qed.

Lemma seq_S_cons a m : seq a (S m) = a :: seq (S a) m.
Proof. reflexivity. Qed.

Lemma contract_of_floats (o : Option R) k : contract (of_floats o) k = o.
Proof. destruct o; reflexivity. Qed.

(** On float fields the pricer returns the root value, as a sequence of
    length one. *)
Lemma option_price_of_floats (o : Option R) (n : nat) :
  type o = "call" \/ type o = "put" ->
  Bopm.option_price (of_floats o) n = Ok (Series [Lattice.root o n]).
Proof.
  intro Hty.
  rewrite (@option_price_rows (of_floats o) 1 n); try exact I; auto.
  cbn [batch_rows of_floats sigma tau strike vrows rmax Nat.eqb seq List.map].
  now rewrite contract_of_floats.
Qed.

(** No exercise test outside the region "us". *)
Lemma backward_european (o : Option R) n i V j :
  region o <> "us" ->
  Lattice.backward o n i V j = LatticeSpec.expectation o n (V j) (V (S j)).
Proof.
  intro Hr. unfold Lattice.backward, LatticeSpec.expectation.
  destruct (String.eqb_spec (region o) "us") as [E | _]; [contradiction | ].
  cbv zeta.
  change (Lattice.dt o n) with (LatticeSpec.dt o n).
  change (Lattice.p o n) with (LatticeSpec.p o n).
  replace (- r o * LatticeSpec.dt o n) with (- (r o * LatticeSpec.dt o n)) by ring.
  reflexivity.
Qed.

Lemma backward_step_cons (o : Option R) n x y l :
  LatticeSpec.backward_step o n (x :: y :: l)
  = LatticeSpec.expectation o n x y :: LatticeSpec.backward_step o n (y :: l).
Proof. reflexivity. Qed.

Lemma backward_step_map (o : Option R) n i (V : nat -> R) m :
  region o <> "us" ->
  forall a,
  LatticeSpec.backward_step o n (List.map V (seq a (S m)))
  = List.map (Lattice.backward o n i V) (seq a m).
Proof.
  intro Hr. induction m as [ | m IH]; intro a; [reflexivity | ].
  rewrite (seq_S_cons a (S m)), (seq_S_cons (S a) m).
  cbn [List.map]. rewrite backward_step_cons.
  rewrite (seq_S_cons a m). cbn [List.map].
  rewrite backward_european by exact Hr. f_equal.
  rewrite <- (IH (S a)), (seq_S_cons (S a) m). reflexivity.
Qed.

Lemma induct_iter (o : Option R) n m :
  region o <> "us" ->
  forall V,
  Nat.iter m (LatticeSpec.backward_step o n) (List.map V (seq 0 (S m)))
  = [Lattice.induct o n m V 0%nat].
Proof.
  intro Hr. induction m as [ | m IH]; intro V; [reflexivity | ].
  rewrite Nat.iter_succ_r, (@backward_step_map o n m V (S m) Hr 0).
  rewrite IH. reflexivity.
Qed.

Lemma asset_node_price (o : Option R) n j :
  (j <= n)%nat -> Lattice.asset o n n j = LatticeSpec.node_price o n j.
Proof.
  intro Hj. unfold Lattice.asset, LatticeSpec.node_price.
  rewrite <- Nat2Z.inj_sub, <- !pow_powerRZ by exact Hj. reflexivity.
Qed.

Lemma induct_ext (o : Option R) n m : forall V V',
  (forall j, (j <= m)%nat -> V j = V' j) ->
  Lattice.induct o n m V 0%nat = Lattice.induct o n m V' 0%nat.
Proof.
  induction m as [ | m IH]; intros V V' E; cbn [Lattice.induct].
  - apply E. lia.
  - apply IH. intros j Hj. unfold Lattice.backward.
    rewrite (E j), (E (S j)) by lia. reflexivity.
Qed.

Lemma root_is_spec_price (o : Option R) n :
  region o <> "us" -> Lattice.root o n = LatticeSpec.price o n.
Proof.
  intro Hr. unfold LatticeSpec.price, LatticeSpec.terminal_payoffs.
  rewrite Nat.add_1_r, induct_iter by exact Hr. cbn [hd].
  unfold Lattice.root. apply induct_ext. intros j Hj.
  now rewrite asset_node_price.
Qed.

(** C6. For a European contract with float fields, positive volatility
    and time to maturity and n >= 1, the up factor is above the down factor
    (no divisor is zero) and the lattice price is the root of the specification's lattice: dt = tau/n,
    u = e^(sigma sqrt dt), d = 1/u, p = (e^((r-q)dt) - d)/(u - d), terminal
    node j priced S u^(n-j) d^j with payoff max(S_T - K, 0) or
    max(K - S_T, 0), each backward step taking
    e^(-r dt) (p V_up + (1-p) V_down); for n = 1 it is that expectation of
    the two terminal payoffs. *)
Theorem european_lattice_price (o : Option R) (n : nat) :
  (1 <= n)%nat -> 0 < sigma o -> 0 < tau o ->
  region o = "eu" -> type o = "call" \/ type o = "put" ->
  LatticeSpec.d o n < LatticeSpec.u o n
  /\ Bopm.option_price (of_floats o) n = Ok (Series [LatticeSpec.price o n])
  /\ Bopm.option_price (of_floats o) 1
     = Ok (Series [LatticeSpec.expectation o 1
                     (LatticeSpec.payoff o (spot o * LatticeSpec.u o 1))
                     (LatticeSpec.payoff o (spot o * LatticeSpec.d o 1))]).
Proof.
  intros Hn Hs Ht Hregion Hty.
  split; [pose proof (u_above_d o Hn Ht Hs) as Hud;
          change (Lattice.d o n < Lattice.u o n); lra | ].
  assert (Hr : region o <> "us") by (rewrite Hregion; discriminate).
  rewrite !option_price_of_floats, !root_is_spec_price by assumption.
  split; [reflexivity | ].
  unfold LatticeSpec.price, LatticeSpec.terminal_payoffs, LatticeSpec.node_price.
  cbn [Nat.iter nat_rect Nat.add seq List.map LatticeSpec.backward_step hd Nat.sub pow].
  do 4 f_equal; f_equal; ring.
Qed.

Lemma european_lattice_price_witness :
  (1 <= 1)%nat /\ 0 < sigma sample_call /\ 0 < tau sample_call
  /\ LatticeSpec.d sample_call 1 < LatticeSpec.u sample_call 1
  /\ Bopm.option_price (of_floats sample_call) 1
     = Ok (Series [LatticeSpec.price sample_call 1]).
Proof.
  split; [lia | split; [simpl; lra | split; [simpl; lra | ]]].
  destruct (@european_lattice_price sample_call 1) as (Hud & Hprice & _);
    [lia | simpl; lra | simpl; lra | reflexivity | left; reflexivity | ].
  split; [exact Hud | exact Hprice].
Defined.

End ScalarLattice.

(** ** The exercise style the constructor admits and the one the lattice tests *)

Module ExerciseStyle.
Import ScalarLattice.

Lemma deep_put_dt rg : Lattice.dt (deep_put rg) 1 = 1.
Proof. unfold Lattice.dt. cbn. lra. Qed.

Lemma deep_put_u rg : Lattice.u (deep_put rg) 1 = exp 1.
Proof.
  unfold Lattice.u. rewrite deep_put_dt, sqrt_1. cbn [sigma deep_put]. f_equal. lra.
Qed.

Lemma exp_1_gt_2 : 2 < exp 1.
Proof. pose proof (exp_ineq1 1). lra. Qed.

Lemma deep_put_p rg : Lattice.p (deep_put rg) 1 = 1.
Proof.
  unfold Lattice.p, Lattice.d. rewrite deep_put_dt, deep_put_u. cbn [r div deep_put].
  replace ((1 - 0) * 1) with 1 by lra.
  pose proof exp_1_gt_2. assert (1 / exp 1 < 1).
  { apply Rmult_lt_reg_r with (exp 1); [lra | ]. field_simplify; lra. }
  apply Rdiv_diag. lra.
Qed.

Lemma deep_put_up rg : Lattice.payoff (deep_put rg) (Lattice.asset (deep_put rg) 1 1 0) = 0.
Proof.
  unfold Lattice.payoff, Lattice.asset. rewrite deep_put_u.
  cbn [type spot strike deep_put String.eqb Ascii.eqb Bool.eqb].
  change (Z.of_nat 1 - Z.of_nat 0)%Z with 1%Z. change (Z.of_nat 0) with 0%Z.
  rewrite powerRZ_1, powerRZ_O.
  pose proof exp_1_gt_2. apply Rmax_right. lra.
Qed.

Lemma deep_put_continuation rg v_down :
  exp (- r (deep_put rg) * Lattice.dt (deep_put rg) 1)
  * (Lattice.p (deep_put rg) 1 * 0 + (1 - Lattice.p (deep_put rg) 1) * v_down) = 0.
Proof. rewrite deep_put_p. ring. Qed.

Lemma deep_put_root_na : Lattice.root (deep_put "na") 1 = 0.
Proof.
  unfold Lattice.root. cbn [Lattice.induct]. unfold Lattice.backward.
  cbn [region deep_put String.eqb Ascii.eqb Bool.eqb]. cbv zeta.
  rewrite deep_put_up. apply deep_put_continuation.
Qed.

Lemma deep_put_root_us : Lattice.root (deep_put "us") 1 = 1.
Proof.
  unfold Lattice.root. cbn [Lattice.induct]. unfold Lattice.backward.
  cbn [region deep_put String.eqb Ascii.eqb Bool.eqb]. cbv zeta.
  rewrite deep_put_up, deep_put_continuation.
  unfold Lattice.payoff, Lattice.asset.
  cbn [type spot strike deep_put String.eqb Ascii.eqb Bool.eqb].
  change (Z.of_nat 0 - Z.of_nat 0)%Z with 0%Z. change (Z.of_nat 0) with 0%Z.
  rewrite !powerRZ_O.
  replace (2 - 1 * 1 * 1) with 1 by lra.
  rewrite (Rmax_left 1 0) by lra. apply Rmax_right. lra.
Qed.

(** An object the constructor returns never has the region "us", the
    only one under which the lattice pricer compares with the exercise
    value. *)
Theorem constructed_region_not_us tau spot strike sigma r div ty rg o :
  Option_init tau spot strike sigma r div ty rg = Ok o -> (region o =? "us") = false.
Proof.
  intro H. destruct (OptionFacts.Option_init_enums _ _ _ _ _ _ _ _ H) as (_ & [-> | ->]);
    reflexivity.
Qed.

Lemma constructed_region_not_us_witness :
  Option_init (Num 1) (Num 1) (Num 2) (Num 1) (Num 1) (Num 0) "put" "NA"
  = Ok (of_floats (deep_put "na"))
  /\ (region (of_floats (deep_put "na")) =? "us") = false.
Proof.
  assert (H : Option_init (Num 1) (Num 1) (Num 2) (Num 1) (Num 1) (Num 0) "put" "NA"
              = Ok (of_floats (deep_put "na")))
    by (rewrite OptionFacts.Option_init_enum_checks; reflexivity).
  split; [exact H | exact (constructed_region_not_us _ _ _ _ _ _ _ _ H)].
Defined.

(** C1 on the code.  The constructor takes "na" (in any case) as the
    second exercise style and refuses "us"; the lattice pricer compares
    with the exercise value only under "us".  The put built with "NA" is
    priced at its continuation value 0; under "us" the same numbers give
    the exercise value 1. *)
Theorem american_put_priced_as_european :
  Option_init (Num 1) (Num 1) (Num 2) (Num 1) (Num 1) (Num 0) "put" "NA"
  = Ok (of_floats (deep_put "na"))
  /\ Bopm.option_price (of_floats (deep_put "na")) 1 = Ok (Series [0])
  /\ Bopm.option_price (of_floats (deep_put "us")) 1 = Ok (Series [1])
  /\ Option_init (Num 1) (Num 1) (Num 2) (Num 1) (Num 1) (Num 0) "put" "us"
     = Raise (ValueError "Invalid Option region").
Proof.
  repeat split.
  - now rewrite OptionFacts.Option_init_enum_checks.
  - rewrite option_price_of_floats by (right; reflexivity).
    now rewrite deep_put_root_na.
  - rewrite option_price_of_floats by (right; reflexivity).
    now rewrite deep_put_root_us.
  - now rewrite OptionFacts.Option_init_enum_checks.
Qed.

End ExerciseStyle.

(** ** Batches *)

Module BatchFacts.
Import NdarrayFacts BopmFacts ScalarLattice.

(** With a sequence among the three broadcast fields the pricer returns
    one price per contract. *)
Lemma batch_rows_series (o : Option value) (M : nat) :
  fits M (tau o) -> fits M (strike o) -> fits M (sigma o) ->
  is_series (tau o) \/ is_series (strike o) \/ is_series (sigma o) ->
  batch_rows o = M.
Proof.
  unfold batch_rows.
  destruct (tau o), (strike o), (sigma o); cbn [vrows fits is_series];
    intros Ht Hk Hs [F | [F | F]]; try contradiction;
    rewrite ?Ht, ?Hk, ?Hs;
    (destruct (Nat.eq_dec M 1) as [-> | E];
     [ reflexivity
     | apply Nat.eqb_neq in E; unfold rmax; cbn [Nat.eqb];
       repeat (rewrite E; cbn [Nat.eqb]); reflexivity ]).
Qed.

Lemma nth_map_seq (f : nat -> R) M k :
  (k < M)%nat -> nth k (List.map f (seq 0 M)) 0 = f k.
Proof.
  intro Hk. rewrite (nth_indep _ 0 (f 0%nat)) by (rewrite length_map, length_seq; exact Hk).
  rewrite map_nth, seq_nth by exact Hk. reflexivity.
Qed.

(** C7, as the code has it.  In a batch of M >= 1 calls or puts where
    timeToMaturity, strike and volatility are each a float or a sequence of
    length M, at least one of them a sequence, and spot, rate and dividend
    yield are floats, the lattice pricer returns M prices, the k-th being
    the price it returns for contract k alone. *)
Theorem batched_lattice_price (o : Option value) (M n : nat) :
  (1 <= M)%nat ->
  is_float (spot o) -> is_float (r o) -> is_float (div o) ->
  fits M (tau o) -> fits M (strike o) -> fits M (sigma o) ->
  is_series (tau o) \/ is_series (strike o) \/ is_series (sigma o) ->
  type o = "call" \/ type o = "put" ->
  exists prices,
    Bopm.option_price o n = Ok (Series prices)
    /\ List.length prices = M
    /\ forall k, (k < M)%nat ->
         Bopm.option_price (of_floats (contract o k)) n = Ok (Series [nth k prices 0]).
Proof.
  intros HM Hspot Hr Hdiv Htau Hstrike Hsigma Hseries Hty.
  exists (List.map (fun k => Lattice.root (contract o k) n) (seq 0 M)).
  split; [ | split].
  - rewrite (@option_price_rows o M n) by assumption.
    now rewrite (@batch_rows_series o M).
  - now rewrite length_map, length_seq.
  - intros k Hk. rewrite nth_map_seq by exact Hk.
    now apply option_price_of_floats.
Qed.

Lemma batched_lattice_price_witness :
  (1 <= 3)%nat
  /\ exists prices,
       Bopm.option_price three_strikes 2 = Ok (Series prices)
       /\ List.length prices = 3%nat
       /\ forall k, (k < 3)%nat ->
            Bopm.option_price (of_floats (contract three_strikes k)) 2
            = Ok (Series [nth k prices 0]).
Proof.
  split; [lia | ].
  apply (@batched_lattice_price three_strikes 3 2);
    [lia | exact I | exact I | exact I | exact I | reflexivity | exact I
     | right; left; exact I | left; reflexivity].
Defined.

(** C7 as stated fails twice.  A batch given through the spot price is not
    broadcast: two spots on a lattice of two levels raise NumPy's shape
    error.  And a contract with float fields gets a sequence of length one,
    not a float. *)
Lemma batched_lattice_counterexample :
  Bopm.option_price two_spots 2 = Raise broadcast_error
  /\ Bopm.option_price (of_floats sample_call) 1
     = Ok (Series [Lattice.root sample_call 1]).
Proof.
  split.
  - reflexivity.
  - apply option_price_of_floats. left. reflexivity.
Qed.

(** On a contract all of whose fields are floats the lattice pricer
    returns a sequence of length one, never a float: the node index is
    reshaped to a row, so the values are two-dimensional and are flattened. *)
Theorem float_fields_give_sequence (o : Option R) (n : nat) :
  type o = "call" \/ type o = "put" ->
  exists price, Bopm.option_price (of_floats o) n = Ok (Series [price]).
Proof.
  intro Hty. exists (Lattice.root o n). now apply option_price_of_floats.
Qed.

Lemma float_fields_give_sequence_witness :
  (type sample_call = "call" \/ type sample_call = "put")
  /\ exists price, Bopm.option_price (of_floats sample_call) 100 = Ok (Series [price]).
Proof.
  split; [left; reflexivity | ].
  apply float_fields_give_sequence. left. reflexivity.
Defined.

End BatchFacts.

(** ** The probability module *)

Module ProbabilityFacts.
Import NdarrayFacts BopmFacts ScalarLattice.

(** The sum of a list of reals. *)
Definition total (xs : list R) : R := fold_right Rplus 0 xs.

(** The entries of [xs] that the mask keeps. *)
Definition keep {A} (xs : list A) (mask : list bool) : list A :=
  List.map fst (filter snd (combine xs mask)).

Lemma sum_finite xs : Np.sum (List.map Finite xs) = Finite (total xs).
Proof.
  induction xs as [ | x xs IH]; [reflexivity | ].
  cbn [List.map Np.sum]. now rewrite IH.
Qed.

Lemma keep_finite xs mask :
  keep (List.map Finite xs) mask = List.map Finite (keep xs mask).
Proof.
  unfold keep. revert mask.
  induction xs as [ | x xs IH]; intros [ | [ | ] mask]; cbn; try reflexivity;
    now rewrite ?IH.
Qed.

(** A mask and its negation split the total. *)
Lemma total_keep_split xs : forall mask,
  List.length mask = List.length xs ->
  total (keep xs mask) + total (keep xs (List.map negb mask)) = total xs.
Proof.
  unfold keep, total.
  induction xs as [ | x xs IH]; intros [ | b mask] Hlen; try discriminate.
  - cbn. lra.
  - injection Hlen as Hlen. specialize (IH mask Hlen).
    destruct b; cbn in *; lra.
Qed.

Lemma total_seq_sum (f : nat -> R) n :
  total (List.map f (seq 0 (S n))) = sum_f_R0 f n.
Proof.
  unfold total. induction n as [ | n IH]; [cbn; lra | ].
  rewrite seq_S, map_app, fold_right_app. cbn [List.map fold_right Nat.add sum_f_R0].
  rewrite <- IH. generalize (List.map f (seq 0 (S n))) as l.
  induction l as [ | x l IHl]; cbn; [lra | rewrite IHl; lra].
Qed.

(** The binomial masses over all [n + 1] nodes sum to 1. *)
Lemma node_mass_total n p :
  total (List.map (LatticeSpec.node_mass n p) (seq 0 (S n))) = 1.
Proof.
  rewrite total_seq_sum. unfold LatticeSpec.node_mass.
  rewrite <- binomial. replace (p + (1 - p)) with 1 by ring. apply pow1.
Qed.

Lemma binom_pmf_node n p j :
  0 <= p <= 1 -> (j <= n)%nat ->
  Stats.binom_pmf n (Z.of_nat j) p = Finite (LatticeSpec.node_mass n p j).
Proof.
  intros [H0 H1] Hj. unfold Stats.binom_pmf, LatticeSpec.node_mass.
  destruct (Rle_dec 0 p); [ | contradiction].
  destruct (Rle_dec p 1); [ | contradiction].
  replace ((0 <=? Z.of_nat j)%Z && (Z.of_nat j <=? Z.of_nat n)%Z) with true
    by (symmetry; apply andb_true_intro; split; apply Z.leb_le; lia).
  now rewrite Nat2Z.id.
Qed.

(** A row, read off column by column. *)
Lemma elements_row {A} (x : ndarray A) d c g :
  den 1 x d 1 c g -> elements x = List.map (g 0%nat) (seq 0 c).
Proof.
  intros (Hd & Hr & Hc & HM & Hg). unfold elements. rewrite Hr, Hc.
  cbn [seq flat_map]. rewrite app_nil_r.
  apply map_ext_in. intros j Hj. apply in_seq in Hj. apply Hg; lia.
Qed.

Lemma mask_index_rows {A} (x : ndarray A) (mask : ndarray bool) d c g m :
  den 1 x d 1 c g -> den 1 mask d 1 c m ->
  mask_index x mask = Ok (keep (elements x) (elements mask)).
Proof.
  intros (Hd & Hr & Hc & _) (Hd' & Hr' & Hc' & _). unfold mask_index.
  rewrite Hd, Hd', Hr, Hr', Hc, Hc', !Nat.eqb_refl. reflexivity.
Qed.

Lemma total_keep_where (f : nat -> R) (mask : nat -> bool) l :
  total (keep (List.map f l) (List.map mask l))
  = total (List.map (fun j => if mask j then f j else 0) l).
Proof.
  unfold total, keep. induction l as [ | j l IH]; [reflexivity | ].
  cbn [List.map combine filter snd]. destruct (mask j); cbn; rewrite IH; lra.
Qed.

Lemma masked_total n p mask :
  total (keep (List.map (LatticeSpec.node_mass n p) (seq 0 (S n)))
              (List.map mask (seq 0 (S n))))
  = NodeMasks.mass_where n p mask.
Proof. rewrite total_keep_where, total_seq_sum. reflexivity. Qed.

Lemma price_den x : den 1 (Np.asarray (Series [x])) 1 1 1 (fun _ _ => x).
Proof.
  repeat split; cbn; auto.
Qed.

(** With at least one step, [o.tau / n] on a float is the quotient. *)
Lemma div_int_float x n :
  (1 <= n)%nat -> Np.div_int (Num x) n = lift2 Rdiv (arr (Scalar x)) (lit (INR n)).
Proof.
  intro Hn. unfold Np.div_int. destruct (Nat.eqb_spec n 0); [lia | reflexivity].
Qed.

Section Masses.
Variables (o : Option R) (mu : R) (n : nat).
Hypothesis type_ok : type o = "call" \/ type o = "put".
Hypothesis n_pos : (1 <= n)%nat.

(** What [node_masses] evaluates to on float fields: the two masks, and
    the mass [binom.pmf] gives each node. *)
Lemma node_masses_exact :
  exists is_profitable is_itm probabilites,
    Bopm.node_masses (of_floats o) mu n = Ok (is_profitable, is_itm, probabilites)
    /\ den 1 is_profitable 1 1 (S n) (fun _ j => NodeMasks.is_profitable o n j)
    /\ den 1 is_itm 1 1 (S n) (fun _ j => NodeMasks.is_itm o n j)
    /\ den 1 probabilites 1 1 (S n)
           (fun _ j => Stats.binom_pmf n (Z.of_nat j) (LatticeSpec.p_real o mu n)).
Proof.
  unfold Bopm.node_masses.
  rewrite option_price_of_floats by exact type_ok. cbn [bind]. cbv zeta.
  pose proof (price_den (Lattice.root o n)) as Hprice.
  remember (Np.asarray (Series [Lattice.root o n])) as price eqn:Eprice. clear Eprice.
  cbn [tau sigma spot strike r of_floats Np.asarray type].
  rewrite div_int_float by exact n_pos.
  np_bind_at 1%nat dt Hdt. np_bind_at 1%nat u Hu. np_bind_at 1%nat d Hd.
  np_bind_at 1%nat final_spot Hfinal.
  unfold NodeMasks.is_profitable, NodeMasks.is_itm, Lattice.payoff.
  destruct (type o =? "call").
  - np_bind_at 1%nat is_itm Hitm. np_bind_at 1%nat payoff Hpayoff.
    np_bind_at 1%nat is_profitable Hprofitable. np_bind_at 1%nat p_real Hp.
    np_bind_at 1%nat probabilites Hprob.
    do 3 eexists. split; [reflexivity | ].
    split; [ | split].
    + eapply den_conv; [exact Hprofitable | reflexivity | reflexivity | lia | ].
      intros i j Hi Hj. cbv beta. rewrite !(@pick_lt _ j) by lia. reflexivity.
    + eapply den_conv; [exact Hitm | reflexivity | reflexivity | lia | ].
      intros i j Hi Hj. cbv beta. rewrite !(@pick_lt _ j) by lia. reflexivity.
    + eapply den_conv; [exact Hprob | reflexivity | reflexivity | lia | ].
      intros i j Hi Hj. cbv beta. rewrite (pick_lt Hj). reflexivity.
  - np_bind_at 1%nat is_itm Hitm. np_bind_at 1%nat payoff Hpayoff.
    np_bind_at 1%nat is_profitable Hprofitable. np_bind_at 1%nat p_real Hp.
    np_bind_at 1%nat probabilites Hprob.
    do 3 eexists. split; [reflexivity | ].
    split; [ | split].
    + eapply den_conv; [exact Hprofitable | reflexivity | reflexivity | lia | ].
      intros i j Hi Hj. cbv beta. rewrite !(@pick_lt _ j) by lia. reflexivity.
    + eapply den_conv; [exact Hitm | reflexivity | reflexivity | lia | ].
      intros i j Hi Hj. cbv beta. rewrite !(@pick_lt _ j) by lia. reflexivity.
    + eapply den_conv; [exact Hprob | reflexivity | reflexivity | lia | ].
      intros i j Hi Hj. cbv beta. rewrite (pick_lt Hj). reflexivity.
Qed.

Hypothesis p_real_unit : 0 <= LatticeSpec.p_real o mu n <= 1.

(** The run of [prob_of_profit], node by node. *)
Lemma node_masses_run :
  exists is_profitable is_itm probabilites,
    Bopm.node_masses (of_floats o) mu n = Ok (is_profitable, is_itm, probabilites)
    /\ elements probabilites
       = List.map (fun j => Finite (LatticeSpec.node_mass n (LatticeSpec.p_real o mu n) j))
                  (seq 0 (n + 1))
    /\ elements is_profitable = List.map (NodeMasks.is_profitable o n) (seq 0 (n + 1))
    /\ elements is_itm = List.map (NodeMasks.is_itm o n) (seq 0 (n + 1))
    /\ Bopm.prob_of_profit (of_floats o) mu n
       = Ok (Finite (NodeMasks.mass_where n (LatticeSpec.p_real o mu n)
                       (NodeMasks.is_profitable o n)),
             Finite (NodeMasks.mass_where n (LatticeSpec.p_real o mu n)
                       (NodeMasks.is_itm o n)))
    /\ fmap Np.sum (mask_index probabilites (amap negb is_profitable))
       = Ok (Finite (NodeMasks.mass_where n (LatticeSpec.p_real o mu n)
                       (fun j => negb (NodeMasks.is_profitable o n j)))).
Proof.
  destruct node_masses_exact
    as (is_profitable & is_itm & probabilites & Hrun & Hprof & Hitm & Hprob).
  exists is_profitable, is_itm, probabilites.
  assert (Hel : elements probabilites
                = List.map Finite
                    (List.map (LatticeSpec.node_mass n (LatticeSpec.p_real o mu n))
                              (seq 0 (S n)))).
  { rewrite (elements_row Hprob), map_map.
    apply map_ext_in. intros j Hj. apply in_seq in Hj.
    apply binom_pmf_node; [exact p_real_unit | lia]. }
  rewrite Nat.add_1_r.
  split; [exact Hrun | ].
  split; [rewrite Hel; apply map_map | ].
  split; [apply (elements_row Hprof) | ].
  split; [apply (elements_row Hitm) | ].
  split.
  - unfold Bopm.prob_of_profit. rewrite Hrun. cbn [bind].
    rewrite (mask_index_rows Hprob Hprof), (mask_index_rows Hprob Hitm).
    cbn [fmap bind ret].
    rewrite Hel, !keep_finite, !sum_finite.
    rewrite (elements_row Hprof), (elements_row Hitm), !masked_total. reflexivity.
  - pose proof (amap_den negb Hprof) as Hneg.
    rewrite (mask_index_rows Hprob Hneg). cbn [fmap bind ret].
    rewrite Hel, keep_finite, sum_finite, (elements_row Hneg).
    rewrite (masked_total n (LatticeSpec.p_real o mu n)
               (fun j => negb (NodeMasks.is_profitable o n j))).
    reflexivity.
Qed.

End Masses.

Lemma mass_where_split n p mask :
  NodeMasks.mass_where n p mask + NodeMasks.mass_where n p (fun j => negb (mask j)) = 1.
Proof.
  rewrite <- !masked_total, <- (node_mass_total n p).
  rewrite <- (total_keep_split (List.map (LatticeSpec.node_mass n p) (seq 0 (S n)))
                (List.map mask (seq 0 (S n)))) by (now rewrite !length_map).
  now rewrite map_map.
Qed.

(** C9. For a contract with float fields (kind call or put), a drift mu
    and n >= 1 levels, with positive volatility and time to maturity (so
    that u > d) and p_real = (e^(mu dt) - d)/(u - d) in [0, 1]: the lattice
    probability module gives terminal node j the Binomial(n, p_real) mass
    C(n, j) p_real^j (1 - p_real)^(n - j), marks it profitable when its
    payoff exceeds price e^(r tau), and these n + 1 masses sum to 1; the
    probability of profit is the mass of the profitable nodes, and with the
    mass of the nodes that are not profitable it adds up to 1. *)
Theorem node_masses_complement (o : Option R) (mu : R) (n : nat) :
  type o = "call" \/ type o = "put" ->
  (1 <= n)%nat -> 0 < sigma o -> 0 < tau o ->
  0 <= LatticeSpec.p_real o mu n <= 1 ->
  exists is_profitable is_itm probabilites pop itm rest,
    LatticeSpec.d o n < LatticeSpec.u o n
    /\ Bopm.node_masses (of_floats o) mu n = Ok (is_profitable, is_itm, probabilites)
    /\ elements probabilites
       = List.map (fun j => Finite (LatticeSpec.node_mass n (LatticeSpec.p_real o mu n) j))
                  (seq 0 (n + 1))
    /\ elements is_profitable = List.map (NodeMasks.is_profitable o n) (seq 0 (n + 1))
    /\ List.length (elements probabilites) = (n + 1)%nat
    /\ Np.sum (elements probabilites) = Finite 1
    /\ Bopm.prob_of_profit (of_floats o) mu n = Ok (Finite pop, itm)
    /\ pop = NodeMasks.mass_where n (LatticeSpec.p_real o mu n)
               (NodeMasks.is_profitable o n)
    /\ fmap Np.sum (mask_index probabilites (amap negb is_profitable))
       = Ok (Finite rest)
    /\ rest = NodeMasks.mass_where n (LatticeSpec.p_real o mu n)
                (fun j => negb (NodeMasks.is_profitable o n j))
    /\ pop + rest = 1.
Proof.
  intros Hty Hn Hs Ht Hp.
  destruct (@node_masses_run o mu n Hty Hn Hp)
    as (is_profitable & is_itm & probabilites & Hrun & Hmass & Hmask & _ & Hpop & Hrest).
  do 6 eexists.
  split; [pose proof (u_above_d o Hn Ht Hs);
          change (Lattice.d o n < Lattice.u o n); lra | ].
  split; [exact Hrun | ].
  split; [exact Hmass | ].
  split; [exact Hmask | ].
  split; [rewrite Hmass, length_map, length_seq; reflexivity | ].
  split.
  { rewrite Hmass, <- (map_map (LatticeSpec.node_mass n (LatticeSpec.p_real o mu n)) Finite).
    rewrite sum_finite, Nat.add_1_r, node_mass_total. reflexivity. }
  split; [exact Hpop | ].
  split; [reflexivity | ].
  split; [exact Hrest | ].
  split; [reflexivity | ].
  apply mass_where_split.
Qed.

Lemma deep_put_p_real rg : LatticeSpec.p_real (deep_put rg) 1 1 = 1.
Proof.
  unfold LatticeSpec.p_real, LatticeSpec.d, LatticeSpec.u, LatticeSpec.dt.
  cbn [tau sigma deep_put INR]. replace (1 / 1) with 1 by lra.
  rewrite sqrt_1. replace (1 * 1) with 1 by lra.
  pose proof ExerciseStyle.exp_1_gt_2. assert (1 / exp 1 < 1).
  { apply Rmult_lt_reg_r with (exp 1); [lra | ]. field_simplify; lra. }
  apply Rdiv_diag. lra.
Qed.

Lemma node_masses_complement_witness :
  (type (deep_put "eu") = "call" \/ type (deep_put "eu") = "put")
  /\ (1 <= 1)%nat /\ 0 < sigma (deep_put "eu") /\ 0 < tau (deep_put "eu")
  /\ 0 <= LatticeSpec.p_real (deep_put "eu") 1 1 <= 1
  /\ exists is_profitable is_itm probabilites pop itm rest,
       LatticeSpec.d (deep_put "eu") 1 < LatticeSpec.u (deep_put "eu") 1
       /\ Bopm.node_masses (of_floats (deep_put "eu")) 1 1
          = Ok (is_profitable, is_itm, probabilites)
       /\ elements probabilites
          = List.map (fun j => Finite (LatticeSpec.node_mass 1
                                         (LatticeSpec.p_real (deep_put "eu") 1 1) j))
                     (seq 0 (1 + 1))
       /\ elements is_profitable
          = List.map (NodeMasks.is_profitable (deep_put "eu") 1) (seq 0 (1 + 1))
       /\ List.length (elements probabilites) = (1 + 1)%nat
       /\ Np.sum (elements probabilites) = Finite 1
       /\ Bopm.prob_of_profit (of_floats (deep_put "eu")) 1 1 = Ok (Finite pop, itm)
       /\ pop = NodeMasks.mass_where 1 (LatticeSpec.p_real (deep_put "eu") 1 1)
                  (NodeMasks.is_profitable (deep_put "eu") 1)
       /\ fmap Np.sum (mask_index probabilites (amap negb is_profitable))
          = Ok (Finite rest)
       /\ rest = NodeMasks.mass_where 1 (LatticeSpec.p_real (deep_put "eu") 1 1)
                   (fun j => negb (NodeMasks.is_profitable (deep_put "eu") 1 j))
       /\ pop + rest = 1.
Proof.
  assert (Hp : 0 <= LatticeSpec.p_real (deep_put "eu") 1 1 <= 1)
    by (rewrite deep_put_p_real; lra).
  split; [right; reflexivity | ].
  split; [lia | split; [simpl; lra | split; [simpl; lra | split; [exact Hp | ]]]].
  apply (@node_masses_complement (deep_put "eu") 1 1);
    [right; reflexivity | lia | simpl; lra | simpl; lra | exact Hp].
Defined.

End ProbabilityFacts.

(* ================================================================== *)
(** * More on the normal distribution function *)
(* ================================================================== *)

Module NormalFacts.
Import Stats StatsFacts.

(** On an interval the kernel stays above a positive constant. *)
Lemma gauss_floor a b t : a <= t <= b -> exp (- (a ^ 2 + b ^ 2) / 2) <= gauss t.
Proof.
  intros [Ha Hb]. unfold gauss.
  assert (H : - (a ^ 2 + b ^ 2) / 2 <= - t ^ 2 / 2).
  { destruct (Rle_dec 0 t); nra. }
  destruct H as [H | H]; [left; now apply exp_increasing | rewrite H; right; reflexivity].
Qed.

Lemma gauss_area_pos a b : a < b -> 0 < gauss_area a b.
Proof.
  intro Hab. set (c := exp (- (a ^ 2 + b ^ 2) / 2)).
  assert (prc : Riemann_integrable (fct_cte c) a b).
  { apply continuity_implies_RiemannInt; [lra | ].
    intros; apply continuity_const; intros ? ?; reflexivity. }
  assert (Hle : RiemannInt prc <= gauss_area a b).
  { apply RiemannInt_P19; [lra | ]. intros t Ht. apply gauss_floor. lra. }
  rewrite RiemannInt_P15 in Hle.
  assert (0 < c) by apply exp_pos. nra.
Qed.

(** The kernel is at most 1, so the area over [[0, x]] is at most [x]. *)
Lemma gauss_area_upper x : 0 <= x -> gauss_area 0 x <= x.
Proof.
  intro Hx.
  assert (prc : Riemann_integrable (fct_cte 1) 0 x).
  { apply continuity_implies_RiemannInt; [exact Hx | ].
    intros; apply continuity_const; intros ? ?; reflexivity. }
  replace x with (RiemannInt prc) at 2 by (rewrite RiemannInt_P15; ring).
  apply RiemannInt_P19; [exact Hx | ].
  intros t Ht. unfold fct_cte, gauss.
  destruct (Req_dec t 0) as [-> | Hn].
  - right. replace (- 0 ^ 2 / 2) with 0 by field. apply exp_0.
  - left. rewrite <- exp_0. apply exp_increasing. nra.
Qed.

(** N is strictly increasing. *)
Lemma norm_cdf_increasing x y : x < y -> norm_cdf x < norm_cdf y.
Proof.
  intro Hxy. unfold norm_cdf.
  pose proof (gauss_area_chasles 0 x y). pose proof (gauss_area_pos Hxy).
  pose proof (Rinv_0_lt_compat _ sqrt_2PI_pos). nra.
Qed.

(** The integral of the kernel from 0 has the kernel as its derivative. *)
Section Derivative.
Variable x : R.

Lemma window_bounds : x - 1 <= x + 1.
Proof. lra. Qed.

Lemma window_continuity : forall t, x - 1 <= t <= x + 1 -> continuity_pt gauss t.
Proof. intros; apply gauss_continuous. Qed.

Definition window_primitive : R -> R :=
  primitive window_bounds (FTC_P1 window_bounds window_continuity).

Lemma window_primitive_area t :
  x - 1 <= t <= x + 1 -> gauss_area 0 t = gauss_area 0 (x - 1) + window_primitive t.
Proof.
  intros [H1 H2]. unfold window_primitive, primitive.
  destruct (Rle_dec (x - 1) t) as [Ha | Ha]; [ | contradiction].
  destruct (Rle_dec t (x + 1)) as [Hb | Hb]; [ | contradiction].
  rewrite gauss_area_eq. symmetry. apply gauss_area_chasles.
Qed.

Lemma gauss_area_derivative : derivable_pt_lim (gauss_area 0) x (gauss x).
Proof.
  assert (D : derivable_pt_lim window_primitive x (gauss x)).
  { apply RiemannInt_P27. lra. }
  intros eps Heps. destruct (D eps Heps) as [delta Hdelta].
  assert (Hmin : 0 < Rmin delta 1).
  { apply Rmin_glb_lt; [apply cond_pos | lra]. }
  exists (mkposreal (Rmin delta 1) Hmin). intros h Hh Hlt. cbn [pos] in Hlt.
  assert (Hh1 : Rabs h < 1) by (eapply Rlt_le_trans; [exact Hlt | apply Rmin_r]).
  assert (Hhd : Rabs h < delta) by (eapply Rlt_le_trans; [exact Hlt | apply Rmin_l]).
  apply Rabs_def2 in Hh1.
  rewrite (@window_primitive_area (x + h)), (@window_primitive_area x) by lra.
  replace (gauss_area 0 (x - 1) + window_primitive (x + h)
           - (gauss_area 0 (x - 1) + window_primitive x))
    with (window_primitive (x + h) - window_primitive x) by ring.
  now apply Hdelta.
Qed.

End Derivative.

(** The derivative of N at x is the density (1/sqrt(2 pi)) e^(-x^2/2). *)
Lemma norm_cdf_derivative x :
  derivable_pt_lim norm_cdf x (/ sqrt (2 * PI) * gauss x).
Proof.
  replace (/ sqrt (2 * PI) * gauss x) with (0 + / sqrt (2 * PI) * gauss x) by ring.
  change norm_cdf
    with (fct_cte (1 / 2) + mult_real_fct (/ sqrt (2 * PI)) (gauss_area 0))%F.
  apply derivable_pt_lim_plus; [apply derivable_pt_lim_const | ].
  apply derivable_pt_lim_scal, gauss_area_derivative.
Qed.

End NormalFacts.

(* ================================================================== *)
(** * black_scholes.py: sensitivities and profit statistics *)
(* ================================================================== *)

Module AnalyticMore.
Import Floats BlackScholes AnalyticSpec BlackScholesFacts.

Lemma N_monotone x y : x <= y -> N x <= N y.
Proof.
  intros [H | ->]; [left; now apply NormalFacts.norm_cdf_increasing | right; reflexivity].
Qed.

(** [dN] is what its docstring says: the first derivative of [N]. *)
Theorem dN_is_derivative_of_N x : derivable_pt_lim N x (dN x).
Proof.
  replace (dN x) with (/ sqrt (2 * PI) * Stats.gauss x).
  - apply NormalFacts.norm_cdf_derivative.
  - unfold dN, Stats.gauss. field. pose proof StatsFacts.sqrt_2PI_pos. lra.
Qed.

Section Regular.
Variable o : Option R.
Hypothesis spot_pos : 0 < spot o.
Hypothesis strike_pos : 0 < strike o.
Hypothesis sigma_pos : 0 < sigma o.
Hypothesis tau_pos : 0 < tau o.

Lemma greeks_call_regular :
  greeks (set_type o "call")
  = Fin (mkGreeks (N (d_plus o))
                  (dN (d_plus o) / (spot o * sigma o * sqrt (tau o)))
                  (spot o * dN (d_plus o) * sqrt (tau o))
                  (- (spot o * dN (d_plus o) * sigma o) / (2 * sqrt (tau o))
                   - r o * strike o * exp (- r o * tau o) * N (d_minus o))
                  (strike o * tau o * exp (- r o * tau o) * N (d_minus o))).
Proof.
  rewrite greeks_regular by (cbn [spot strike tau sigma set_type]; lra). reflexivity.
Qed.

Lemma greeks_put_regular :
  greeks (set_type o "put")
  = Fin (mkGreeks (N (d_plus o) - 1)
                  (dN (d_plus o) / (spot o * sigma o * sqrt (tau o)))
                  (spot o * dN (d_plus o) * sqrt (tau o))
                  (- (spot o * dN (d_plus o) * sigma o) / (2 * sqrt (tau o))
                   + r o * strike o * exp (- r o * tau o) * N (- d_minus o))
                  (- strike o * tau o * exp (- r o * tau o) * N (- d_minus o))).
Proof.
  rewrite greeks_regular by (cbn [spot strike tau sigma set_type]; lra). reflexivity.
Qed.

Lemma greeks_gamma_vega :
  exists g,
    greeks o = Fin g
    /\ gamma g = dN (d_plus o) / (spot o * sigma o * sqrt (tau o))
    /\ vega g = spot o * dN (d_plus o) * sqrt (tau o).
Proof.
  rewrite greeks_regular by lra.
  destruct (type o =? "call"); eexists; repeat split.
Qed.

(** The d- of [prob_of_profit] at the strike itself is d-. *)
Lemma shifted_d_2_own : shifted_d_2 o (strike o) = d_minus o.
Proof. unfold shifted_d_2, d_minus, d_plus. unfold Rdiv. ring. Qed.

(** A higher breakeven lowers it. *)
Lemma shifted_d_2_decreasing k k' :
  0 < k -> k <= k' -> shifted_d_2 o k' <= shifted_d_2 o k.
Proof.
  intros Hk Hkk'. unfold shifted_d_2.
  assert (Hq : 0 < sqrt (tau o)) by now apply sqrt_lt_R0.
  assert (Hc : 0 < 1 / (sigma o * sqrt (tau o))).
  { apply Rdiv_lt_0_compat; [lra | now apply Rmult_lt_0_compat]. }
  assert (Hln : ln (spot o / k') <= ln (spot o / k)).
  { destruct Hkk' as [Hlt | <-]; [left | right; reflexivity].
    apply ln_increasing.
    - apply Rdiv_lt_0_compat; lra.
    - unfold Rdiv. apply Rmult_lt_compat_l; [exact spot_pos | ].
      apply Rinv_lt_contravar; [apply Rmult_lt_0_compat; lra | exact Hlt]. }
  nra.
Qed.

Lemma prob_of_profit_call_regular :
  type o = "call" -> 0 < strike o + price_of o ->
  prob_of_profit o
  = Fin (N (shifted_d_2 o (strike o + price_of o)), N (d_minus o)).
Proof.
  intros Hty Hk. assert (Hq : 0 < sqrt (tau o)) by now apply sqrt_lt_R0.
  unfold prob_of_profit.
  rewrite option_price_regular by (assumption || lra). cbn [bind].
  rewrite Hty. cbn [String.eqb Ascii.eqb Bool.eqb].
  rewrite !np_sqrt_nonneg by lra. cbn [bind].
  rewrite np_div_nonzero by (apply Rmult_integral_contrapositive_currified; lra).
  cbn [bind]. rewrite np_div_nonzero by lra. cbn [bind].
  rewrite np_log_pos by (apply Rdiv_lt_0_compat; lra). cbn [bind].
  rewrite d_2_regular by (assumption || lra). reflexivity.
Qed.

Lemma prob_of_profit_put_regular :
  type o = "put" -> 0 < strike o - price_of o ->
  prob_of_profit o
  = Fin (1 - N (shifted_d_2 o (strike o - price_of o)), 1 - N (d_minus o)).
Proof.
  intros Hty Hk. assert (Hq : 0 < sqrt (tau o)) by now apply sqrt_lt_R0.
  unfold prob_of_profit.
  rewrite option_price_regular by (assumption || lra). cbn [bind].
  rewrite Hty. cbn [String.eqb Ascii.eqb Bool.eqb].
  rewrite !np_sqrt_nonneg by lra. cbn [bind].
  rewrite np_div_nonzero by (apply Rmult_integral_contrapositive_currified; lra).
  cbn [bind]. rewrite np_div_nonzero by lra. cbn [bind].
  rewrite np_log_pos by (apply Rdiv_lt_0_compat; lra). cbn [bind].
  rewrite d_2_regular by (assumption || lra). reflexivity.
Qed.

End Regular.

(** The sensitivities of a call and of the put on the same numbers
    (positive spot, strike, volatility and time to maturity): delta differs
    by 1, gamma and vega agree, theta differs by -r K e^(-r tau) and rho by
    K tau e^(-r tau), as put-call parity asks. *)
Theorem greeks_parity (o : Option R) :
  0 < spot o -> 0 < strike o -> 0 < sigma o -> 0 < tau o ->
  exists c p,
    greeks (set_type o "call") = Fin c
    /\ greeks (set_type o "put") = Fin p
    /\ delta c - delta p = 1
    /\ gamma c = gamma p
    /\ vega c = vega p
    /\ theta c - theta p = - (r o * strike o * exp (- r o * tau o))
    /\ rho c - rho p = strike o * tau o * exp (- r o * tau o).
Proof.
  intros HS HK Hs Ht. do 2 eexists.
  split; [now apply greeks_call_regular | ].
  split; [now apply greeks_put_regular | ].
  cbn [delta gamma vega theta rho].
  replace (N (- d_minus o)) with (1 - N (d_minus o))
    by (pose proof (N_symmetry (d_minus o)); lra).
  repeat split; ring.
Qed.

Lemma greeks_parity_witness :
  0 < spot sample_call /\ 0 < strike sample_call
  /\ 0 < sigma sample_call /\ 0 < tau sample_call
  /\ exists c p,
       greeks (set_type sample_call "call") = Fin c
       /\ greeks (set_type sample_call "put") = Fin p
       /\ delta c - delta p = 1
       /\ gamma c = gamma p
       /\ vega c = vega p
       /\ theta c - theta p
          = - (r sample_call * strike sample_call
               * exp (- r sample_call * tau sample_call))
       /\ rho c - rho p
          = strike sample_call * tau sample_call
            * exp (- r sample_call * tau sample_call).
Proof.
  repeat (split; [simpl; lra | ]).
  apply (greeks_parity sample_call); simpl; lra.
Defined.

(** vega = spot^2 sigma tau gamma, and neither is negative. *)
Theorem vega_from_gamma (o : Option R) :
  0 < spot o -> 0 < strike o -> 0 < sigma o -> 0 < tau o ->
  exists g,
    greeks o = Fin g
    /\ vega g = spot o ^ 2 * sigma o * tau o * gamma g
    /\ 0 <= gamma g /\ 0 <= vega g.
Proof.
  intros HS HK Hs Ht.
  destruct (@greeks_gamma_vega o HS HK Hs Ht) as (g & Hg & Hgamma & Hvega).
  exists g. split; [exact Hg | ]. rewrite Hgamma, Hvega.
  assert (Hq : 0 < sqrt (tau o)) by now apply sqrt_lt_R0.
  assert (Hqq : sqrt (tau o) * sqrt (tau o) = tau o) by (apply sqrt_sqrt; lra).
  pose proof (dN_pos (d_plus o)) as Hd.
  split; [rewrite <- Hqq at 2; field; lra | ].
  split; left.
  - apply Rdiv_lt_0_compat; [exact Hd | ].
    apply Rmult_lt_0_compat; [apply Rmult_lt_0_compat | ]; assumption.
  - apply Rmult_lt_0_compat; [apply Rmult_lt_0_compat | ]; assumption.
Qed.

Lemma vega_from_gamma_witness :
  0 < spot sample_call /\ 0 < strike sample_call
  /\ 0 < sigma sample_call /\ 0 < tau sample_call
  /\ exists g,
       greeks sample_call = Fin g
       /\ vega g = spot sample_call ^ 2 * sigma sample_call * tau sample_call * gamma g
       /\ 0 <= gamma g /\ 0 <= vega g.
Proof.
  repeat (split; [simpl; lra | ]).
  apply vega_from_gamma; simpl; lra.
Defined.

(** ** Probability of profit *)

(** The flat call and the put on its numbers. *)
Lemma flat_d_plus ty : d_plus (set_type flat_call ty) = 1 / 2.
Proof.
  unfold d_plus; cbn [spot strike r sigma tau flat_call set_type].
  replace (1 / 1) with 1 by lra. rewrite ln_1, sqrt_1. lra.
Qed.

Lemma flat_d_minus ty : d_minus (set_type flat_call ty) = - (1 / 2).
Proof.
  unfold d_minus. rewrite flat_d_plus. cbn [sigma tau flat_call set_type].
  rewrite sqrt_1. lra.
Qed.

Lemma flat_price ty :
  ty = "call" \/ ty = "put" ->
  price_of (set_type flat_call ty) = N (1 / 2) - N (- (1 / 2)).
Proof.
  intros [-> | ->]; unfold price_of, discount;
    cbn [type set_type String.eqb Ascii.eqb Bool.eqb];
    rewrite flat_d_plus, flat_d_minus;
    cbn [spot strike r tau flat_call set_type];
    replace (- (0 * 1)) with 0 by ring; rewrite exp_0, ?Ropp_involutive; ring.
Qed.

Lemma flat_price_pos ty :
  ty = "call" \/ ty = "put" -> 0 < price_of (set_type flat_call ty).
Proof.
  intro H. rewrite flat_price by exact H.
  pose proof (@NormalFacts.norm_cdf_increasing (- (1 / 2)) (1 / 2) ltac:(lra)).
  unfold N. lra.
Qed.

Lemma flat_price_below_one ty :
  ty = "call" \/ ty = "put" -> price_of (set_type flat_call ty) < 1.
Proof.
  intro H. rewrite flat_price by exact H.
  pose proof (N_symmetry (1 / 2)) as Hs.
  assert (Hu : N (1 / 2) < 1); [ | lra].
  unfold N, Stats.norm_cdf.
  pose proof (@NormalFacts.gauss_area_upper (1 / 2) ltac:(lra)) as Ha.
  pose proof (@NormalFacts.gauss_area_pos 0 (1 / 2) ltac:(lra)) as Hp.
  assert (Hc : / sqrt (2 * PI) < 1).
  { rewrite <- Rinv_1. apply Rinv_lt_contravar.
    - rewrite Rmult_1_l. apply StatsFacts.sqrt_2PI_pos.
    - rewrite <- sqrt_1. apply sqrt_lt_1; pose proof PI2_3_2; lra. }
  pose proof (Rinv_0_lt_compat _ StatsFacts.sqrt_2PI_pos). nra.
Qed.

(** A call on positive spot, strike, volatility and time to maturity whose
    price is positive: both probabilities are returned, and the
    probability of profit is at most that of finishing in the money. *)
Theorem call_profit_below_itm (o : Option R) (price : R) :
  type o = "call" ->
  0 < spot o -> 0 < strike o -> 0 < sigma o -> 0 < tau o ->
  option_price o = Fin price -> 0 < price ->
  exists pop itm, prob_of_profit o = Fin (pop, itm) /\ pop <= itm.
Proof.
  intros Hty HS HK Hs Ht Hrun Hprice.
  rewrite option_price_regular in Hrun by (assumption || lra).
  injection Hrun as <-.
  do 2 eexists. split; [apply prob_of_profit_call_regular; assumption || lra | ].
  rewrite <- (shifted_d_2_own o). apply N_monotone.
  apply shifted_d_2_decreasing; lra.
Qed.

Lemma call_profit_below_itm_witness :
  type flat_call = "call"
  /\ 0 < spot flat_call /\ 0 < strike flat_call /\ 0 < sigma flat_call
  /\ 0 < tau flat_call
  /\ option_price flat_call = Fin (price_of flat_call)
  /\ 0 < price_of flat_call
  /\ exists pop itm, prob_of_profit flat_call = Fin (pop, itm) /\ pop <= itm.
Proof.
  split; [reflexivity | ].
  repeat (split; [simpl; lra | ]).
  assert (Hrun : option_price flat_call = Fin (price_of flat_call))
    by (apply option_price_regular; simpl; lra).
  assert (Hp : 0 < price_of flat_call)
    by (apply (@flat_price_pos "call"); left; reflexivity).
  split; [exact Hrun | split; [exact Hp | ]].
  apply (@call_profit_below_itm flat_call (price_of flat_call));
    [reflexivity | simpl; lra .. | exact Hrun | exact Hp].
Defined.

(** A put on positive spot, strike, volatility and time to maturity whose
    price lies between zero and the strike: both probabilities are
    returned, and the probability of profit is at most that of finishing
    in the money. *)
Theorem put_profit_below_itm (o : Option R) (price : R) :
  type o = "put" ->
  0 < spot o -> 0 < strike o -> 0 < sigma o -> 0 < tau o ->
  option_price o = Fin price -> 0 < price -> price < strike o ->
  exists pop itm, prob_of_profit o = Fin (pop, itm) /\ pop <= itm.
Proof.
  intros Hty HS HK Hs Ht Hrun Hprice Hbelow.
  rewrite option_price_regular in Hrun by (assumption || lra).
  injection Hrun as <-.
  do 2 eexists. split; [apply prob_of_profit_put_regular; assumption || lra | ].
  rewrite <- (shifted_d_2_own o).
  assert (H : N (shifted_d_2 o (strike o))
              <= N (shifted_d_2 o (strike o - price_of o))).
  { apply N_monotone. apply shifted_d_2_decreasing; lra. }
  lra.
Qed.

Lemma put_profit_below_itm_witness :
  type flat_put = "put"
  /\ 0 < spot flat_put /\ 0 < strike flat_put /\ 0 < sigma flat_put /\ 0 < tau flat_put
  /\ option_price flat_put = Fin (price_of flat_put)
  /\ 0 < price_of flat_put /\ price_of flat_put < strike flat_put
  /\ exists pop itm, prob_of_profit flat_put = Fin (pop, itm) /\ pop <= itm.
Proof.
  split; [reflexivity | ].
  repeat (split; [simpl; lra | ]).
  assert (Hrun : option_price flat_put = Fin (price_of flat_put))
    by (apply option_price_regular; simpl; lra).
  assert (Hp : 0 < price_of flat_put)
    by (apply (@flat_price_pos "put"); right; reflexivity).
  assert (Hb : price_of flat_put < strike flat_put)
    by (apply (@flat_price_below_one "put"); right; reflexivity).
  split; [exact Hrun | split; [exact Hp | split; [exact Hb | ]]].
  apply (@put_profit_below_itm flat_put (price_of flat_put));
    [reflexivity | simpl; lra .. | exact Hrun | exact Hp | exact Hb].
Defined.

(** When [prob_of_profit] returns for a call and for the put on the same
    numbers, the in-the-money probability is N(d-) for the call and N(-d-)
    for the put; the two sum to 1. *)
Theorem itm_call_put (o : Option R) (pop_call itm_call pop_put itm_put : R) :
  0 < spot o -> 0 < strike o -> 0 < sigma o -> 0 < tau o ->
  prob_of_profit (set_type o "call") = Fin (pop_call, itm_call) ->
  prob_of_profit (set_type o "put") = Fin (pop_put, itm_put) ->
  itm_call = N (d_minus o) /\ itm_put = N (- d_minus o) /\ itm_call + itm_put = 1.
Proof.
  intros HS HK Hs Ht Hcall Hput.
  assert (Ec : itm_call = N (d_minus o)).
  { revert Hcall. unfold prob_of_profit.
    rewrite option_price_regular by (cbn [spot strike tau sigma set_type]; lra).
    cbn [bind type set_type String.eqb Ascii.eqb Bool.eqb].
    rewrite (@d_2_regular (set_type o "call"))
      by (cbn [spot strike tau sigma set_type]; lra).
    change (d_minus (set_type o "call")) with (d_minus o).
    destruct (np_sqrt _) as [q | | ]; cbn [bind]; try discriminate.
    destruct (np_div 1 _) as [c | | ]; cbn [bind]; try discriminate.
    destruct (np_div (spot _) _) as [x | | ]; cbn [bind]; try discriminate.
    destruct (np_log x) as [l | | ]; cbn [bind]; try discriminate.
    intro H. now inversion H. }
  assert (Ep : itm_put = 1 - N (d_minus o)).
  { revert Hput. unfold prob_of_profit.
    rewrite option_price_regular by (cbn [spot strike tau sigma set_type]; lra).
    cbn [bind type set_type String.eqb Ascii.eqb Bool.eqb].
    rewrite (@d_2_regular (set_type o "put"))
      by (cbn [spot strike tau sigma set_type]; lra).
    change (d_minus (set_type o "put")) with (d_minus o).
    destruct (np_sqrt _) as [q | | ]; cbn [bind]; try discriminate.
    destruct (np_div 1 _) as [c | | ]; cbn [bind]; try discriminate.
    destruct (np_div (spot _) _) as [x | | ]; cbn [bind]; try discriminate.
    destruct (np_log x) as [l | | ]; cbn [bind]; try discriminate.
    intro H. now inversion H. }
  pose proof (N_symmetry (d_minus o)). rewrite Ec, Ep. repeat split; lra.
Qed.

Lemma itm_call_put_witness :
  0 < spot flat_call /\ 0 < strike flat_call /\ 0 < sigma flat_call /\ 0 < tau flat_call
  /\ exists pop_call itm_call pop_put itm_put,
       prob_of_profit (set_type flat_call "call") = Fin (pop_call, itm_call)
       /\ prob_of_profit (set_type flat_call "put") = Fin (pop_put, itm_put)
       /\ itm_call = N (d_minus flat_call)
       /\ itm_put = N (- d_minus flat_call)
       /\ itm_call + itm_put = 1.
Proof.
  repeat (split; [simpl; lra | ]).
  pose proof (@flat_price_pos "call" ltac:(left; reflexivity)) as Hc.
  pose proof (@flat_price_below_one "put" ltac:(right; reflexivity)) as Hp.
  assert (Hcall : prob_of_profit (set_type flat_call "call")
                  = Fin (N (shifted_d_2 (set_type flat_call "call")
                              (strike (set_type flat_call "call")
                               + price_of (set_type flat_call "call"))),
                         N (d_minus (set_type flat_call "call")))).
  { apply prob_of_profit_call_regular;
      [simpl; lra | simpl; lra | simpl; lra | simpl; lra | reflexivity
      | cbn [strike set_type flat_call]; lra]. }
  assert (Hput : prob_of_profit (set_type flat_call "put")
                 = Fin (1 - N (shifted_d_2 (set_type flat_call "put")
                                 (strike (set_type flat_call "put")
                                  - price_of (set_type flat_call "put"))),
                        1 - N (d_minus (set_type flat_call "put")))).
  { apply prob_of_profit_put_regular;
      [simpl; lra | simpl; lra | simpl; lra | simpl; lra | reflexivity
      | cbn [strike set_type flat_call]; lra]. }
  do 4 eexists. split; [exact Hcall | split; [exact Hput | ]].
  exact (@itm_call_put flat_call _ _ _ _
           ltac:(simpl; lra) ltac:(simpl; lra) ltac:(simpl; lra) ltac:(simpl; lra)
           Hcall Hput).
Defined.

(** ** Expected return *)

(** An underlying that drifts at the risk-free rate gives an option that
    returns the risk-free rate, whatever its elasticity, as long as its
    price is not zero. *)
Theorem expected_return_risk_free (o : Option R) (price : R) :
  0 < spot o -> 0 < strike o -> 0 < sigma o -> 0 < tau o ->
  option_price o = Fin price -> price <> 0 ->
  expected_return o (r o) = Fin (r o).
Proof.
  intros HS HK Hs Ht Hrun Hprice. unfold expected_return.
  rewrite Hrun. cbn [bind].
  destruct (@greeks_gamma_vega o HS HK Hs Ht) as (g & -> & _). cbn [bind].
  rewrite np_div_nonzero by exact Hprice. cbn [bind]. f_equal. ring.
Qed.

Lemma expected_return_risk_free_witness :
  0 < spot flat_call /\ 0 < strike flat_call /\ 0 < sigma flat_call /\ 0 < tau flat_call
  /\ option_price flat_call = Fin (price_of flat_call)
  /\ expected_return flat_call (r flat_call) = Fin (r flat_call).
Proof.
  repeat (split; [simpl; lra | ]).
  assert (Hrun : option_price flat_call = Fin (price_of flat_call))
    by (apply option_price_regular; simpl; lra).
  split; [exact Hrun | ].
  apply (@expected_return_risk_free flat_call (price_of flat_call));
    [simpl; lra .. | exact Hrun | ].
  pose proof (@flat_price_pos "call" ltac:(left; reflexivity)) as Hp.
  change (set_type flat_call "call") with flat_call in Hp. lra.
Defined.

End AnalyticMore.

(* ================================================================== *)
(** * Option.py: the constructor's errors *)
(* ================================================================== *)

Module ConstructorFacts.
Import OptionFacts.

(** A kind that is neither call nor put is refused with "Invalid Option
    type", whatever the numbers and the region. *)
Theorem Option_init_invalid_type tau spot strike sigma r div ty rg :
  (lower ty =? "call") = false -> (lower ty =? "put") = false ->
  Option_init tau spot strike sigma r div ty rg
  = Raise (ValueError "Invalid Option type").
Proof.
  intros Hc Hp. rewrite Option_init_enum_checks, Hc, Hp. reflexivity.
Qed.

Lemma Option_init_invalid_type_witness :
  (lower "Straddle" =? "call") = false /\ (lower "Straddle" =? "put") = false
  /\ Option_init (Num 1) (Num 100) (Num 90) (Num 0.2) (Num 0.02) (Num 0) "Straddle" "moon"
     = Raise (ValueError "Invalid Option type").
Proof.
  split; [reflexivity | split; [reflexivity | ]].
  apply Option_init_invalid_type; reflexivity.
Defined.

(** With a valid kind, a region that is neither eu nor na is refused with
    "Invalid Option region"; the docstring's 'us' is among the refused. *)
Theorem Option_init_invalid_region tau spot strike sigma r div ty rg :
  lower ty = "call" \/ lower ty = "put" ->
  (lower rg =? "eu") = false -> (lower rg =? "na") = false ->
  Option_init tau spot strike sigma r div ty rg
  = Raise (ValueError "Invalid Option region").
Proof.
  intros Ht He Hn. rewrite Option_init_enum_checks, He, Hn.
  destruct Ht as [-> | ->]; reflexivity.
Qed.

Lemma Option_init_invalid_region_witness :
  (lower "put" = "call" \/ lower "put" = "put")
  /\ (lower "US" =? "eu") = false /\ (lower "US" =? "na") = false
  /\ Option_init (Num 1) (Num 100) (Num 90) (Num 0.2) (Num 0.02) (Num 0) "put" "US"
     = Raise (ValueError "Invalid Option region").
Proof.
  split; [right; reflexivity | split; [reflexivity | split; [reflexivity | ]]].
  apply Option_init_invalid_region; [right | | ]; reflexivity.
Defined.

(** Building an object again from the fields of a constructed one gives
    the same object: the stored kind and region are already lower case. *)
Theorem Option_init_round_trip t s k sg rr q ty rg o :
  Option_init t s k sg rr q ty rg = Ok o ->
  Option_init (tau o) (spot o) (strike o) (sigma o) (r o) (div o) (type o) (region o)
  = Ok o.
Proof.
  intro H. destruct (Option_init_enums _ _ _ _ _ _ _ _ H) as (Ht & Hr).
  rewrite Option_init_enum_checks.
  destruct o as [t' s' k' sg' rr' q' ty' rg'].
  cbn [type region tau spot strike sigma r div] in *.
  destruct Ht as [-> | ->], Hr as [-> | ->]; reflexivity.
Qed.

Lemma Option_init_round_trip_witness :
  Option_init (Num 1) (Num 100) (Num 90) (Num 0.2) (Num 0.02) (Num 0) "Call" "EU"
  = Ok (mkOption (Num 1) (Num 100) (Num 90) (Num 0.2) (Num 0.02) (Num 0) "call" "eu")
  /\ Option_init (Num 1) (Num 100) (Num 90) (Num 0.2) (Num 0.02) (Num 0) "call" "eu"
     = Ok (mkOption (Num 1) (Num 100) (Num 90) (Num 0.2) (Num 0.02) (Num 0) "call" "eu").
Proof.
  split; [exact Option_init_default | ].
  exact (Option_init_round_trip _ _ _ _ _ _ _ _ Option_init_default).
Defined.

End ConstructorFacts.

(* ================================================================== *)
(** * bopm.py: the two earlier pricers *)
(* ================================================================== *)

Module OldPricerFacts.
Import NdarrayFacts BopmFacts ScalarLattice.

(** Without a step, [o.tau / n] divides a float by the int 0. *)
Lemma option_price_old_no_step (o : Option R) :
  Bopm.option_price_old (of_floats o) 0 = Raise ZeroDivisionError.
Proof. reflexivity. Qed.


(** On a one-dimensional array the first axis is the last one. *)
Lemma first_axis_but_last_vector {A} (a : ndarray A) :
  ndim a = 1%nat -> first_axis_but_last (arr a) = slice_but_last (arr a).
Proof. destruct a; cbn; intro H; try discriminate; reflexivity. Qed.

Lemma first_axis_but_first_vector {A} (a : ndarray A) :
  ndim a = 1%nat -> first_axis_but_first (arr a) = slice_but_first (arr a).
Proof. destruct a; cbn; intro H; try discriminate; reflexivity. Qed.

Lemma index_first_den {A} (a : ndarray A) g :
  den 1 a 1 1 1 g -> index_first a = Ok (Scalar (g 0 0)%nat).
Proof.
  intros (Hd & Hr & Hc & _ & Hg).
  destruct a as [v | len f | rows cols f]; cbn in Hd; try discriminate.
  cbn in Hc. subst len. cbn. f_equal. f_equal. apply (Hg 0%nat 0%nat); lia.
Qed.

Section Old.
Variables (o : Option R) (n : nat).
Hypothesis n_pos : (1 <= n)%nat.

Section Loop.
Variables (aspot astrike ar adt au ad ap : ndarray R).
Hypothesis Hspot : den 1 aspot 0 1 1 (fun _ _ => spot o).
Hypothesis Hstrike : den 1 astrike 0 1 1 (fun _ _ => strike o).
Hypothesis Hr : den 1 ar 0 1 1 (fun _ _ => r o).
Hypothesis Hdt : den 1 adt 0 1 1 (fun _ _ => Lattice.dt o n).
Hypothesis Hu : den 1 au 0 1 1 (fun _ _ => Lattice.u o n).
Hypothesis Hd : den 1 ad 0 1 1 (fun _ _ => Lattice.d o n).
Hypothesis Hp : den 1 ap 0 1 1 (fun _ _ => Lattice.p o n).

(** The asset prices of level [i], as a vector. *)
Lemma assets_old_den i :
  eden 1 (aspot * au ** Np.isub (Z.of_nat i) (Np.arange (i + 1))
          * ad ** Np.arange (i + 1))%np
       1 1 (S i) (fun _ j => Lattice.asset o n i j).
Proof.
  eapply eden_conv; [np_eval | reflexivity | reflexivity | lia | ].
  intros k j Hk Hj. cbv beta. rewrite !(@pick_lt _ j) by lia. reflexivity.
Qed.

Lemma backward_step_old_den i ov V :
  den 1 ov 1 1 (S (S i)) V ->
  exists ov',
    Bopm.backward_step_old (of_floats o) aspot astrike ar adt au ad ap i ov = Ok ov'
    /\ den 1 ov' 1 1 (S i) (fun k j => Lattice.backward o n i (V k) j).
Proof.
  intro Hov. unfold Bopm.backward_step_old.
  rewrite first_axis_but_last_vector, first_axis_but_first_vector by apply Hov.
  np_bind_at 1%nat ov1 Hov1.
  assert (Hcont : den 1 ov1 1 1 (S i)
            (fun k j => exp (- r o * Lattice.dt o n)
                        * (Lattice.p o n * V k j + (1 - Lattice.p o n) * V k (S j)))).
  { eapply den_conv; [exact Hov1 | reflexivity | reflexivity | lia | ].
    intros k j Hk Hj. cbv beta. rewrite !(@pick_lt _ j) by lia. reflexivity. }
  clear Hov1.
  unfold Lattice.backward, Lattice.payoff. cbn [region type of_floats].
  destruct (region o =? "us").
  - np_bind_by_at 1%nat (assets_old_den i) current_assets Hassets.
    destruct (type o =? "call").
    + np_bind_at 1%nat exercise Hexercise.
      eassert (Hmax : eden 1 (Np.maximum ov1 exercise) _ _ _ _) by np_eval.
      destruct Hmax as (ov' & -> & Hov'). exists ov'. split; [reflexivity | ].
      eapply den_conv; [exact Hov' | reflexivity | reflexivity | lia | ].
      intros k j Hk Hj. cbv beta. rewrite !(@pick_lt _ j) by lia. reflexivity.
    + np_bind_at 1%nat exercise Hexercise.
      eassert (Hmax : eden 1 (Np.maximum ov1 exercise) _ _ _ _) by np_eval.
      destruct Hmax as (ov' & -> & Hov'). exists ov'. split; [reflexivity | ].
      eapply den_conv; [exact Hov' | reflexivity | reflexivity | lia | ].
      intros k j Hk Hj. cbv beta. rewrite !(@pick_lt _ j) by lia. reflexivity.
  - exists ov1. split; [reflexivity | exact Hcont].
Qed.

Lemma backward_loop_old_den m : forall ov V,
  den 1 ov 1 1 (S m) V ->
  exists ov',
    for_each (range_down m)
             (Bopm.backward_step_old (of_floats o) aspot astrike ar adt au ad ap) ov
    = Ok ov'
    /\ den 1 ov' 1 1 1 (fun k j => Lattice.induct o n m (V k) j).
Proof.
  induction m as [ | m IH]; intros ov V Hov.
  - exists ov. split; [reflexivity | exact Hov].
  - rewrite range_down_S. cbn [for_each].
    destruct (backward_step_old_den Hov) as (ov1 & -> & Hov1). cbn [bind].
    destruct (IH _ _ Hov1) as (ov' & -> & Hov'). exists ov'.
    split; [reflexivity | exact Hov'].
Qed.

End Loop.

(** On float fields and with at least one step [option_price_old] returns
    the root value. *)
Lemma option_price_old_root :
  type o = "call" \/ type o = "put" ->
  Bopm.option_price_old (of_floats o) n = Ok (Scalar (Lattice.root o n)).
Proof.
  intro type_ok. unfold Bopm.option_price_old. cbv zeta.
  cbn [tau sigma spot strike r div of_floats Np.asarray type].
  rewrite ProbabilityFacts.div_int_float by exact n_pos.
  np_bind_at 1%nat dt Hdt. np_bind_at 1%nat u Hu. np_bind_at 1%nat d Hd.
  np_bind_at 1%nat p Hp.
  pose proof (@scalar_den 1 R (spot o)) as Hspot.
  pose proof (@scalar_den 1 R (strike o)) as Hstrike.
  pose proof (@scalar_den 1 R (r o)) as Hr.
  np_bind_by_at 1%nat (assets_old_den Hspot Hu Hd n) asset_prices Hassets.
  assert (Hterminal :
    eden 1 (if type o =? "call"
            then Np.maximum (asset_prices - Scalar (strike o)) 0
            else if type o =? "put"
                 then Np.maximum (Scalar (strike o) - asset_prices) 0
                 else Raise UnboundLocalError)%np
         1 1 (S n) (fun _ j => Lattice.payoff o (Lattice.asset o n n j))).
  { unfold Lattice.payoff.
    destruct type_ok as [-> | ->]; cbn [String.eqb Ascii.eqb Bool.eqb].
    - eapply eden_conv; [np_eval | reflexivity | reflexivity | reflexivity | ].
      intros k j Hk Hj. cbv beta. rewrite !(@pick_lt _ j) by lia. reflexivity.
    - eapply eden_conv; [np_eval | reflexivity | reflexivity | reflexivity | ].
      intros k j Hk Hj. cbv beta. rewrite !(@pick_lt _ j) by lia. reflexivity. }
  np_bind_by_at 1%nat Hterminal option_values Hvalues.
  destruct (backward_loop_old_den Hspot Hstrike Hr Hdt Hu Hd Hp Hvalues)
    as (root_values & -> & Hroot).
  cbn [bind]. rewrite (index_first_den Hroot). reflexivity.
Qed.

End Old.

End OldPricerFacts.

(** ** The matrix pricer *)

Module MatrixPricerFacts.
Import ScalarLattice.

(** Writing column [i] from the top: entry [j] becomes [g a j], computed on
    the matrix [a] as it stands, where [g] reads nothing of column [i] but
    the entry it replaces. *)
Section Column.
Variables (g : (nat -> nat -> R) -> nat -> R) (i : nat).
Hypothesis g_reads :
  forall a a' j,
    (forall j' i', i' <> i -> a j' i' = a' j' i') -> a j i = a' j i ->
    g a j = g a' j.

Definition write_column (m : nat) (asset : nat -> nat -> R) : nat -> nat -> R :=
  fold_left (fun a j => Bopm.set_item a j i (g a j)) (seq 0 m) asset.

Lemma write_column_spec m asset :
  (forall j' i', i' <> i -> write_column m asset j' i' = asset j' i')
  /\ (forall j, (j < m)%nat -> write_column m asset j i = g asset j)
  /\ (forall j, (m <= j)%nat -> write_column m asset j i = asset j i).
Proof.
  unfold write_column. induction m as [ | m (IHo & IHw & IHk)].
  - cbn. repeat split; auto. intros; lia.
  - rewrite seq_S, fold_left_app. cbn [fold_left Nat.add].
    set (a := fold_left _ (seq 0 m) asset) in *.
    assert (Eg : g a m = g asset m) by (apply g_reads; [exact IHo | apply IHk; lia]).
    unfold Bopm.set_item. repeat split.
    + intros j' i' Hi. destruct (Nat.eqb_spec i' i); [contradiction | ].
      rewrite andb_false_r. now apply IHo.
    + intros j Hj. rewrite Nat.eqb_refl, andb_true_r.
      destruct (Nat.eqb_spec j m) as [-> | Hn]; [exact Eg | apply IHw; lia].
    + intros j Hj. destruct (Nat.eqb_spec j m); [lia | ]. cbn [andb]. apply IHk. lia.
Qed.

End Column.

Section Matrix.
Variables (o : Option R) (n : nat).



Definition fill_value (i : nat) (a : nat -> nat -> R) (j : nat) : R :=
  spot o * powerRZ (Lattice.u o n) (Z.of_nat i - Z.of_nat j)
  * powerRZ (Lattice.d o n) (Z.of_nat j).

Definition fill_column (asset : nat -> nat -> R) (i : nat) : nat -> nat -> R :=
  write_column (fill_value i) i (i + 1) asset.

Lemma fill_spec m : forall i j,
  (i < m)%nat -> (j <= i)%nat ->
  fold_left fill_column (seq 0 m) (fun _ _ => 0) j i = Lattice.asset o n i j.
Proof.
  induction m as [ | m IH]; intros i j Hi Hj; [lia | ].
  rewrite seq_S, fold_left_app. cbn [fold_left Nat.add]. unfold fill_column at 1.
  match goal with
  | |- write_column _ _ _ ?a _ _ = _ =>
      destruct (@write_column_spec (fill_value m) m ltac:(reflexivity) (m + 1) a)
        as (Ho & Hw & _)
  end.
  destruct (Nat.eq_dec i m) as [-> | Hn].
  - rewrite Hw by lia. reflexivity.
  - rewrite Ho by exact Hn. apply IH; lia.
Qed.

Definition step_value (i : nat) (a : nat -> nat -> R) (j : nat) : R :=
  let bival := exp (- r o * Lattice.dt o n)
               * (Lattice.p o n * a j (i + 1)%nat
                  + (1 - Lattice.p o n) * a (j + 1)%nat (i + 1)%nat) in
  if region o =? "us"
  then Rmax bival (Rmax (a j i - strike o) 0)
  else bival.

Lemma step_value_reads i a a' j :
  (forall j' i', i' <> i -> a j' i' = a' j' i') -> a j i = a' j i ->
  step_value i a j = step_value i a' j.
Proof.
  intros Hoff Hat. unfold step_value.
  rewrite !(Hoff _ (i + 1)%nat) by lia. rewrite Hat. reflexivity.
Qed.

Definition step_column (asset : nat -> nat -> R) (i : nat) : nat -> nat -> R :=
  write_column (step_value i) i (i + 1) asset.

Lemma step_loop m : forall asset V,
  (forall j, (j <= m)%nat -> asset j m = V j) ->
  (forall i j, (i < m)%nat -> (j <= i)%nat -> asset j i = Lattice.asset o n i j) ->
  fold_left step_column (range_down m) asset 0%nat 0%nat
  = Lattice.induct (set_type o "call") n m V 0%nat.
Proof.
  induction m as [ | m IH]; intros asset V HV Hraw.
  - cbn. apply HV. lia.
  - rewrite BopmFacts.range_down_S. cbn [fold_left Lattice.induct].
    unfold step_column at 2.
    destruct (@write_column_spec (step_value m) m (@step_value_reads m) (m + 1) asset)
      as (Ho & Hw & _).
    apply IH.
    + intros j Hj. rewrite Hw by lia.
      unfold step_value, Lattice.backward. cbv zeta.
      rewrite !Nat.add_1_r, (HV j), (HV (S j)), (Hraw m j) by lia.
      reflexivity.
    + intros i j Hi Hj. rewrite Ho by lia. apply Hraw; lia.
Qed.

(** The matrix pricer computes the lattice root whose early-exercise test
    uses the call's exercise value, whatever the kind of the contract. *)
Lemma option_price_old_old_root :
  (1 <= n)%nat ->
  Bopm.option_price_old_old o n
  = Ok (Lattice.induct (set_type o "call") n n
          (fun j => Lattice.payoff o (Lattice.asset o n n j)) 0%nat).
Proof.
  intro Hn. unfold Bopm.option_price_old_old.
  destruct (Nat.eqb_spec n 0) as [E | _]; [lia | ]. cbv zeta. f_equal.
  change (tau o / INR n) with (Lattice.dt o n).
  change (exp (sigma o * sqrt (Lattice.dt o n))) with (Lattice.u o n).
  change (1 / Lattice.u o n) with (Lattice.d o n).
  change ((exp ((r o - div o) * Lattice.dt o n) - Lattice.d o n)
          / (Lattice.u o n - Lattice.d o n)) with (Lattice.p o n).
  change (fold_left _ (seq 0 (n + 1)) (fun _ _ => 0))
    with (fold_left fill_column (seq 0 (n + 1)) (fun _ _ => 0)).
  set (raw := fold_left fill_column (seq 0 (n + 1)) (fun _ _ => 0)).
  match goal with
  | |- fold_left _ (range_down n) ?a _ _ = _ =>
      change (fold_left step_column (range_down n) a 0%nat 0%nat
              = Lattice.induct (set_type o "call") n n
                  (fun j => Lattice.payoff o (Lattice.asset o n n j)) 0%nat)
  end.
  apply step_loop.
  - intros j Hj. unfold Lattice.payoff.
    destruct (type o =? "call"); rewrite Nat.eqb_refl; unfold raw;
      rewrite fill_spec by lia; reflexivity.
  - intros i j Hi Hj.
    destruct (type o =? "call"); (destruct (Nat.eqb_spec i n); [lia | ]);
      unfold raw; apply fill_spec; lia.
Qed.

End Matrix.

End MatrixPricerFacts.

(** ** The three pricers side by side *)

Module PricerAgreement.
Import NdarrayFacts BopmFacts ScalarLattice OldPricerFacts MatrixPricerFacts.

(** On float fields, with at least one step and positive volatility and
    time to maturity, the vector pricer and the batch pricer compute the
    same number, early exercise included; the first hands it back as a
    float, the second as a sequence of one. *)
Theorem option_price_old_agrees (o : Option R) (n : nat) :
  type o = "call" \/ type o = "put" ->
  (1 <= n)%nat -> 0 < sigma o -> 0 < tau o ->
  exists price,
    Bopm.option_price_old (of_floats o) n = Ok (Scalar price)
    /\ Bopm.option_price (of_floats o) n = Ok (Series [price]).
Proof.
  intros Hty Hn _ _. exists (Lattice.root o n). split.
  - now apply option_price_old_root.
  - now apply option_price_of_floats.
Qed.

Lemma option_price_old_agrees_witness :
  (type (deep_put "us") = "call" \/ type (deep_put "us") = "put")
  /\ (1 <= 5)%nat /\ 0 < sigma (deep_put "us") /\ 0 < tau (deep_put "us")
  /\ exists price,
       Bopm.option_price_old (of_floats (deep_put "us")) 5 = Ok (Scalar price)
       /\ Bopm.option_price (of_floats (deep_put "us")) 5 = Ok (Series [price]).
Proof.
  split; [right; reflexivity | ].
  split; [lia | split; [simpl; lra | split; [simpl; lra | ]]].
  apply option_price_old_agrees; [right; reflexivity | lia | simpl; lra | simpl; lra].
Defined.

Lemma induct_same_exercise (o o' : Option R) n m :
  tau o' = tau o -> spot o' = spot o -> strike o' = strike o -> sigma o' = sigma o ->
  r o' = r o -> div o' = div o -> region o' = region o ->
  (region o =? "us") = false \/ type o' = type o ->
  forall V j, Lattice.induct o' n m V j = Lattice.induct o n m V j.
Proof.
  intros Et Es Ek Esg Er Eq Erg Hsame.
  assert (Ebw : forall i V j, Lattice.backward o' n i V j = Lattice.backward o n i V j).
  { intros i V j. unfold Lattice.backward, Lattice.payoff, Lattice.asset, Lattice.p,
      Lattice.d, Lattice.u, Lattice.dt.
    rewrite Et, Es, Ek, Esg, Er, Eq, Erg.
    destruct Hsame as [-> | ->]; reflexivity. }
  assert (Ext : forall m V V', (forall j, V j = V' j) ->
                  forall j, Lattice.induct o n m V j = Lattice.induct o n m V' j).
  { clear. induction m as [ | m IH]; intros V V' E j; [apply E | ].
    cbn [Lattice.induct]. apply IH. intro k. unfold Lattice.backward.
    now rewrite !E. }
  induction m as [ | m IH]; intros V j; [reflexivity | ].
  cbn [Lattice.induct]. rewrite IH. apply Ext. intro k. apply Ebw.
Qed.

(** Outside the region "us", and for calls in it, the matrix pricer
    returns the number the vector pricer returns (float fields, at least
    one step, positive volatility and time to maturity). *)
Theorem option_price_old_old_agrees (o : Option R) (n : nat) :
  type o = "call" \/ type o = "put" ->
  (region o =? "us") = false \/ type o = "call" ->
  (1 <= n)%nat -> 0 < sigma o -> 0 < tau o ->
  exists price,
    Bopm.option_price_old (of_floats o) n = Ok (Scalar price)
    /\ Bopm.option_price_old_old o n = Ok price.
Proof.
  intros Hty Hsame Hn _ _. exists (Lattice.root o n).
  split; [now apply option_price_old_root | ].
  rewrite option_price_old_old_root by exact Hn. unfold Lattice.root.
  f_equal. apply induct_same_exercise; try reflexivity.
  destruct Hsame as [H | H]; [left; exact H | right; rewrite H; reflexivity].
Qed.

Lemma option_price_old_old_agrees_witness :
  (type (deep_put "eu") = "call" \/ type (deep_put "eu") = "put")
  /\ ((region (deep_put "eu") =? "us") = false \/ type (deep_put "eu") = "call")
  /\ (1 <= 7)%nat /\ 0 < sigma (deep_put "eu") /\ 0 < tau (deep_put "eu")
  /\ exists price,
       Bopm.option_price_old (of_floats (deep_put "eu")) 7 = Ok (Scalar price)
       /\ Bopm.option_price_old_old (deep_put "eu") 7 = Ok price.
Proof.
  split; [right; reflexivity | split; [left; reflexivity | ]].
  split; [lia | split; [simpl; lra | split; [simpl; lra | ]]].
  apply option_price_old_old_agrees;
    [right; reflexivity | left; reflexivity | lia | simpl; lra | simpl; lra].
Defined.

Lemma asset_root (o : Option R) n : Lattice.asset o n 0 0 = spot o.
Proof. unfold Lattice.asset. cbn. ring. Qed.

Lemma asset_up (o : Option R) : Lattice.asset o 1 1 0 = spot o * Lattice.u o 1.
Proof.
  unfold Lattice.asset. change (Z.of_nat 1 - Z.of_nat 0)%Z with 1%Z.
  change (Z.of_nat 0) with 0%Z. rewrite powerRZ_1, powerRZ_O. ring.
Qed.

Lemma asset_down (o : Option R) : Lattice.asset o 1 1 1 = spot o * Lattice.d o 1.
Proof.
  unfold Lattice.asset. change (Z.of_nat 1 - Z.of_nat 1)%Z with 0%Z.
  change (Z.of_nat 1) with 1%Z. rewrite powerRZ_1, powerRZ_O. ring.
Qed.

(** The one-step put in the region "us", with positive volatility and
    time to maturity.  With c the discounted expectation of the two
    terminal payoffs, the vector pricer returns max(c, max(K - S, 0)) and
    the matrix pricer max(c, max(S - K, 0)): its early-exercise test takes
    the call's exercise value. *)
Theorem one_step_put_exercise (o : Option R) :
  type o = "put" -> region o = "us" -> 0 < sigma o -> 0 < tau o ->
  let c := exp (- r o * Lattice.dt o 1)
           * (Lattice.p o 1 * Rmax (strike o - spot o * Lattice.u o 1) 0
              + (1 - Lattice.p o 1) * Rmax (strike o - spot o * Lattice.d o 1) 0) in
  Bopm.option_price_old (of_floats o) 1
  = Ok (Scalar (Rmax c (Rmax (strike o - spot o) 0)))
  /\ Bopm.option_price_old_old o 1 = Ok (Rmax c (Rmax (spot o - strike o) 0)).
Proof.
  intros Hty Hrg _ _. cbv zeta. split.
  - rewrite option_price_old_root by (lia || (right; exact Hty)).
    unfold Lattice.root. cbn [Lattice.induct]. unfold Lattice.backward, Lattice.payoff.
    rewrite Hty, Hrg, asset_root, asset_up, asset_down. reflexivity.
  - rewrite option_price_old_old_root by lia. cbn [Lattice.induct].
    unfold Lattice.backward, Lattice.payoff.
    cbn [type region set_type r strike String.eqb Ascii.eqb Bool.eqb].
    rewrite Hty, Hrg.
    change (Lattice.dt (set_type o "call") 1) with (Lattice.dt o 1).
    change (Lattice.p (set_type o "call") 1) with (Lattice.p o 1).
    change (Lattice.asset (set_type o "call") 1 0 0) with (Lattice.asset o 1 0 0).
    rewrite asset_root, asset_up, asset_down. reflexivity.
Qed.

Lemma one_step_put_exercise_witness :
  type (deep_put "us") = "put" /\ region (deep_put "us") = "us"
  /\ 0 < sigma (deep_put "us") /\ 0 < tau (deep_put "us")
  /\ Bopm.option_price_old (of_floats (deep_put "us")) 1 = Ok (Scalar 1)
  /\ Bopm.option_price_old_old (deep_put "us") 1 = Ok 0.
Proof.
  split; [reflexivity | split; [reflexivity | ]].
  split; [simpl; lra | split; [simpl; lra | ]].
  destruct (@one_step_put_exercise (deep_put "us") eq_refl eq_refl
              ltac:(simpl; lra) ltac:(simpl; lra)) as (Hold & Hmat).
  rewrite Hold, Hmat.
  rewrite ExerciseStyle.deep_put_p, ExerciseStyle.deep_put_u.
  cbn [strike spot r deep_put].
  pose proof ExerciseStyle.exp_1_gt_2 as He.
  rewrite (Rmax_right (2 - 1 * exp 1) 0) by lra.
  replace (exp (- (1) * Lattice.dt (deep_put "us") 1)
           * (1 * 0 + (1 - 1) * Rmax (2 - 1 * Lattice.d (deep_put "us") 1) 0))
    with 0 by ring.
  rewrite (Rmax_left (2 - 1) 0), (Rmax_right (1 - 2) 0) by lra.
  rewrite Rmax_right, Rmax_left by lra.
  split; [do 2 f_equal; lra | reflexivity].
Defined.

(** A kind that is neither call nor put, set on an object after its
    construction: with at least one step the batch pricer and the vector
    pricer stop with UnboundLocalError, while the matrix pricer prices a
    put. *)
Theorem unknown_kind_prices (o : Option R) (ty : string) (n : nat) :
  (ty =? "call") = false -> (ty =? "put") = false -> (1 <= n)%nat ->
  Bopm.option_price (of_floats (set_type o ty)) n = Raise UnboundLocalError
  /\ Bopm.option_price_old (of_floats (set_type o ty)) n = Raise UnboundLocalError
  /\ Bopm.option_price_old_old (set_type o ty) n
     = Bopm.option_price_old_old (set_type o "put") n.
Proof.
  intros Hc Hp Hn. split; [ | split].
  - unfold Bopm.option_price. cbv zeta.
    cbn [tau sigma spot strike r div of_floats set_type Np.asarray type Bopm._to_col].
    np_bind_at 1%nat dt Hdt. np_bind_at 1%nat u Hu. np_bind_at 1%nat d Hd.
    np_bind_at 1%nat p Hp'. np_bind_at 1%nat asset_prices Hassets.
    rewrite Hc, Hp. reflexivity.
  - unfold Bopm.option_price_old. cbv zeta.
    cbn [tau sigma spot strike r div of_floats set_type Np.asarray type].
    rewrite ProbabilityFacts.div_int_float by exact Hn.
    np_bind_at 1%nat dt Hdt. np_bind_at 1%nat u Hu. np_bind_at 1%nat d Hd.
    np_bind_at 1%nat p Hp'. np_bind_at 1%nat asset_prices Hassets.
    rewrite Hc, Hp. reflexivity.
  - unfold Bopm.option_price_old_old.
    cbn [tau sigma spot strike r div set_type type region]. rewrite Hc. reflexivity.
Qed.

Lemma unknown_kind_prices_witness :
  ("straddle" =? "call") = false /\ ("straddle" =? "put") = false /\ (1 <= 100)%nat
  /\ Bopm.option_price (of_floats (set_type sample_call "straddle")) 100
     = Raise UnboundLocalError
  /\ Bopm.option_price_old (of_floats (set_type sample_call "straddle")) 100
     = Raise UnboundLocalError
  /\ Bopm.option_price_old_old (set_type sample_call "straddle") 100
     = Bopm.option_price_old_old (set_type sample_call "put") 100.
Proof.
  split; [reflexivity | split; [reflexivity | split; [lia | ]]].
  apply unknown_kind_prices; [reflexivity | reflexivity | lia].
Defined.

(** Without a step the two earlier pricers and the probability module
    divide the float [o.tau] by the int 0 and raise ZeroDivisionError; the
    probability module does so after the batch pricer has returned. *)
Theorem no_step_raises (o : Option R) (mu : R) :
  type o = "call" \/ type o = "put" ->
  Bopm.option_price_old (of_floats o) 0 = Raise ZeroDivisionError
  /\ Bopm.option_price_old_old o 0 = Raise ZeroDivisionError
  /\ Bopm.prob_of_profit (of_floats o) mu 0 = Raise ZeroDivisionError.
Proof.
  intro Hty. split; [reflexivity | split; [reflexivity | ]].
  unfold Bopm.prob_of_profit, Bopm.node_masses.
  rewrite option_price_of_floats by exact Hty. reflexivity.
Qed.

Lemma no_step_raises_witness :
  (type sample_call = "call" \/ type sample_call = "put")
  /\ Bopm.option_price_old (of_floats sample_call) 0 = Raise ZeroDivisionError
  /\ Bopm.option_price_old_old sample_call 0 = Raise ZeroDivisionError
  /\ Bopm.prob_of_profit (of_floats sample_call) 0.05 0 = Raise ZeroDivisionError.
Proof.
  split; [left; reflexivity | ].
  apply no_step_raises. left. reflexivity.
Defined.

End PricerAgreement.

(* ================================================================== *)
(** * bopm.py: properties of the lattice price *)
(* ================================================================== *)

Module LatticeProperties.
Import ScalarLattice.

(** An up-move multiplies the node price by u, a down-move by d. *)
Lemma asset_up_move (o : Option R) n i j :
  Lattice.asset o n (S i) j = Lattice.asset o n i j * Lattice.u o n.
Proof.
  unfold Lattice.asset. pose proof (u_pos o n).
  replace (Z.of_nat (S i) - Z.of_nat j)%Z with ((Z.of_nat i - Z.of_nat j) + 1)%Z by lia.
  rewrite powerRZ_add, powerRZ_1 by lra. ring.
Qed.

Lemma asset_down_move (o : Option R) n i j :
  Lattice.asset o n (S i) (S j) = Lattice.asset o n i j * Lattice.d o n.
Proof.
  unfold Lattice.asset. pose proof (d_pos o n).
  replace (Z.of_nat (S i) - Z.of_nat (S j))%Z with (Z.of_nat i - Z.of_nat j)%Z by lia.
  replace (Z.of_nat (S j)) with (Z.of_nat j + 1)%Z by lia.
  rewrite powerRZ_add, powerRZ_1 by lra. ring.
Qed.

(** The tree recombines: an up-move multiplies a node's price by u, a
    down-move by d = 1/u, and an up-move followed by a down-move leads back
    to the price it started from. *)
Theorem asset_tree_recombines (o : Option R) (n i j : nat) :
  Lattice.asset o n (S i) j = Lattice.asset o n i j * Lattice.u o n
  /\ Lattice.asset o n (S i) (S j) = Lattice.asset o n i j * Lattice.d o n
  /\ Lattice.asset o n (S (S i)) (S j) = Lattice.asset o n i j.
Proof.
  split; [apply asset_up_move | split; [apply asset_down_move | ]].
  rewrite asset_down_move, asset_up_move, Rmult_assoc, u_times_d. ring.
Qed.

(** The condition the source leaves commented out, dt < sigma^2 / (r - div)^2,
    in the form (r - div)^2 dt <= sigma^2: under it the risk-neutral
    probability is a probability. *)
Theorem risk_neutral_probability (o : Option R) (n : nat) :
  (1 <= n)%nat -> 0 < tau o -> 0 < sigma o ->
  (r o - div o) ^ 2 * Lattice.dt o n <= sigma o ^ 2 ->
  0 <= Lattice.p o n <= 1.
Proof.
  intros Hn Ht Hs Hcond.
  pose proof (dt_pos o Hn Ht) as Hdt.
  pose proof (u_above_d o Hn Ht Hs) as (Hd1 & Hu1).
  set (a := sigma o * sqrt (Lattice.dt o n)).
  set (b := (r o - div o) * Lattice.dt o n).
  assert (Hq : sqrt (Lattice.dt o n) * sqrt (Lattice.dt o n) = Lattice.dt o n)
    by (apply sqrt_sqrt; lra).
  assert (Hsq : 0 < sqrt (Lattice.dt o n)) by now apply sqrt_lt_R0.
  assert (Ha : 0 < a) by now apply Rmult_lt_0_compat.
  assert (Hb : b ^ 2 <= a ^ 2).
  { unfold a, b.
    replace ((sigma o * sqrt (Lattice.dt o n)) ^ 2)
      with (sigma o ^ 2 * Lattice.dt o n) by (rewrite <- Hq at 1; ring).
    replace (((r o - div o) * Lattice.dt o n) ^ 2)
      with ((r o - div o) ^ 2 * Lattice.dt o n * Lattice.dt o n) by ring.
    apply Rmult_le_compat_r; [lra | exact Hcond]. }
  assert (Hlo : - a <= b) by nra.
  assert (Hhi : b <= a) by nra.
  assert (Eu : Lattice.u o n = exp a) by reflexivity.
  assert (Ed : Lattice.d o n = exp (- a)).
  { unfold Lattice.d. rewrite Eu, exp_Ropp. field. pose proof (exp_pos a). lra. }
  assert (Hel : exp (- a) <= exp b).
  { destruct Hlo as [L | <-]; [left; now apply exp_increasing | right; reflexivity]. }
  assert (Heh : exp b <= exp a).
  { destruct Hhi as [L | ->]; [left; now apply exp_increasing | right; reflexivity]. }
  unfold Lattice.p. fold b. rewrite Ed in *. rewrite Eu in *.
  assert (Hden : 0 < exp a - exp (- a)) by lra.
  split.
  - apply Rmult_le_pos; [lra | left; now apply Rinv_0_lt_compat].
  - apply Rmult_le_reg_r with (exp a - exp (- a)); [exact Hden | ].
    unfold Rdiv. rewrite Rmult_assoc, Rinv_l by lra. lra.
Qed.

Lemma risk_neutral_probability_witness :
  (1 <= 100)%nat /\ 0 < tau sample_call /\ 0 < sigma sample_call
  /\ (r sample_call - div sample_call) ^ 2 * Lattice.dt sample_call 100
     <= sigma sample_call ^ 2
  /\ 0 <= Lattice.p sample_call 100 <= 1.
Proof.
  assert (Hc : (r sample_call - div sample_call) ^ 2 * Lattice.dt sample_call 100
               <= sigma sample_call ^ 2).
  { unfold Lattice.dt. cbn [r div tau sigma sample_call].
    replace (INR 100) with 100 by (rewrite (INR_IZR_INZ 100); reflexivity). lra. }
  split; [lia | split; [simpl; lra | split; [simpl; lra | split; [exact Hc | ]]]].
  apply risk_neutral_probability; [lia | simpl; lra | simpl; lra | exact Hc].
Defined.

(** ** Sign and early exercise *)

Lemma payoff_nonneg (o : Option R) x : 0 <= Lattice.payoff o x.
Proof. unfold Lattice.payoff. destruct (type o =? "call"); apply Rmax_r. Qed.

Section Order.
Variables (o : Option R) (n : nat).
Hypothesis p_unit : 0 <= Lattice.p o n <= 1.

Lemma continuation_mono (v1 v2 w1 w2 : R) :
  v1 <= w1 -> v2 <= w2 ->
  exp (- r o * Lattice.dt o n) * (Lattice.p o n * v1 + (1 - Lattice.p o n) * v2)
  <= exp (- r o * Lattice.dt o n) * (Lattice.p o n * w1 + (1 - Lattice.p o n) * w2).
Proof.
  intros H1 H2. apply Rmult_le_compat_l; [left; apply exp_pos | ].
  apply Rplus_le_compat; apply Rmult_le_compat_l; lra.
Qed.

Lemma backward_nonneg i V j :
  (forall k, 0 <= V k) -> 0 <= Lattice.backward o n i V j.
Proof.
  intro HV. unfold Lattice.backward. cbv zeta.
  assert (Hc : 0 <= exp (- r o * Lattice.dt o n)
                    * (Lattice.p o n * V j + (1 - Lattice.p o n) * V (S j))).
  { apply Rmult_le_pos; [left; apply exp_pos | ].
    apply Rplus_le_le_0_compat; apply Rmult_le_pos; try lra; apply HV. }
  destruct (region o =? "us"); [ | exact Hc].
  eapply Rle_trans; [exact Hc | apply Rmax_l].
Qed.

Lemma induct_nonneg m : forall V j,
  (forall k, 0 <= V k) -> 0 <= Lattice.induct o n m V j.
Proof.
  induction m as [ | m IH]; intros V j HV; cbn [Lattice.induct]; [apply HV | ].
  apply IH. intro k. now apply backward_nonneg.
Qed.

(** The same contract in the region "us": each backward step is at least
    the European one. *)
Lemma backward_us_above i V W j :
  (region o =? "us") = false ->
  (forall k, V k <= W k) ->
  Lattice.backward o n i V j <= Lattice.backward (set_region o "us") n i W j.
Proof.
  intros Hrg HVW. unfold Lattice.backward. cbv zeta. rewrite Hrg.
  cbn [region set_region String.eqb Ascii.eqb Bool.eqb].
  change (Lattice.dt (set_region o "us") n) with (Lattice.dt o n).
  change (Lattice.p (set_region o "us") n) with (Lattice.p o n).
  change (r (set_region o "us")) with (r o).
  eapply Rle_trans; [apply continuation_mono; apply HVW | apply Rmax_l].
Qed.

Lemma induct_us_above m : forall V W j,
  (region o =? "us") = false ->
  (forall k, V k <= W k) ->
  Lattice.induct o n m V j <= Lattice.induct (set_region o "us") n m W j.
Proof.
  induction m as [ | m IH]; intros V W j Hrg HVW; cbn [Lattice.induct]; [apply HVW | ].
  apply IH; [exact Hrg | ]. intro k. now apply backward_us_above.
Qed.

End Order.

(** For a European contract (float fields, at least one step, positive
    volatility and time to maturity) whose risk-neutral probability lies in
    [[0, 1]], the lattice price is not negative, and the price of the same
    contract in the region "us" is at least as high. *)
Theorem american_at_least_european (o : Option R) (n : nat) :
  type o = "call" \/ type o = "put" ->
  (region o =? "us") = false ->
  (1 <= n)%nat -> 0 < sigma o -> 0 < tau o ->
  0 <= Lattice.p o n <= 1 ->
  exists european american,
    Bopm.option_price (of_floats o) n = Ok (Series [european])
    /\ Bopm.option_price (of_floats (set_region o "us")) n = Ok (Series [american])
    /\ 0 <= european /\ european <= american.
Proof.
  intros Hty Hrg _ _ _ Hp.
  exists (Lattice.root o n), (Lattice.root (set_region o "us") n).
  split; [now apply option_price_of_floats | ].
  split; [now apply option_price_of_floats | ].
  unfold Lattice.root. split.
  - apply induct_nonneg; [exact Hp | ]. intro k. apply payoff_nonneg.
  - apply induct_us_above; [exact Hp | exact Hrg | ]. intro k. apply Rle_refl.
Qed.

Lemma american_at_least_european_witness :
  (type (deep_put "eu") = "call" \/ type (deep_put "eu") = "put")
  /\ (region (deep_put "eu") =? "us") = false
  /\ (1 <= 1)%nat /\ 0 < sigma (deep_put "eu") /\ 0 < tau (deep_put "eu")
  /\ 0 <= Lattice.p (deep_put "eu") 1 <= 1
  /\ exists european american,
       Bopm.option_price (of_floats (deep_put "eu")) 1 = Ok (Series [european])
       /\ Bopm.option_price (of_floats (set_region (deep_put "eu") "us")) 1
          = Ok (Series [american])
       /\ 0 <= european /\ european <= american.
Proof.
  assert (Hp : 0 <= Lattice.p (deep_put "eu") 1 <= 1)
    by (rewrite ExerciseStyle.deep_put_p; lra).
  split; [right; reflexivity | split; [reflexivity | ]].
  split; [lia | split; [simpl; lra | split; [simpl; lra | split; [exact Hp | ]]]].
  apply american_at_least_european;
    [right; reflexivity | reflexivity | lia | simpl; lra | simpl; lra | exact Hp].
Defined.

Lemma induct_last_step (o : Option R) n m : forall V,
  exists W, forall j, Lattice.induct o n (S m) V j = Lattice.backward o n 0 W j.
Proof.
  induction m as [ | m IH]; intro V.
  - exists V. reflexivity.
  - destruct (IH (Lattice.backward o n (S m) V)) as (W & HW). exists W. exact HW.
Qed.

(** In the region "us", with at least one step and positive volatility
    and time to maturity, the lattice price is at least the value of
    exercising at once. *)
Theorem american_at_least_exercise (o : Option R) (n : nat) :
  type o = "call" \/ type o = "put" ->
  region o = "us" -> (1 <= n)%nat -> 0 < sigma o -> 0 < tau o ->
  exists price,
    Bopm.option_price (of_floats o) n = Ok (Series [price])
    /\ Lattice.payoff o (spot o) <= price.
Proof.
  intros Hty Hrg Hn _ _. exists (Lattice.root o n).
  split; [now apply option_price_of_floats | ].
  unfold Lattice.root. destruct n as [ | m]; [lia | ].
  destruct (induct_last_step o (S m) m
              (fun j => Lattice.payoff o (Lattice.asset o (S m) (S m) j))) as (W & ->).
  unfold Lattice.backward. cbv zeta. rewrite Hrg. cbn [String.eqb Ascii.eqb Bool.eqb].
  replace (Lattice.asset o (S m) 0 0) with (spot o)
    by (unfold Lattice.asset; cbn; ring).
  apply Rmax_r.
Qed.

Lemma american_at_least_exercise_witness :
  (type (deep_put "us") = "call" \/ type (deep_put "us") = "put")
  /\ region (deep_put "us") = "us" /\ (1 <= 3)%nat
  /\ 0 < sigma (deep_put "us") /\ 0 < tau (deep_put "us")
  /\ exists price,
       Bopm.option_price (of_floats (deep_put "us")) 3 = Ok (Series [price])
       /\ Lattice.payoff (deep_put "us") (spot (deep_put "us")) <= price.
Proof.
  split; [right; reflexivity | split; [reflexivity | split; [lia | ]]].
  split; [simpl; lra | split; [simpl; lra | ]].
  apply american_at_least_exercise;
    [right; reflexivity | reflexivity | lia | simpl; lra | simpl; lra].
Defined.

(** ** Put-call parity on the lattice *)

Section Parity.
Variables (o : Option R) (n : nat).
Hypothesis n_pos : (1 <= n)%nat.
Hypothesis tau_pos : 0 < tau o.
Hypothesis sigma_pos : 0 < sigma o.
Hypothesis european : (region o =? "us") = false.

Lemma one_step_growth :
  Lattice.p o n * Lattice.u o n + (1 - Lattice.p o n) * Lattice.d o n
  = exp ((r o - div o) * Lattice.dt o n).
Proof.
  pose proof (u_above_d o n_pos tau_pos sigma_pos). unfold Lattice.p. field. lra.
Qed.

Lemma payoff_difference x :
  Lattice.payoff (set_type o "call") x - Lattice.payoff (set_type o "put") x
  = x - strike o.
Proof.
  unfold Lattice.payoff. cbn [type strike set_type String.eqb Ascii.eqb Bool.eqb].
  unfold Rmax. destruct (Rle_dec (x - strike o) 0), (Rle_dec (strike o - x) 0); lra.
Qed.

Lemma backward_difference i Vc Vp t :
  (forall j, Vc j - Vp j
             = Lattice.asset o n (S i) j * exp (- div o * t) - strike o * exp (- r o * t)) ->
  forall j,
    Lattice.backward (set_type o "call") n i Vc j
    - Lattice.backward (set_type o "put") n i Vp j
    = Lattice.asset o n i j * exp (- div o * (t + Lattice.dt o n))
      - strike o * exp (- r o * (t + Lattice.dt o n)).
Proof.
  intros H j. unfold Lattice.backward. cbv zeta.
  change (Lattice.dt (set_type o "call") n) with (Lattice.dt o n).
  change (Lattice.dt (set_type o "put") n) with (Lattice.dt o n).
  change (Lattice.p (set_type o "call") n) with (Lattice.p o n).
  change (Lattice.p (set_type o "put") n) with (Lattice.p o n).
  change (region (set_type o "call")) with (region o).
  change (region (set_type o "put")) with (region o).
  change (r (set_type o "call")) with (r o).
  change (r (set_type o "put")) with (r o).
  rewrite european.
  set (dt := Lattice.dt o n). set (p := Lattice.p o n).
  replace (exp (- r o * dt) * (p * Vc j + (1 - p) * Vc (S j))
           - exp (- r o * dt) * (p * Vp j + (1 - p) * Vp (S j)))
    with (exp (- r o * dt)
          * (p * (Vc j - Vp j) + (1 - p) * (Vc (S j) - Vp (S j)))) by ring.
  rewrite (H j), (H (S j)), asset_up_move, asset_down_move.
  replace (p * (Lattice.asset o n i j * Lattice.u o n * exp (- div o * t)
                - strike o * exp (- r o * t))
           + (1 - p) * (Lattice.asset o n i j * Lattice.d o n * exp (- div o * t)
                        - strike o * exp (- r o * t)))
    with (Lattice.asset o n i j * exp (- div o * t)
          * (p * Lattice.u o n + (1 - p) * Lattice.d o n)
          - strike o * exp (- r o * t)) by ring.
  unfold p. rewrite one_step_growth. fold dt.
  replace (- div o * (t + dt)) with (- r o * dt + (- div o * t + (r o - div o) * dt))
    by ring.
  replace (- r o * (t + dt)) with (- r o * dt + - r o * t) by ring.
  rewrite !exp_plus. ring.
Qed.

Lemma induct_difference m : forall Vc Vp t,
  (forall j, Vc j - Vp j
             = Lattice.asset o n m j * exp (- div o * t) - strike o * exp (- r o * t)) ->
  forall j,
    Lattice.induct (set_type o "call") n m Vc j
    - Lattice.induct (set_type o "put") n m Vp j
    = Lattice.asset o n 0 j * exp (- div o * (t + INR m * Lattice.dt o n))
      - strike o * exp (- r o * (t + INR m * Lattice.dt o n)).
Proof.
  induction m as [ | m IH]; intros Vc Vp t H j.
  - cbn [Lattice.induct INR]. rewrite H. do 2 f_equal; f_equal; ring.
  - cbn [Lattice.induct].
    rewrite (IH _ _ (t + Lattice.dt o n)) by (now apply backward_difference).
    rewrite S_INR. do 2 f_equal; f_equal; ring.
Qed.

Lemma root_difference :
  Lattice.root (set_type o "call") n - Lattice.root (set_type o "put") n
  = spot o * exp (- div o * tau o) - strike o * exp (- r o * tau o).
Proof.
  unfold Lattice.root.
  rewrite (@induct_difference n _ _ 0).
  - rewrite Rplus_0_l, steps_dt by exact n_pos.
    replace (Lattice.asset o n 0 0) with (spot o)
      by (unfold Lattice.asset; cbn; ring).
    reflexivity.
  - intro j.
    change (Lattice.asset (set_type o "call") n n j) with (Lattice.asset o n n j).
    change (Lattice.asset (set_type o "put") n n j) with (Lattice.asset o n n j).
    rewrite payoff_difference, !Rmult_0_r, exp_0. ring.
Qed.

End Parity.

(** Put-call parity on the lattice, at every number of steps: for a
    European contract with positive time to maturity and volatility,
    call - put = S e^(-div tau) - K e^(-r tau).  The lattice discounts the
    spot by the dividend yield. *)
Theorem lattice_put_call_parity (o : Option R) (n : nat) :
  (1 <= n)%nat -> 0 < tau o -> 0 < sigma o -> (region o =? "us") = false ->
  exists call put,
    Bopm.option_price (of_floats (set_type o "call")) n = Ok (Series [call])
    /\ Bopm.option_price (of_floats (set_type o "put")) n = Ok (Series [put])
    /\ call - put = spot o * exp (- div o * tau o) - strike o * exp (- r o * tau o).
Proof.
  intros Hn Ht Hs Hrg.
  exists (Lattice.root (set_type o "call") n), (Lattice.root (set_type o "put") n).
  split; [apply option_price_of_floats; left; reflexivity | ].
  split; [apply option_price_of_floats; right; reflexivity | ].
  now apply root_difference.
Qed.

Lemma lattice_put_call_parity_witness :
  (1 <= 100)%nat /\ 0 < tau unit_put /\ 0 < sigma unit_put
  /\ (region unit_put =? "us") = false
  /\ exists call put,
       Bopm.option_price (of_floats (set_type unit_put "call")) 100 = Ok (Series [call])
       /\ Bopm.option_price (of_floats (set_type unit_put "put")) 100 = Ok (Series [put])
       /\ call - put
          = spot unit_put * exp (- div unit_put * tau unit_put)
            - strike unit_put * exp (- r unit_put * tau unit_put).
Proof.
  split; [lia | split; [simpl; lra | split; [simpl; lra | split; [reflexivity | ]]]].
  apply lattice_put_call_parity; [lia | simpl; lra | simpl; lra | reflexivity].
Defined.

End LatticeProperties.

(* ================================================================== *)
(** * bopm.py: the probability of profit in closed form *)
(* ================================================================== *)

Module ProfitFacts.
Import NdarrayFacts BopmFacts ScalarLattice ProbabilityFacts.

Lemma prob_of_profit_masses (o : Option R) (mu : R) (n : nat) :
  type o = "call" \/ type o = "put" -> (1 <= n)%nat ->
  0 <= LatticeSpec.p_real o mu n <= 1 ->
  Bopm.prob_of_profit (of_floats o) mu n
  = Ok (Finite (NodeMasks.mass_where n (LatticeSpec.p_real o mu n)
                  (NodeMasks.is_profitable o n)),
        Finite (NodeMasks.mass_where n (LatticeSpec.p_real o mu n)
                  (NodeMasks.is_itm o n))).
Proof.
  intros Hty Hn Hp.
  destruct (@node_masses_run o mu n Hty Hn Hp)
    as (a & b & c & _ & _ & _ & _ & Hrun & _).
  exact Hrun.
Qed.

Lemma node_mass_nonneg n p j : 0 <= p <= 1 -> 0 <= LatticeSpec.node_mass n p j.
Proof.
  intros [H0 H1]. unfold LatticeSpec.node_mass.
  apply Rmult_le_pos; [apply Rmult_le_pos | ].
  - unfold C. apply Rmult_le_pos; [apply pos_INR | ].
    left. apply Rinv_0_lt_compat. apply Rmult_lt_0_compat; apply INR_fact_lt_0.
  - apply pow_le. exact H0.
  - apply pow_le. lra.
Qed.

Lemma sum_le (f g : nat -> R) n :
  (forall j, (j <= n)%nat -> f j <= g j) -> sum_f_R0 f n <= sum_f_R0 g n.
Proof.
  induction n as [ | n IH]; intro H; cbn [sum_f_R0]; [apply H; lia | ].
  apply Rplus_le_compat; [apply IH; intros; apply H; lia | apply H; lia].
Qed.

Lemma mass_where_mono n p (m1 m2 : nat -> bool) :
  0 <= p <= 1 ->
  (forall j, m1 j = true -> m2 j = true) ->
  NodeMasks.mass_where n p m1 <= NodeMasks.mass_where n p m2.
Proof.
  intros Hp Hsub. unfold NodeMasks.mass_where. apply sum_le. intros j _.
  pose proof (node_mass_nonneg n j Hp).
  destruct (m1 j) eqn:E1; [rewrite (Hsub j E1); lra | ].
  destruct (m2 j); lra.
Qed.

Lemma mass_where_all n p : NodeMasks.mass_where n p (fun _ => true) = 1.
Proof.
  unfold NodeMasks.mass_where. rewrite <- total_seq_sum. apply node_mass_total.
Qed.

Lemma mass_where_none n p : NodeMasks.mass_where n p (fun _ => false) = 0.
Proof.
  unfold NodeMasks.mass_where. apply sum_eq_R0. reflexivity.
Qed.

(** A profitable node is in the money when the price is not negative. *)
Lemma profitable_in_money (o : Option R) n j :
  0 <= Lattice.root o n ->
  NodeMasks.is_profitable o n j = true -> NodeMasks.is_itm o n j = true.
Proof.
  intro Hprice. unfold NodeMasks.is_profitable, NodeMasks.is_itm, Lattice.payoff.
  assert (Hfloor : 0 <= Lattice.root o n * exp (r o * tau o)).
  { apply Rmult_le_pos; [exact Hprice | left; apply exp_pos]. }
  destruct (Rlt_dec _ _) as [Hlt | _]; [intros _ | discriminate].
  destruct (type o =? "call").
  - destruct (Rlt_dec _ _) as [ | Hn]; [reflexivity | exfalso].
    rewrite Rmax_right in Hlt by lra. lra.
  - destruct (Rlt_dec _ _) as [ | Hn]; [reflexivity | exfalso].
    rewrite Rmax_right in Hlt by lra. lra.
Qed.

Lemma sum_last_only (f : nat -> R) n :
  (forall j, (j < n)%nat -> f j = 0) -> sum_f_R0 f n = f n.
Proof.
  intro H. destruct n as [ | n]; [reflexivity | ].
  cbn [sum_f_R0]. rewrite sum_eq_R0; [ring | ]. intros j Hj. apply H. lia.
Qed.

Lemma node_mass_sure n j : (j < n)%nat -> LatticeSpec.node_mass n 1 j = 0.
Proof.
  intro Hj. unfold LatticeSpec.node_mass.
  replace (1 - 1) with 0 by ring. rewrite pow_i by lia. ring.
Qed.

Lemma node_mass_sure_last n : LatticeSpec.node_mass n 1 n = 1.
Proof.
  pose proof (node_mass_total n 1) as H. rewrite total_seq_sum in H.
  rewrite sum_last_only in H; [exact H | ].
  intros j Hj. now apply node_mass_sure.
Qed.

Lemma mass_where_sure n mask :
  NodeMasks.mass_where n 1 mask = if mask n then 1 else 0.
Proof.
  unfold NodeMasks.mass_where. rewrite sum_last_only.
  - now rewrite node_mass_sure_last.
  - intros j Hj. rewrite node_mass_sure by exact Hj. now destruct (mask j).
Qed.

(** For a contract with float fields, at least one step, positive
    volatility and time to maturity and a real-world probability p_real in
    [[0, 1]], the probability of profit is the Binomial(n, p_real) mass
    C(n, j) p_real^j (1 - p_real)^(n - j) summed over the terminal nodes j
    whose payoff exceeds price * e^(r tau), and the in-the-money
    probability is that mass summed over the nodes whose price
    S u^(n - j) d^j is beyond the strike. *)
Theorem prob_of_profit_closed_form (o : Option R) (mu : R) (n : nat) :
  type o = "call" \/ type o = "put" ->
  (1 <= n)%nat -> 0 < sigma o -> 0 < tau o ->
  0 <= LatticeSpec.p_real o mu n <= 1 ->
  Bopm.prob_of_profit (of_floats o) mu n
  = Ok (Finite (NodeMasks.mass_where n (LatticeSpec.p_real o mu n)
                  (NodeMasks.is_profitable o n)),
        Finite (NodeMasks.mass_where n (LatticeSpec.p_real o mu n)
                  (NodeMasks.is_itm o n))).
Proof. intros Hty Hn _ _ Hp. now apply prob_of_profit_masses. Qed.

Lemma prob_of_profit_closed_form_witness :
  (type (deep_put "eu") = "call" \/ type (deep_put "eu") = "put")
  /\ (1 <= 1)%nat /\ 0 < sigma (deep_put "eu") /\ 0 < tau (deep_put "eu")
  /\ 0 <= LatticeSpec.p_real (deep_put "eu") 1 1 <= 1
  /\ Bopm.prob_of_profit (of_floats (deep_put "eu")) 1 1
     = Ok (Finite (NodeMasks.mass_where 1 (LatticeSpec.p_real (deep_put "eu") 1 1)
                     (NodeMasks.is_profitable (deep_put "eu") 1)),
           Finite (NodeMasks.mass_where 1 (LatticeSpec.p_real (deep_put "eu") 1 1)
                     (NodeMasks.is_itm (deep_put "eu") 1))).
Proof.
  assert (Hp : 0 <= LatticeSpec.p_real (deep_put "eu") 1 1 <= 1)
    by (rewrite deep_put_p_real; lra).
  split; [right; reflexivity | ].
  split; [lia | split; [simpl; lra | split; [simpl; lra | split; [exact Hp | ]]]].
  apply prob_of_profit_closed_form;
    [right; reflexivity | lia | simpl; lra | simpl; lra | exact Hp].
Defined.

(** When the risk-neutral and the real-world probability both lie in
    [[0, 1]] (float fields, at least one step, positive volatility and time
    to maturity), the two returned probabilities are ordered:
    0 <= POP <= ITM <= 1. *)
Theorem profit_below_in_money (o : Option R) (mu : R) (n : nat) :
  type o = "call" \/ type o = "put" ->
  (1 <= n)%nat -> 0 < sigma o -> 0 < tau o ->
  0 <= Lattice.p o n <= 1 ->
  0 <= LatticeSpec.p_real o mu n <= 1 ->
  exists pop itm,
    Bopm.prob_of_profit (of_floats o) mu n = Ok (Finite pop, Finite itm)
    /\ 0 <= pop /\ pop <= itm /\ itm <= 1.
Proof.
  intros Hty Hn _ _ Hp Hreal. do 2 eexists.
  split; [now apply prob_of_profit_masses | ].
  assert (Hprice : 0 <= Lattice.root o n).
  { unfold Lattice.root. apply LatticeProperties.induct_nonneg; [exact Hp | ].
    intro k. apply LatticeProperties.payoff_nonneg. }
  split; [ | split].
  - rewrite <- (mass_where_none n (LatticeSpec.p_real o mu n)).
    apply mass_where_mono; [exact Hreal | discriminate].
  - apply mass_where_mono; [exact Hreal | ].
    intro j. now apply profitable_in_money.
  - rewrite <- (mass_where_all n (LatticeSpec.p_real o mu n)).
    apply mass_where_mono; [exact Hreal | reflexivity].
Qed.

Lemma profit_below_in_money_witness :
  (type (deep_put "eu") = "call" \/ type (deep_put "eu") = "put")
  /\ (1 <= 1)%nat /\ 0 < sigma (deep_put "eu") /\ 0 < tau (deep_put "eu")
  /\ 0 <= Lattice.p (deep_put "eu") 1 <= 1
  /\ 0 <= LatticeSpec.p_real (deep_put "eu") 1 1 <= 1
  /\ exists pop itm,
       Bopm.prob_of_profit (of_floats (deep_put "eu")) 1 1 = Ok (Finite pop, Finite itm)
       /\ 0 <= pop /\ pop <= itm /\ itm <= 1.
Proof.
  assert (Hp : 0 <= Lattice.p (deep_put "eu") 1 <= 1)
    by (rewrite ExerciseStyle.deep_put_p; lra).
  assert (Hreal : 0 <= LatticeSpec.p_real (deep_put "eu") 1 1 <= 1)
    by (rewrite deep_put_p_real; lra).
  split; [right; reflexivity | ].
  split; [lia | split; [simpl; lra | split; [simpl; lra | ]]].
  split; [exact Hp | split; [exact Hreal | ]].
  apply profit_below_in_money;
    [right; reflexivity | lia | simpl; lra | simpl; lra | exact Hp | exact Hreal].
Defined.

(** When an up-move is certain under the real-world measure
    (p_real = 1), the whole mass sits on node n, whose price S d^n is the
    one reached by n down-moves: the mass of node j is that of j successes
    of probability p_real, and j counts the down-moves. *)
Theorem sure_up_move_mass (o : Option R) (mu : R) (n : nat) :
  type o = "call" \/ type o = "put" ->
  (1 <= n)%nat -> 0 < sigma o -> 0 < tau o ->
  LatticeSpec.p_real o mu n = 1 ->
  Bopm.prob_of_profit (of_floats o) mu n
  = Ok (Finite (if NodeMasks.is_profitable o n n then 1 else 0),
        Finite (if NodeMasks.is_itm o n n then 1 else 0))
  /\ Lattice.asset o n n n = spot o * Lattice.d o n ^ n.
Proof.
  intros Hty Hn _ _ Hreal. split.
  - rewrite prob_of_profit_masses by (rewrite ?Hreal; auto; lra).
    rewrite Hreal, !mass_where_sure. reflexivity.
  - unfold Lattice.asset. rewrite Z.sub_diag, powerRZ_O, <- pow_powerRZ. ring.
Qed.

Lemma sure_up_move_mass_witness :
  (type (deep_put "eu") = "call" \/ type (deep_put "eu") = "put")
  /\ (1 <= 1)%nat /\ 0 < sigma (deep_put "eu") /\ 0 < tau (deep_put "eu")
  /\ LatticeSpec.p_real (deep_put "eu") 1 1 = 1
  /\ Bopm.prob_of_profit (of_floats (deep_put "eu")) 1 1
     = Ok (Finite (if NodeMasks.is_profitable (deep_put "eu") 1 1 then 1 else 0),
           Finite (if NodeMasks.is_itm (deep_put "eu") 1 1 then 1 else 0))
  /\ Lattice.asset (deep_put "eu") 1 1 1
     = spot (deep_put "eu") * Lattice.d (deep_put "eu") 1 ^ 1.
Proof.
  split; [right; reflexivity | ].
  split; [lia | split; [simpl; lra | split; [simpl; lra | ]]].
  split; [apply deep_put_p_real | ].
  apply sure_up_move_mass;
    [right; reflexivity | lia | simpl; lra | simpl; lra | apply deep_put_p_real].
Defined.

End ProfitFacts.

(* ================================================================== *)
(** * bopm.py: batches that do not broadcast *)
(* ================================================================== *)

Module BroadcastErrors.
Import NdarrayFacts BopmFacts.

Lemma clash_bdim a b : a <> b -> a <> 1%nat -> b <> 1%nat -> bdim a b = None.
Proof.
  intros Hab Ha Hb. unfold bdim.
  apply Nat.eqb_neq in Hab, Ha, Hb. now rewrite Hab, Ha, Hb.
Qed.

Lemma broadcast_clash {A B C} (f : A -> B -> C) a b :
  nrows a <> nrows b -> nrows a <> 1%nat -> nrows b <> 1%nat ->
  broadcast f a b = Raise broadcast_error.
Proof.
  intros Hab Ha Hb. unfold broadcast. now rewrite clash_bdim.
Qed.

Lemma clash_rows v w :
  clash v w -> vrows v <> vrows w /\ vrows v <> 1%nat /\ vrows w <> 1%nat.
Proof. destruct v, w; cbn; tauto. Qed.

Lemma to_col_rows v : nrows (Bopm._to_col v) = vrows v.
Proof. destruct v; reflexivity. Qed.

(** A column of one entry, or of one entry per contract. *)
Lemma to_col_den_wide M v :
  vrows v = 1%nat \/ vrows v = M ->
  exists g, den M (Bopm._to_col v) (vdim v) (vrows v) 1 g.
Proof.
  intro H. destruct v as [x | xs].
  - exists (fun _ _ => x). apply scalar_den.
  - exists (fun i _ => nth (pick (List.length xs) i) xs 0).
    repeat split; auto.
Qed.

Lemma rmax_clash a b c :
  (a = 1%nat \/ a = rmax a b) -> (b = 1%nat \/ b = rmax a b) ->
  (a <> c /\ a <> 1%nat /\ c <> 1%nat) \/ (b <> c /\ b <> 1%nat /\ c <> 1%nat) ->
  rmax a b <> c /\ rmax a b <> 1%nat.
Proof.
  unfold rmax. destruct (Nat.eqb_spec a 1) as [-> | Ha]; intros; lia.
Qed.

Section Clash.
Variables (o : Option value) (n : nat).
Hypothesis spot_float : is_float (spot o).
Hypothesis r_float : is_float (r o).
Hypothesis div_float : is_float (div o).
Hypothesis type_ok : type o = "call" \/ type o = "put".

(** Volatility against time to maturity: the product under the square
    root's exponential does not broadcast. *)
Lemma clash_sigma_tau :
  clash (sigma o) (tau o) -> Bopm.option_price o n = Raise broadcast_error.
Proof.
  intro Hclash. destruct (clash_rows _ _ Hclash) as (Hne & Hs1 & Ht1).
  unfold Bopm.option_price. cbv zeta.
  destruct (@to_col_den_wide (vrows (tau o)) (tau o)) as (gt & Htau); [now right | ].
  np_bind_at (vrows (tau o)) dt Hdt.
  unfold Np.exp, Np.sqrt, lift1, lift2. cbn [arr fmap bind ret].
  rewrite broadcast_clash; [reflexivity | | | ].
  - rewrite to_col_rows.
    replace (nrows (amap sqrt dt)) with (nrows dt) by (destruct dt; reflexivity).
    destruct Hdt as (_ & -> & _). unfold rmax.
    apply Nat.eqb_neq in Ht1. rewrite Ht1. exact Hne.
  - now rewrite to_col_rows.
  - replace (nrows (amap sqrt dt)) with (nrows dt) by (destruct dt; reflexivity).
    destruct Hdt as (_ & -> & _). unfold rmax.
    pose proof Ht1 as Ht1'. apply Nat.eqb_neq in Ht1'. now rewrite Ht1'.
Qed.

(** The strike against the rows the other two fields give the tree. *)
Lemma clash_strike :
  ~ clash (sigma o) (tau o) ->
  clash (sigma o) (strike o) \/ clash (tau o) (strike o) ->
  Bopm.option_price o n = Raise broadcast_error.
Proof.
  intros Hfit Hclash.
  set (M := rmax (vrows (sigma o)) (vrows (tau o))).
  assert (Hrows : (vrows (sigma o) = 1%nat \/ vrows (sigma o) = M)
                  /\ (vrows (tau o) = 1%nat \/ vrows (tau o) = M)).
  { unfold M, rmax. destruct (Nat.eqb_spec (vrows (sigma o)) 1) as [E | E].
    - split; [left; exact E | right; reflexivity].
    - split; [right; reflexivity | ].
      destruct (Nat.eq_dec (vrows (tau o)) 1) as [E1 | E1]; [left; exact E1 | right].
      destruct (Nat.eq_dec (vrows (tau o)) (vrows (sigma o))) as [E2 | E2];
        [exact E2 | exfalso].
      apply Hfit. destruct (sigma o), (tau o); cbn in *; try lia. }
  destruct Hrows as (Hsr & Htr).
  assert (HM : M <> vrows (strike o) /\ M <> 1%nat /\ vrows (strike o) <> 1%nat).
  { assert (Hk1 : vrows (strike o) <> 1%nat).
    { destruct Hclash as [H | H]; apply clash_rows in H; tauto. }
    assert (Hc : (vrows (sigma o) <> vrows (strike o) /\ vrows (sigma o) <> 1%nat
                  /\ vrows (strike o) <> 1%nat)
                 \/ (vrows (tau o) <> vrows (strike o) /\ vrows (tau o) <> 1%nat
                     /\ vrows (strike o) <> 1%nat)).
    { destruct Hclash as [H | H]; apply clash_rows in H; tauto. }
    destruct (@rmax_clash (vrows (sigma o)) (vrows (tau o)) (vrows (strike o))
                Hsr Htr Hc) as (Hx & Hy).
    repeat split; assumption. }
  destruct HM as (HMk & HM1 & Hk1).
  unfold Bopm.option_price. cbv zeta.
  destruct (to_col_den_wide (tau o) Htr) as (gt & Htau).
  destruct (to_col_den_wide (sigma o) Hsr) as (gs & Hsigma).
  assert (Hspot : den M (Np.asarray (spot o)) 0 1 1 (fun i _ => at_row (spot o) i))
    by (destruct (spot o); [apply scalar_den | contradiction]).
  assert (Hr : den M (Np.asarray (r o)) 0 1 1 (fun i _ => at_row (r o) i))
    by (destruct (r o); [apply scalar_den | contradiction]).
  assert (Hdiv : den M (Np.asarray (div o)) 0 1 1 (fun i _ => at_row (div o) i))
    by (destruct (div o); [apply scalar_den | contradiction]).
  np_bind_at M dt Hdt. np_bind_at M u Hu. np_bind_at M d Hd. np_bind_at M p Hp.
  np_bind_at M asset_prices Hassets.
  assert (Hnr : nrows asset_prices = M).
  { destruct Hassets as (_ & -> & _ & _).
    clear. subst M. unfold rmax.
    generalize (vrows (sigma o)) (vrows (tau o)). intros s t.
    destruct (Nat.eqb_spec s 1) as [-> | Es]; destruct (Nat.eqb_spec t 1) as [-> | Et];
      try apply Nat.eqb_neq in Es; try apply Nat.eqb_neq in Et;
      repeat (progress (cbn [Nat.eqb]; rewrite ?Es, ?Et)); reflexivity. }
  assert (Hbr : forall f : R -> R -> R,
            broadcast f asset_prices (Bopm._to_col (strike o)) = Raise broadcast_error
            /\ broadcast f (Bopm._to_col (strike o)) asset_prices = Raise broadcast_error).
  { intro f. split; apply broadcast_clash; rewrite ?Hnr, ?to_col_rows; auto. }
  destruct type_ok as [-> | ->]; cbn [String.eqb Ascii.eqb Bool.eqb];
    unfold Np.maximum, lift2; cbn [arr bind];
    rewrite (proj1 (Hbr _)) || rewrite (proj2 (Hbr _)); reflexivity.
Qed.

End Clash.

(** Two of time to maturity, volatility and strike given as sequences
    whose lengths differ, neither being 1: the batch pricer stops with
    NumPy's broadcast error. *)
Theorem mismatched_batch_raises (o : Option value) (n : nat) :
  is_float (spot o) -> is_float (r o) -> is_float (div o) ->
  type o = "call" \/ type o = "put" ->
  clash (sigma o) (tau o) \/ clash (sigma o) (strike o) \/ clash (tau o) (strike o) ->
  Bopm.option_price o n = Raise broadcast_error.
Proof.
  intros Hspot Hr Hdiv Hty Hclash.
  assert (Hdec : clash (sigma o) (tau o) \/ ~ clash (sigma o) (tau o)).
  { destruct (sigma o) as [x | xs], (tau o) as [y | ys]; cbn; try tauto;
      destruct (Nat.eq_dec (List.length xs) (List.length ys)),
               (Nat.eq_dec (List.length xs) 1), (Nat.eq_dec (List.length ys) 1); tauto. }
  destruct Hdec as [H | H].
  - now apply clash_sigma_tau.
  - apply clash_strike; try assumption. tauto.
Qed.

Lemma mismatched_batch_raises_witness :
  is_float (spot strikes_and_sigmas) /\ is_float (r strikes_and_sigmas)
  /\ is_float (div strikes_and_sigmas)
  /\ (type strikes_and_sigmas = "call" \/ type strikes_and_sigmas = "put")
  /\ clash (sigma strikes_and_sigmas) (strike strikes_and_sigmas)
  /\ Bopm.option_price strikes_and_sigmas 100 = Raise broadcast_error.
Proof.
  assert (Hclash : clash (sigma strikes_and_sigmas) (strike strikes_and_sigmas))
    by (cbn; repeat split; lia).
  split; [exact I | split; [exact I | split; [exact I | ]]].
  split; [left; reflexivity | split; [exact Hclash | ]].
  apply mismatched_batch_raises; [exact I | exact I | exact I | left; reflexivity | ].
  right. left. exact Hclash.
Defined.

End BroadcastErrors.
